(** * Lumberjack: the console facade and its storage backends, verified
      over a shallow embedding

    The development follows the TypeScript sources:

    - [Utilities]: [encode], [printf], [intersectArrays]   (Utilities.ts)
    - [IndexedDBBackend]: [log], [flushToDatabase], [clearOldData],
      [decompress], [export], [exportBatch]    (Backends/IndexedDBBackend.ts)
    - [FileBackend]: [setup], [write], [log]   (Backends/FileBackend.ts)
    - [Lumberjack]: [inject], [revert], [decorateMessage],
      [assembleMessage], [sendToBackend], the logging methods, the groups
      and the timers                           (Lumberjack.ts)

    JavaScript values are modelled structurally; asynchronous code is
    modelled by the handlers it installs, run over explicit event traces. *)

From Stdlib Require Import ZArith String Ascii List Bool Lia Sorted.
From Stdlib Require Import DecimalString DecimalZ DecimalPos.
From stdpp Require Import base option list gmap strings.

Set Warnings "-register-all".

Local Open Scope string_scope.
Local Open Scope Z_scope.

(* ===================================================================== *)
(** ** JavaScript values *)
(* ===================================================================== *)

Module Js.

(** Abrupt completions: the exceptions the modelled builtins can raise. *)
Inductive JsError :=
| TypeError (reason : string)
| SyntaxError
| NotInitialised           (* new Error("IndexedDB has not been initialised") *)
| InvalidStateError.       (* the DOMException of [IDBDatabase.transaction] *)

Inductive Completion (A : Type) :=
| Normal (a : A)
| Throw (e : JsError).
Arguments Normal {A} a.
Arguments Throw {A} e.

Definition bind {A B} (c : Completion A) (k : A -> Completion B) : Completion B :=
  match c with
  | Normal a => k a
  | Throw e => Throw e
  end.

Notation "'let*' x ':=' c 'in' k" := (bind c (fun x => k))
  (at level 10, x name, c at level 100, k at level 200).

(** [Array.prototype.map] with a callback that may throw: elements are
    visited left to right and the first exception aborts the loop. *)
Fixpoint map_throwing {A B} (f : A -> Completion B) (l : list A) : Completion (list B) :=
  match l with
  | [] => Normal []
  | x :: xs => let* y := f x in let* ys := map_throwing f xs in Normal (y :: ys)
  end.

(** Numbers: NaN, the infinities and the integer-valued doubles (the safe
    integers, which [toString] and [JSON.stringify] write in plain decimal). *)
Inductive JsNumber :=
| NaN
| Infinity
| NegInfinity
| Int (z : Z).

(** A value of type [any].  Objects are trees of own enumerable
    string-keyed properties in creation order; [JsCycle up] stands for a
    reference back to the enclosing object [up] levels above, which is how
    a circular object graph appears when it is walked from its root.
    [inherited_constructor] is what [item.constructor] finds on the
    prototype chain when the object has no own property of that name. *)
Inductive JsValue :=
| JsUndefined
| JsNull
| JsBoolean (b : bool)
| JsNum (n : JsNumber)
| JsString (s : string)
| JsBigInt (z : Z)
| JsSymbol (description : string)
| JsFunction (name source : string)
| JsArray (elems : list JsValue)
| JsObject (props : list (string * JsValue)) (inherited_constructor : JsValue)
| JsCycle (up : nat).

(** The function [Object], constructor of object literals. *)
Definition ObjectCtor : JsValue := JsFunction "Object" "function Object() { [native code] }".

(** An object literal [{ k1: v1, ... }]. *)
Definition literal (props : list (string * JsValue)) : JsValue := JsObject props ObjectCtor.

Definition typeof (v : JsValue) : string :=
  match v with
  | JsUndefined => "undefined"
  | JsNull => "object"
  | JsBoolean _ => "boolean"
  | JsNum _ => "number"
  | JsString _ => "string"
  | JsBigInt _ => "bigint"
  | JsSymbol _ => "symbol"
  | JsFunction _ _ => "function"
  | JsArray _ | JsObject _ _ | JsCycle _ => "object"
  end.

(** ToBoolean: the falsy values are undefined, null, false, 0, NaN, 0n
    and the empty string. *)
Definition ToBoolean (v : JsValue) : bool :=
  match v with
  | JsUndefined | JsNull => false
  | JsBoolean b => b
  | JsNum NaN => false
  | JsNum (Int z) => negb (z =? 0)
  | JsNum _ => true
  | JsString s => negb (String.eqb s "")
  | JsBigInt z => negb (z =? 0)
  | _ => true
  end.

Definition string_of_Z (z : Z) : string := NilZero.string_of_int (Z.to_int z).

(** [Number::toString].  [Int z] stands for a safe integer, of magnitude
    at most 2^53, and is written in plain decimal.  A double of larger
    magnitude is written with rounded digits, and with an exponent from
    1e21 on: it is not a value of [JsNumber]. *)
Definition string_of_number (n : JsNumber) : string :=
  match n with
  | NaN => "NaN"
  | Infinity => "Infinity"
  | NegInfinity => "-Infinity"
  | Int z => string_of_Z z
  end.

Fixpoint assoc {A} (k : string) (l : list (string * A)) : option A :=
  match l with
  | [] => None
  | (k', v) :: rest => if String.eqb k k' then Some v else assoc k rest
  end.

(** [v.constructor], and [v.name] for a [v] that is neither [null] nor
    [undefined]: the two property reads of [encode]. *)
Definition get_constructor (v : JsValue) : JsValue :=
  match v with
  | JsObject props inherited => default inherited (assoc "constructor" props)
  | JsArray _ => JsFunction "Array" "function Array() { [native code] }"
  | _ => JsUndefined
  end.

Definition get_name (v : JsValue) : JsValue :=
  match v with
  | JsFunction name _ => JsString name
  | JsObject props _ => default JsUndefined (assoc "name" props)
  | _ => JsUndefined
  end.

(** [v.name], for any [v]: reading a property of [null] or of [undefined]
    raises a TypeError. *)
Definition read_name (v : JsValue) : Completion JsValue :=
  match v with
  | JsUndefined | JsNull =>
      Throw (TypeError "Cannot read properties of null (reading 'name')")
  | _ => Normal (get_name v)
  end.

(** [Object.keys(v).length] *)
Definition Object_keys_length (v : JsValue) : nat :=
  match v with
  | JsObject props _ => length props
  | JsArray elems => length elems
  | _ => 0%nat
  end.

(** [v.toString()] for the values that reach the last branch of [encode]
    (truthy, not of type object).  Each of them inherits a callable
    [toString] from its prototype. *)
Definition toString (v : JsValue) : option string :=
  match v with
  | JsBoolean b => Some (if b then "true" else "false")
  | JsNum n => Some (string_of_number n)
  | JsString s => Some s
  | JsBigInt z => Some (string_of_Z z)
  | JsSymbol d => Some ("Symbol(" +:+ d +:+ ")")
  | JsFunction _ source => Some source
  | _ => None
  end.

End Js.

(* ===================================================================== *)
(** ** JSON: documents, [JSON.stringify] *)
(* ===================================================================== *)

Module JSON.
Import Js.

(** A JSON document. *)
Inductive Json :=
| JNull
| JBool (b : bool)
| JNumber (z : Z)
| JString (s : string)
| JArray (items : list Json)
| JObject (members : list (string * Json)).

Definition dquote : ascii := "034"%char.
Definition backslash : ascii := "092"%char.

Definition hex_digit (n : nat) : ascii :=
  match n with
  | 0 => "0" | 1 => "1" | 2 => "2" | 3 => "3" | 4 => "4" | 5 => "5" | 6 => "6" | 7 => "7"
  | 8 => "8" | 9 => "9" | 10 => "a" | 11 => "b" | 12 => "c" | 13 => "d" | 14 => "e" | _ => "f"
  end%nat%char.

(** QuoteJSONString, one code unit: the quote and the backslash are
    escaped, control characters get their short escape or [\u00XX]. *)
Definition escape_char (c : ascii) (rest : string) : string :=
  if Ascii.eqb c dquote then String backslash (String dquote rest)
  else if Ascii.eqb c backslash then String backslash (String backslash rest)
  else if Ascii.eqb c "008" then String backslash (String "b" rest)
  else if Ascii.eqb c "012" then String backslash (String "f" rest)
  else if Ascii.eqb c "010" then String backslash (String "n" rest)
  else if Ascii.eqb c "013" then String backslash (String "r" rest)
  else if Ascii.eqb c "009" then String backslash (String "t" rest)
  else if (nat_of_ascii c <? 32)%nat then
    String backslash (String "u" (String "0" (String "0"
      (String (hex_digit (nat_of_ascii c / 16))
        (String (hex_digit (nat_of_ascii c mod 16)) rest)))))
  else String c rest.

Fixpoint escape (s : string) (rest : string) : string :=
  match s with
  | EmptyString => rest
  | String c s' => escape_char c (escape s' rest)
  end.

Definition quote_k (s : string) (k : string) : string :=
  String dquote (escape s (String dquote k)).

(** The text [JSON.stringify] writes for a document (no indentation),
    followed by [k]. *)
Fixpoint print_k (j : Json) (k : string) : string :=
  match j with
  | JNull => "null" +:+ k
  | JBool b => (if b then "true" else "false") +:+ k
  | JNumber z => string_of_Z z +:+ k
  | JString s => quote_k s k
  | JArray items =>
      String "[" match items with
                 | [] => String "]" k
                 | e :: es =>
                     print_k e ((fix more (l : list Json) : string :=
                                   match l with
                                   | [] => String "]" k
                                   | e' :: l' => String "," (print_k e' (more l'))
                                   end) es)
                 end
  | JObject members =>
      String "{" match members with
                 | [] => String "}" k
                 | (n, e) :: es =>
                     quote_k n (String ":" (print_k e
                       ((fix more (l : list (string * Json)) : string :=
                           match l with
                           | [] => String "}" k
                           | (n', e') :: l' =>
                               String "," (quote_k n' (String ":" (print_k e' (more l'))))
                           end) es)))
                 end
  end.

Definition print (j : Json) : string := print_k j EmptyString.

(** *** Reading a document back: [JSON.parse] on the texts [print] writes *)

Definition unhex (c : ascii) : option nat :=
  let n := nat_of_ascii c in
  if (48 <=? n)%nat && (n <=? 57)%nat then Some (n - 48)%nat
  else if (97 <=? n)%nat && (n <=? 102)%nat then Some (n - 87)%nat
  else if (65 <=? n)%nat && (n <=? 70)%nat then Some (n - 55)%nat
  else None.

Definition prepend (c : ascii) (r : option (string * string)) : option (string * string) :=
  match r with
  | Some (str, rest) => Some (String c str, rest)
  | None => None
  end.

(** The characters of a string literal after its opening quote, up to the
    closing quote; the second component is the text that follows. *)
Fixpoint parse_string_body (s : string) : option (string * string) :=
  match s with
  | EmptyString => None
  | String c s' =>
      if Ascii.eqb c dquote then Some (EmptyString, s')
      else if Ascii.eqb c backslash then
        match s' with
        | EmptyString => None
        | String e s'' =>
            if Ascii.eqb e dquote then prepend dquote (parse_string_body s'')
            else if Ascii.eqb e backslash then prepend backslash (parse_string_body s'')
            else if Ascii.eqb e "/" then prepend "/" (parse_string_body s'')
            else if Ascii.eqb e "b" then prepend "008" (parse_string_body s'')
            else if Ascii.eqb e "f" then prepend "012" (parse_string_body s'')
            else if Ascii.eqb e "n" then prepend "010" (parse_string_body s'')
            else if Ascii.eqb e "r" then prepend "013" (parse_string_body s'')
            else if Ascii.eqb e "t" then prepend "009" (parse_string_body s'')
            else if Ascii.eqb e "u" then
              match s'' with
              | String h1 (String h2 (String h3 (String h4 s3))) =>
                  match unhex h1, unhex h2, unhex h3, unhex h4 with
                  | Some 0%nat, Some 0%nat, Some a, Some b =>
                      prepend (ascii_of_nat (16 * a + b)) (parse_string_body s3)
                  | _, _, _, _ => None
                  end
              | _ => None
              end
            else None
        end
      else prepend c (parse_string_body s')
  end.

Definition is_number_char (c : ascii) : bool :=
  Ascii.eqb c "-" || ((48 <=? nat_of_ascii c)%nat && (nat_of_ascii c <=? 57)%nat).

Fixpoint span_number (s : string) : string * string :=
  match s with
  | EmptyString => (EmptyString, EmptyString)
  | String c s' =>
      if is_number_char c
      then (String c (fst (span_number s')), snd (span_number s'))
      else (EmptyString, s)
  end.

Definition parse_number (s : string) : option (Json * string) :=
  match NilZero.int_of_string (fst (span_number s)) with
  | Some d => Some (JNumber (Z.of_int d), snd (span_number s))
  | None => None
  end.

(** [strip p s] is what follows [p] in [s], when [s] starts with [p]. *)
Fixpoint strip (p s : string) : option string :=
  match p, s with
  | EmptyString, _ => Some s
  | String a p', String b s' => if Ascii.eqb a b then strip p' s' else None
  | _, _ => None
  end.

Fixpoint parse_value (fuel : nat) (s : string) : option (Json * string) :=
  match fuel with
  | O => None
  | S fuel =>
      match s with
      | EmptyString => None
      | String c r =>
          if Ascii.eqb c "n" then
            match strip "null" s with Some r' => Some (JNull, r') | None => None end
          else if Ascii.eqb c "t" then
            match strip "true" s with Some r' => Some (JBool true, r') | None => None end
          else if Ascii.eqb c "f" then
            match strip "false" s with Some r' => Some (JBool false, r') | None => None end
          else if Ascii.eqb c dquote then
            match parse_string_body r with
            | Some (str, r') => Some (JString str, r')
            | None => None
            end
          else if Ascii.eqb c "[" then
            match r with
            | String c' r' =>
                if Ascii.eqb c' "]" then Some (JArray [], r')
                else match parse_elements fuel r with
                     | Some (items, r'') => Some (JArray items, r'')
                     | None => None
                     end
            | EmptyString => None
            end
          else if Ascii.eqb c "{" then
            match r with
            | String c' r' =>
                if Ascii.eqb c' "}" then Some (JObject [], r')
                else match parse_members fuel r with
                     | Some (members, r'') => Some (JObject members, r'')
                     | None => None
                     end
            | EmptyString => None
            end
          else parse_number s
      end
  end
with parse_elements (fuel : nat) (s : string) : option (list Json * string) :=
  match fuel with
  | O => None
  | S fuel =>
      match parse_value fuel s with
      | Some (v, String c r) =>
          if Ascii.eqb c "," then
            match parse_elements fuel r with
            | Some (vs, r') => Some (v :: vs, r')
            | None => None
            end
          else if Ascii.eqb c "]" then Some ([v], r)
          else None
      | _ => None
      end
  end
with parse_members (fuel : nat) (s : string) : option (list (string * Json) * string) :=
  match fuel with
  | O => None
  | S fuel =>
      match s with
      | String q r =>
          if Ascii.eqb q dquote then
            match parse_string_body r with
            | Some (name, String colon r1) =>
                if Ascii.eqb colon ":" then
                  match parse_value fuel r1 with
                  | Some (v, String c r2) =>
                      if Ascii.eqb c "," then
                        match parse_members fuel r2 with
                        | Some (ms, r') => Some ((name, v) :: ms, r')
                        | None => None
                        end
                      else if Ascii.eqb c "}" then Some ([(name, v)], r2)
                      else None
                  | _ => None
                  end
                else None
            | _ => None
            end
          else None
      | EmptyString => None
      end
  end.

(** The document a text denotes; [None] is a SyntaxError. *)
Definition parse_document (s : string) : option Json :=
  match parse_value (S (String.length s)) s with
  | Some (j, EmptyString) => Some j
  | _ => None
  end.

(** SerializeJSONProperty: [None] is the result [undefined].  Inside an
    array an unserialisable element becomes [null]; inside an object the
    property is left out.  A BigInt and a circular reference raise a
    TypeError. *)
Fixpoint SerializeJSONProperty (v : JsValue) : Completion (option Json) :=
  match v with
  | JsUndefined | JsSymbol _ | JsFunction _ _ => Normal None
  | JsNull => Normal (Some JNull)
  | JsBoolean b => Normal (Some (JBool b))
  | JsNum (Int z) => Normal (Some (JNumber z))
  | JsNum _ => Normal (Some JNull)
  | JsString s => Normal (Some (JString s))
  | JsBigInt _ => Throw (TypeError "Do not know how to serialize a BigInt")
  | JsCycle _ => Throw (TypeError "Converting circular structure to JSON")
  | JsArray elems =>
      let* items := (fix SerializeJSONArray (l : list JsValue) : Completion (list Json) :=
                 match l with
                 | [] => Normal []
                 | e :: l' =>
                     let* r := SerializeJSONProperty e in
                     let* rest := SerializeJSONArray l' in
                     Normal (default JNull r :: rest)
                 end) elems in
      Normal (Some (JArray items))
  | JsObject props _ =>
      let* members := (fix SerializeJSONObject (l : list (string * JsValue))
                   : Completion (list (string * Json)) :=
                   match l with
                   | [] => Normal []
                   | (k, e) :: l' =>
                       let* r := SerializeJSONProperty e in
                       let* rest := SerializeJSONObject l' in
                       Normal (match r with Some j => (k, j) :: rest | None => rest end)
                   end) props in
      Normal (Some (JObject members))
  end.

(** [JSON.stringify(v)]: a string, [undefined], or an exception. *)
Definition stringify (v : JsValue) : Completion (option string) :=
  let* r := SerializeJSONProperty v in Normal (print <$> r).

(** The value [JSON.parse] builds from a document. *)
Fixpoint revive (j : Json) : JsValue :=
  match j with
  | JNull => JsNull
  | JBool b => JsBoolean b
  | JNumber z => JsNum (Int z)
  | JString s => JsString s
  | JArray items => JsArray (List.map revive items)
  | JObject members => literal (List.map (fun kv => (fst kv, revive (snd kv))) members)
  end.

(** [JSON.parse(text)] *)
Definition parse (text : string) : Completion JsValue :=
  match parse_document text with
  | Some j => Normal (revive j)
  | None => Throw SyntaxError
  end.

End JSON.

(* ===================================================================== *)
(** ** Conversions between values *)
(* ===================================================================== *)

Module Host.
Import Js.

(** What the values of this development do not tell and the runtime
    decides: the number a string or a bigint stands for, and the
    conversions of an object, which run the [toString] and [valueOf] found
    on the object and on its prototypes. *)
Class Conversions := {
  (** [Number(v)], for [v] a string, a bigint, a function or an object *)
  runtime_Number : JsValue -> Completion JsNumber;
  (** [typeof v.toString === "function"], for [v] an object *)
  has_toString : JsValue -> bool;
  (** [v.toString()], for [v] an object *)
  call_toString : JsValue -> Completion JsValue;
  (** ToString of [v], for [v] an object: what a template literal and
      [Array.prototype.join] make of it *)
  runtime_ToString : JsValue -> Completion string;
}.

Section WithConversions.
Context {conversions : Conversions}.

(** [Number(v)] *)
Definition Number (v : JsValue) : Completion JsNumber :=
  match v with
  | JsUndefined => Normal NaN
  | JsNull => Normal (Int 0)
  | JsBoolean b => Normal (Int (if b then 1 else 0))
  | JsNum n => Normal n
  | JsSymbol _ => Throw (TypeError "Cannot convert a Symbol value to a number")
  | _ => runtime_Number v
  end.

(** ToString: the conversion made by a template literal, and by
    [String.prototype.replace] of what its callback returns. *)
Definition ToString (v : JsValue) : Completion string :=
  match v with
  | JsUndefined => Normal "undefined"
  | JsNull => Normal "null"
  | JsBoolean b => Normal (if b then "true" else "false")
  | JsNum n => Normal (string_of_number n)
  | JsString s => Normal s
  | JsBigInt z => Normal (string_of_Z z)
  | JsSymbol _ => Throw (TypeError "Cannot convert a Symbol value to a string")
  | JsFunction _ source => Normal source
  | _ => runtime_ToString v
  end.

(** [typeof v.toString === "function"]: reading a property of [undefined]
    or [null] raises; the other values that are not objects inherit the
    method. *)
Definition toString_is_function (v : JsValue) : Completion bool :=
  match v with
  | JsUndefined | JsNull =>
      Throw (TypeError "Cannot read properties of undefined (reading 'toString')")
  | JsArray _ | JsObject _ _ | JsCycle _ => Normal (has_toString v)
  | _ => Normal true
  end.

(** [v.toString()], for [v] with a callable [toString] *)
Definition toString_call (v : JsValue) : Completion JsValue :=
  match toString v with
  | Some s => Normal (JsString s)
  | None => call_toString v
  end.

(** [array.join(separator)]: [undefined] and [null] give the empty string. *)
Definition join_element (v : JsValue) : Completion string :=
  match v with
  | JsUndefined | JsNull => Normal EmptyString
  | _ => ToString v
  end.

Definition Array_join (separator : string) (array : list JsValue) : Completion string :=
  let* parts := map_throwing join_element array in
  Normal (String.concat separator parts).

End WithConversions.

(** The conversions of a runtime in which a string that is written in
    decimal digits stands for that number and any other string for NaN, a
    bigint converts to the number of its value, and every object is an
    object literal with the [toString] of [Object.prototype]. *)
Definition digits_only (s : string) : bool :=
  forallb (fun c => (48 <=? nat_of_ascii c)%nat && (nat_of_ascii c <=? 57)%nat)
    (list_ascii_of_string s).

Definition literal_conversions : Conversions :=
  {| runtime_Number := fun v =>
       match v with
       | JsString s =>
           match (if digits_only s then NilZero.int_of_string s else None) with
           | Some d => Normal (Int (Z.of_int d))
           | None => Normal NaN
           end
       | JsBigInt z => Normal (Int z)
       | _ => Normal NaN
       end;
     has_toString := fun _ => true;
     call_toString := fun _ => Normal (JsString "[object Object]");
     runtime_ToString := fun _ => Normal "[object Object]" |}.

End Host.

(* ===================================================================== *)
(** ** Utilities.ts *)
(* ===================================================================== *)

Module Utilities.
Import Js.

(** [encode(item: any): string].  The value returned is kept as a
    [JsValue]: the source returns [encoded] and [item] unchecked. *)
Definition encode (item : JsValue) : Completion JsValue :=
  if negb (ToBoolean item) then
    Normal (JsString "")
  else if String.eqb (typeof item) "object" then
    let* encoded := JSON.stringify item in
    if bool_decide (encoded = Some "{}") && negb (Object_keys_length item =? 0)%nat
       && String.eqb (typeof (get_constructor item)) "object"
    then
      let* name := read_name (get_constructor item) in
      if String.eqb (typeof name) "string" then Normal name
      else Normal (from_option JsString JsUndefined encoded)
    else Normal (from_option JsString JsUndefined encoded)
  else
    match toString item with
    | Some s => Normal (JsString s)
    | None => Normal item
    end.

(** *** intersectArrays *)

Section IntersectArrays.
(** The elements of the arrays: values that [Set] compares as the
    equality of [A] does, as it is for strings. *)
Context {A : Type} `{EqDecision A}.

(** A [Set], by its elements in insertion order.  [set.add(x)] leaves a
    set that has [x] as it is. *)
Definition Set_add (set : list A) (x : A) : list A :=
  if bool_decide (x ∈ set) then set else (set ++ [x])%list.

(** [new Set(array)] *)
Definition new_Set (array : list A) : list A := fold_left Set_add array [].

(** [set.has(x)] *)
Definition Set_has (set : list A) (x : A) : bool := bool_decide (x ∈ set).

(** The loop over the arrays that are left after [arrays.shift()]. *)
Fixpoint intersect_rest (results : list A) (arrays : list (list A)) : list A :=
  match arrays with
  | [] => results
  | array :: arrays =>
      if (length results =? 0)%nat then []
      else intersect_rest (List.filter (fun x => Set_has (new_Set array) x) results) arrays
  end.

(** [intersectArrays(...arrays)] *)
Definition intersectArrays (arrays : list (list A)) : list A :=
  match arrays with
  | [] => []
  | first :: arrays => intersect_rest (new_Set first) arrays
  end.

End IntersectArrays.

(** *** printf *)

(** The flags of [/(%?)(%([oOdisfc]))/g] *)
Definition is_flag (c : ascii) : bool :=
  existsb (Ascii.eqb c) ["o"; "O"; "d"; "i"; "s"; "f"; "c"]%char.

(** The message as the regular expression cuts it: the matches, each with
    its first group ([escaped]: a "%" before the specifier) and its flag,
    and the characters between them. *)
Inductive Piece :=
| Literal (c : ascii)
| Specifier (escaped : bool) (flag : ascii).

(** At a "%" the first group takes a second "%" when a flag follows that
    one; failing that, the "%" itself starts the specifier when a flag
    follows it.  The search goes on after the match. *)
Fixpoint matches (message : string) : list Piece :=
  match message with
  | EmptyString => []
  | String c rest =>
      if Ascii.eqb c "%" then
        match rest with
        | EmptyString => [Literal c]
        | String c1 rest1 =>
            match rest1 with
            | EmptyString =>
                if is_flag c1 then [Specifier false c1] else Literal c :: matches rest
            | String c2 rest2 =>
                if Ascii.eqb c1 "%" && is_flag c2 then Specifier true c2 :: matches rest2
                else if is_flag c1 then Specifier false c1 :: matches rest1
                else Literal c :: matches rest
            end
        end
      else Literal c :: matches rest
  end.

(** [message.replace(/%{2}/g, "%")] *)
Fixpoint unescape (message : string) : string :=
  match message with
  | EmptyString => EmptyString
  | String c rest =>
      match rest with
      | String c1 rest1 =>
          if Ascii.eqb c "%" && Ascii.eqb c1 "%" then String "%" (unescape rest1)
          else String c (unescape rest)
      | EmptyString => String c EmptyString
      end
  end.

Section WithConversions.
Import Host.
Context {conversions : Conversions}.

(** The [switch] of the callback: what a flag makes of the value taken
    from the array. *)
Definition convert (flag : ascii) (replacement : JsValue) : Completion JsValue :=
  if Ascii.eqb flag "o" || Ascii.eqb flag "O" then
    let* text := JSON.stringify replacement in
    Normal (from_option JsString JsUndefined text)
  else if Ascii.eqb flag "d" || Ascii.eqb flag "i" || Ascii.eqb flag "f" then
    let* n := Number replacement in
    Normal (JsNum n)
  else if Ascii.eqb flag "s" then
    let* callable := toString_is_function replacement in
    if callable then toString_call replacement
    else let* text := ToString replacement in Normal (JsString text)
  else
    Normal (JsString EmptyString).

(** The callback of [replace]: what it returns, and the array as it
    leaves it.  [replacements.shift()] on an empty array is [undefined]. *)
Definition replacer (escaped : bool) (flag : ascii) (replacements : list JsValue)
  : Completion (JsValue * list JsValue) :=
  let replacement := hd JsUndefined replacements in
  let replacements := tl replacements in
  let* replacement := convert flag replacement in
  if negb escaped then Normal (replacement, replacements)
  else Normal (JsString (String "%" (String "%" (String flag EmptyString))),
               replacement :: replacements).

(** [message.replace(replace, callback)]: the callback runs match after
    match, and what it returns is converted to a string. *)
Fixpoint replace_matches (pieces : list Piece) (replacements : list JsValue)
  : Completion (string * list JsValue) :=
  match pieces with
  | [] => Normal (EmptyString, replacements)
  | Literal c :: pieces =>
      let* r := replace_matches pieces replacements in
      Normal (String c (fst r), snd r)
  | Specifier escaped flag :: pieces =>
      let* replaced := replacer escaped flag replacements in
      let* text := ToString (fst replaced) in
      let* r := replace_matches pieces (snd replaced) in
      Normal (text +:+ fst r, snd r)
  end.

(** The body of the loop over the replacements that are left. *)
Definition stringify_replacement (v : JsValue) : Completion JsValue :=
  if String.eqb (typeof v) "object" then encode v
  else if ToBoolean v then
    match toString v with
    | Some s => Normal (JsString s)
    | None => Normal v
    end
  else Normal v.

(** [printf] up to its last statement: the message with its specifiers
    replaced and the replacements that are left added to it, and the array
    [replacements] as the call leaves it. *)
Definition printf_replaced (message : string) (replacements : list JsValue)
  : Completion (string * list JsValue) :=
  let* replaced := replace_matches (matches message) replacements in
  let message := fst replaced in
  let replacements := snd replaced in
  if negb (length replacements =? 0)%nat then
    let* replacements := map_throwing stringify_replacement replacements in
    let* joined := Array_join " " replacements in
    Normal (message +:+ " " +:+ joined, replacements)
  else Normal (message, replacements).

(** [printf(message, replacements)]: the string returned, and the array
    [replacements] as the call leaves it. *)
Definition printf (message : string) (replacements : list JsValue)
  : Completion (string * list JsValue) :=
  let* replaced := printf_replaced message replacements in
  Normal (unescape (fst replaced), snd replaced).

End WithConversions.

End Utilities.

(* ===================================================================== *)
(** ** BaseBackend.ts and the memory shared with the facade *)
(* ===================================================================== *)

Module BaseBackend.
Import Js.

(** Addresses of the arrays of strings that live on the JavaScript heap.
    An [Array<string>] handed from one object to another is handed over
    by reference: both sides hold the same address. *)
Definition addr := nat.
Abbreviation Heap := (gmap addr (list string)).

(** [heap !!! a] is the content of the array at [a]. *)
Definition deref (heap : Heap) (a : addr) : list string := heap !!! a.

(** Lumberjack.ts, [enum VerbosityLevel] *)
Inductive VerbosityLevel := ERROR | WARNING | NOTICE | INFO | DEBUG.

Definition level_name (l : VerbosityLevel) : string :=
  match l with
  | ERROR => "ERROR"
  | WARNING => "WARNING"
  | NOTICE => "NOTICE"
  | INFO => "INFO"
  | DEBUG => "DEBUG"
  end.

(** A valid [Date], by its time value (milliseconds since the epoch). *)
Record Date := { getTime : Z }.

Record LogDetails := {
  timestamp : Date;
  arguments : list JsValue;
  namespaces : addr;
  level : VerbosityLevel;
  contextId : option string;      (* [None]: the property is absent *)
}.

Inductive PromiseState :=
| Fulfilled
| Rejected
| Pending.

End BaseBackend.

(* ===================================================================== *)
(** ** The object store "logs" of the IndexedDB database *)
(* ===================================================================== *)

Module IndexedDB.
Import Js BaseBackend.

Definition ArrayBuffer := list Byte.byte.

(** [StoredDetails] with the type of its [namespaces] left open: an address
    while the record sits in memory, the array content once it is cloned
    into the database or written as JSON. *)
Record Details (N : Type) := {
  timestamp : Z;
  arguments : list JsValue;
  namespaces : N;
  level : VerbosityLevel;
  contextId : option string;
  message : string;
}.
Arguments timestamp {N} _.
Arguments arguments {N} _.
Arguments namespaces {N} _.
Arguments level {N} _.
Arguments contextId {N} _.
Arguments message {N} _.

Abbreviation QueuedDetails := (Details addr).
Abbreviation StoredDetails := (Details (list string)).

(** The structured clone taken by [IDBObjectStore.add], and the walk of
    [JSON.stringify], read the namespaces array as it is at that moment. *)
Definition structuredClone (heap : Heap) (r : QueuedDetails) : StoredDetails :=
  {| timestamp := timestamp r;
     arguments := arguments r;
     namespaces := deref heap (namespaces r);
     level := level r;
     contextId := contextId r;
     message := message r |}.

(** What a row of the object store holds: a record, an object
    [{ timestamp, buffer }], or (older databases) a bare ArrayBuffer. *)
Inductive StoredValue :=
| Plain (r : StoredDetails)
| Compressed (timestamp : Z) (buffer : ArrayBuffer)
| RawBuffer (buffer : ArrayBuffer).

(** The key of a value in the index "timestamp" (key path [timestamp]);
    a value without that property is not indexed. *)
Definition timestamp_key (v : StoredValue) : option Z :=
  match v with
  | Plain r => Some (timestamp r)
  | Compressed t _ => Some t
  | RawBuffer _ => None
  end.

(** The object store: rows in ascending primary key, and the key
    generator of [autoIncrement: true]. *)
Record ObjectStore := {
  rows : list (Z * StoredValue);
  key_generator : Z;
}.

Definition createObjectStore : ObjectStore := {| rows := []; key_generator := 1 |}.

Definition add (v : StoredValue) (s : ObjectStore) : ObjectStore :=
  {| rows := rows s ++ [(key_generator s, v)]; key_generator := key_generator s + 1 |}.

(** [cursor.delete()] on the row with primary key [k] *)
Definition cursor_delete (k : Z) (s : ObjectStore) : ObjectStore :=
  {| rows := List.filter (fun row => negb (fst row =? k)) (rows s);
     key_generator := key_generator s |}.

(** [objectStore.openCursor()]: ascending primary key. *)
Definition openCursor (s : ObjectStore) : list (Z * StoredValue) := rows s.

(** The values a cursor over the store shows, in its order. *)
Definition values (s : ObjectStore) : list StoredValue := List.map snd (openCursor s).

(** [objectStore.openCursor(null, "prev")]: descending primary key. *)
Definition openCursor_prev (s : ObjectStore) : list (Z * StoredValue) := rev (rows s).

(** Index entries are ordered by index key, then by primary key. *)
Definition index_le (a b : Z * Z) : bool :=
  (fst a <? fst b) || ((fst a =? fst b) && (snd a <=? snd b)).

Fixpoint index_insert (e : Z * Z) (l : list (Z * Z)) : list (Z * Z) :=
  match l with
  | [] => [e]
  | e' :: l' => if index_le e e' then e :: l else e' :: index_insert e l'
  end.

(** The entries (timestamp, primary key) of the index "timestamp". *)
Fixpoint timestamp_index (rs : list (Z * StoredValue)) : list (Z * Z) :=
  match rs with
  | [] => []
  | (k, v) :: rs' =>
      match timestamp_key v with
      | Some t => index_insert (t, k) (timestamp_index rs')
      | None => timestamp_index rs'
      end
  end.

(** [index.openCursor(IDBKeyRange.upperBound(bound, true))]: the primary
    keys of the entries whose index key is strictly below [bound], in
    index order. *)
Definition index_openCursor_upperBound_open (bound : Z) (s : ObjectStore) : list Z :=
  List.map snd (List.filter (fun e => fst e <? bound) (timestamp_index (rows s))).

End IndexedDB.

(* ===================================================================== *)
(** ** What the runtime provides: the deflate streams *)
(* ===================================================================== *)

Module Runtime.
Import IndexedDB.

(** [CompressionStream("deflate")] and [DecompressionStream("deflate")],
    as the functions from the bytes written to the bytes read.  [inflate]
    is [None] when the stream errors.  The codec is lossless. *)
Class Streams := {
  CompressionStream_defined : bool;     (* typeof CompressionStream !== "undefined" *)
  deflate : list Byte.byte -> ArrayBuffer;
  inflate : ArrayBuffer -> option (list Byte.byte);
  inflate_deflate : forall bytes, inflate (deflate bytes) = Some bytes;
}.

(** [new TextEncoder().encode(text)] and [new TextDecoder().decode(bytes)] *)
Definition TextEncoder_encode (text : string) : list Byte.byte := list_byte_of_string text.
Definition TextDecoder_decode (bytes : list Byte.byte) : string := string_of_list_byte bytes.

(** A runtime whose deflate stream stores the bytes as they are. *)
Definition stored_streams (supported : bool) : Streams :=
  {| CompressionStream_defined := supported;
     deflate := fun bytes => bytes;
     inflate := fun buffer => Some buffer;
     inflate_deflate := fun bytes => eq_refl |}.

End Runtime.

(* ===================================================================== *)
(** ** Backends/IndexedDBBackend.ts *)
(* ===================================================================== *)

Module IndexedDBBackend.
Import Js BaseBackend IndexedDB Runtime.

Record IndexedDBBackendOptions := {
  expire : option Z;                    (* null | number *)
  flushTimer : Z;
  minimumRecordsToCompress : Z;
  maxNumberOfLogs : option JsNumber;    (* null | number *)
}.

Definition default_options : IndexedDBBackendOptions :=
  {| expire := Some (7 * 24 * 60 * 60 * 1000);
     flushTimer := 5000;
     minimumRecordsToCompress := 10;
     maxNumberOfLogs := Some (Int 100000) |}.

(** The fields of the class.  [indexedDB] is [None] until the open
    request reports [upgradeneeded] or [success]; from then on it is the
    database, given by its object store "logs". *)
Record IndexedDBBackend := {
  toFlush : list QueuedDetails;
  indexedDB : option ObjectStore;
  options : IndexedDBBackendOptions;
}.

Definition constructor (opts : IndexedDBBackendOptions) : IndexedDBBackend :=
  {| toFlush := []; indexedDB := None; options := opts |}.

Definition set_toFlush (q : list QueuedDetails) (b : IndexedDBBackend) : IndexedDBBackend :=
  {| toFlush := q; indexedDB := indexedDB b; options := options b |}.

Definition set_indexedDB (db : option ObjectStore) (b : IndexedDBBackend) : IndexedDBBackend :=
  {| toFlush := toFlush b; indexedDB := db; options := options b |}.

(** *** log *)

Definition log (message : string) (details : LogDetails) (b : IndexedDBBackend)
  : Completion IndexedDBBackend :=
  let* encoded := map_throwing Utilities.encode (BaseBackend.arguments details) in
  Normal (set_toFlush
            (toFlush b ++ [ {| timestamp := getTime (BaseBackend.timestamp details);
                               arguments := encoded;
                               namespaces := BaseBackend.namespaces details;
                               level := BaseBackend.level details;
                               contextId := BaseBackend.contextId details;
                               message := message |} ])
            b).

(** *** clearOldData *)

(** The first cursor: every entry of the index "timestamp" below
    [oldest] is deleted, one [cursor.delete()] per success event. *)
Definition clear_expired (oldest : Z) (s : ObjectStore) : ObjectStore :=
  fold_left (fun st k => cursor_delete k st) (index_openCursor_upperBound_open oldest s) s.

(** [numberLookedAt > maxNumberOfLogs] *)
Definition number_gt (n : Z) (m : JsNumber) : bool :=
  match m with
  | Int z => z <? n
  | NegInfinity => true
  | Infinity | NaN => false
  end.

(** [maxNumberOfLogs < Infinity] *)
Definition lt_Infinity (m : JsNumber) : bool :=
  match m with
  | Int _ | NegInfinity => true
  | Infinity | NaN => false
  end.

(** The second cursor, direction "prev": the success handler counts the
    rows it is shown and deletes those past [maxNumberOfLogs]. *)
Fixpoint clear_excess (maxNumberOfLogs : JsNumber) (numberLookedAt : Z)
    (cursor : list (Z * StoredValue)) (s : ObjectStore) : ObjectStore :=
  match cursor with
  | [] => s
  | (k, _) :: rest =>
      let numberLookedAt := numberLookedAt + 1 in
      if number_gt numberLookedAt maxNumberOfLogs
      then clear_excess maxNumberOfLogs numberLookedAt rest (cursor_delete k s)
      else clear_excess maxNumberOfLogs numberLookedAt rest s
  end.

(** [clearOldData()], run to the completion of its two transactions.
    Both are "readwrite" over the same store, so the second starts when
    the first is complete.  [now] is [Date.now()]. *)
Definition clearOldData (now : Z) (b : IndexedDBBackend) : IndexedDBBackend :=
  match indexedDB b with
  | None => b
  | Some db =>
      let db1 :=
        match expire (options b) with
        | Some e => clear_expired (now - e) db
        | None => db
        end in
      let db2 :=
        match maxNumberOfLogs (options b) with
        | Some m =>
            if lt_Infinity m then clear_excess m 0 (openCursor_prev db1) db1 else db1
        | None => db1
        end in
      set_indexedDB (Some db2) b
  end.

(** [openRequest.onupgradeneeded]: the database is new.  It is kept, and
    the store "logs" and its two indexes are made.  The handler runs in
    the version change transaction of the open request; until that
    transaction is over and [onsuccess] is called,
    [this.indexedDB.transaction()] raises InvalidStateError. *)
Definition setup_onupgradeneeded (b : IndexedDBBackend) : IndexedDBBackend :=
  set_indexedDB (Some createObjectStore) b.

(** [openRequest.onsuccess]: the database is kept and pruned.  (The timer
    and the beforeunload listener of [setupFlush] call [flushToDatabase].) *)
Definition setup_onsuccess (now : Z) (result : ObjectStore) (b : IndexedDBBackend)
  : IndexedDBBackend :=
  clearOldData now (set_indexedDB (Some result) b).

(** *** The JavaScript object a record is, and back *)

(** Own properties in the order of the literal in [log]:
    [{ ...details, timestamp, arguments, message }]. *)
Definition details_to_js (r : StoredDetails) : JsValue :=
  literal ([ ("timestamp", JsNum (Int (timestamp r)));
             ("arguments", JsArray (arguments r));
             ("namespaces", JsArray (List.map JsString (namespaces r)));
             ("level", JsString (level_name (level r))) ]
           ++ match contextId r with
              | Some c => [("contextId", JsString c)]
              | None => []
              end
           ++ [ ("message", JsString (message r)) ]).

Definition as_string (v : JsValue) : option string :=
  match v with JsString s => Some s | _ => None end.

Definition as_integer (v : JsValue) : option Z :=
  match v with JsNum (Int z) => Some z | _ => None end.

Definition as_array (v : JsValue) : option (list JsValue) :=
  match v with JsArray elems => Some elems | _ => None end.

Definition level_of_name (s : string) : option VerbosityLevel :=
  if String.eqb s "ERROR" then Some ERROR
  else if String.eqb s "WARNING" then Some WARNING
  else if String.eqb s "NOTICE" then Some NOTICE
  else if String.eqb s "INFO" then Some INFO
  else if String.eqb s "DEBUG" then Some DEBUG
  else None.

Fixpoint all_some {A B} (f : A -> option B) (l : list A) : option (list B) :=
  match l with
  | [] => Some []
  | x :: xs =>
      match f x, all_some f xs with
      | Some y, Some ys => Some (y :: ys)
      | _, _ => None
      end
  end.

Definition as_strings (v : JsValue) : option (list string) :=
  match v with JsArray elems => all_some as_string elems | _ => None end.

Definition as_level (v : JsValue) : option VerbosityLevel :=
  match v with JsString s => level_of_name s | _ => None end.

(** [props.name], read at the type [read] recognises. *)
Definition field {A} (props : list (string * JsValue)) (name : string)
    (read : JsValue -> option A) : option A :=
  match assoc name props with
  | Some v => read v
  | None => None
  end.

(** A parsed value read at the type [StoredDetails]. *)
Definition details_of_js (v : JsValue) : option StoredDetails :=
  match v with
  | JsObject props _ =>
      match field props "timestamp" as_integer,
            field props "arguments" as_array,
            field props "namespaces" as_strings,
            field props "level" as_level,
            field props "message" as_string with
      | Some t, Some args, Some ns, Some lvl, Some msg =>
          match assoc "contextId" props with
          | None =>
              Some {| timestamp := t; arguments := args; namespaces := ns;
                      level := lvl; contextId := None; message := msg |}
          | Some (JsString c) =>
              Some {| timestamp := t; arguments := args; namespaces := ns;
                      level := lvl; contextId := Some c; message := msg |}
          | Some _ => None
          end
      | _, _, _, _, _ => None
      end
  | _ => None
  end.

Definition as_details_array (v : JsValue) : option (list StoredDetails) :=
  match v with JsArray elems => all_some details_of_js elems | _ => None end.

(** *** Promises, transactions, cursors *)

(** The transaction opened by a flush: the batch taken from the queue
    and the values handed to [dataStore.add]. *)
Record Transaction := {
  batch : list QueuedDetails;
  requests : list StoredValue;
}.

(** Where [flushToDatabase] stands when it gives control back.  Its
    promise is settled; or the executor of its promise is about to call
    [this.indexedDB.transaction(["logs"], "readwrite")] and to hand the
    values of the batch to [add] ([Run] tells whether the database grants
    the transaction and what it makes of the requests); or the function
    is suspended at the first [await] of the
    compression, with the batch it took and the buffer the streams will
    give. *)
Inductive Flush :=
| Settled (p : PromiseState) (b : IndexedDBBackend)
| InFlight (tx : Transaction) (b : IndexedDBBackend)
| Suspended (data : list QueuedDetails) (buffer : ArrayBuffer) (b : IndexedDBBackend).

(** How a promise ends: with a value, rejected, or never settled. *)
Inductive Settlement (A : Type) :=
| Resolves (a : A)
| Rejects
| NeverSettles.
Arguments Resolves {A} a.
Arguments Rejects {A}.
Arguments NeverSettles {A}.

(** What the cursor request reports next while rows are left: a success
    event on a row, or an error event.  When the list is exhausted the
    success event carries a null cursor. *)
Inductive CursorStep :=
| Row (value : StoredValue)
| Fails.

(** The variables of the closure in [exportBatch].  A promise returned by
    [entryRunner] is named by its position in [remainingPromises], where
    the buffer it was called with is kept.  [awaited] has one entry per
    call of [Promise.all(remainingPromises)]: the number of promises the
    array held at that moment.  [decompressing] holds the buffers given to
    [decompress] whose [then] callback has not run yet. *)
Record BatchExport := {
  buffered : list StoredDetails;
  empty : bool;
  remainingPromises : list (list StoredDetails);
  awaited : list nat;
  decompressing : list (nat * ArrayBuffer);
  issued : nat;                      (* decompress calls so far *)
  rejected : bool;                   (* rej(event) was called *)
}.

Definition exportBatch_start : BatchExport :=
  {| buffered := []; empty := false; remainingPromises := []; awaited := [];
     decompressing := []; issued := 0; rejected := false |}.

Definition sendBuffered (entriesAtOnce : Z) (st : BatchExport) : BatchExport :=
  let st :=
    if (entriesAtOnce <=? Z.of_nat (length (buffered st))) || empty st
    then {| buffered := [];
            empty := empty st;
            remainingPromises := remainingPromises st ++ [buffered st];
            awaited := awaited st;
            decompressing := decompressing st;
            issued := issued st;
            rejected := rejected st |}
    else st in
  if empty st
  then {| buffered := buffered st;
          empty := empty st;
          remainingPromises := remainingPromises st;
          awaited := awaited st ++ [length (remainingPromises st)];
          decompressing := decompressing st;
          issued := issued st;
          rejected := rejected st |}
  else st.

(** [buffered.push(...content)] *)
Definition push_buffered (content : list StoredDetails) (st : BatchExport) : BatchExport :=
  {| buffered := buffered st ++ content;
     empty := empty st;
     remainingPromises := remainingPromises st;
     awaited := awaited st;
     decompressing := decompressing st;
     issued := issued st;
     rejected := rejected st |}.

(** [this.decompress(buffer).then(...)]: the callback is registered,
    [cursor.continue()] follows at once. *)
Definition start_decompress (buffer : ArrayBuffer) (st : BatchExport) : BatchExport :=
  {| buffered := buffered st;
     empty := empty st;
     remainingPromises := remainingPromises st;
     awaited := awaited st;
     decompressing := decompressing st ++ [(issued st, buffer)];
     issued := S (issued st);
     rejected := rejected st |}.

Inductive BatchEvent :=
| CursorSuccess (cursor : option StoredValue)   (* opened.onsuccess *)
| CursorError                                   (* opened.onerror *)
| Decompressed (i : nat).                       (* the promise of the i-th decompress call settles *)

Section WithStreams.
Context {streams : Streams}.

(** *** flushToDatabase *)

(** [JSON.stringify(data)], [data] being the batch as it is in memory. *)
Definition stringify_batch (heap : Heap) (data : list QueuedDetails)
  : Completion (option string) :=
  JSON.stringify (JsArray (List.map (fun r => details_to_js (structuredClone heap r)) data)).

(** [flushToDatabase()], up to the moment it gives control back.  [heap]
    is the memory at the time of the call.  The queue is swapped before
    the first [await].  A batch below the threshold is added at once, each
    record cloned as it is at that moment.  A batch that is compressed is
    serialised at once, by [JSON.stringify(data)] before the first
    [await]; the function then waits for the streams.  A batch that
    [JSON.stringify] refuses rejects the promise of the async function;
    the batch is not put back. *)
Definition flushToDatabase (heap : Heap) (b : IndexedDBBackend) : Flush :=
  if (length (toFlush b) =? 0)%nat then Settled Fulfilled b
  else match indexedDB b with
       | None => Settled Fulfilled b
       | Some _ =>
           let data := toFlush b in
           let b := set_toFlush [] b in
           if CompressionStream_defined
              && (minimumRecordsToCompress (options b) <=? Z.of_nat (length data))
           then
             match stringify_batch heap data with
             | Throw _ => Settled Rejected b
             | Normal text =>
                 let bytes := TextEncoder_encode (default "" text) in
                 Suspended data (deflate bytes) b
             end
           else
             InFlight {| batch := data;
                         requests := List.map (fun r => Plain (structuredClone heap r)) data |} b
       end.

(** A flush that compresses, when its three [await] are over: the
    executor of its promise tests [this.indexedDB] again, asks for the
    transaction and adds the one entry [{ timestamp: Date.now(), buffer }].
    [now] is [Date.now()] at that moment. *)
Definition flushToDatabase_resume (now : Z) (data : list QueuedDetails) (buffer : ArrayBuffer)
    (b : IndexedDBBackend) : Flush :=
  match indexedDB b with
  | None => Settled Fulfilled b
  | Some _ => InFlight {| batch := data; requests := [Compressed now buffer] |} b
  end.

(** [transaction.oncomplete]: the requests are durable; [res()]. *)
Definition transaction_oncomplete (tx : Transaction) (b : IndexedDBBackend)
  : PromiseState * IndexedDBBackend :=
  (Fulfilled,
   set_indexedDB (fold_left (fun s v => add v s) (requests tx) <$> indexedDB b) b).

(** [transaction.onerror], each time an error event reaches it: the
    batch is pushed onto the queue; [rej()]. *)
Definition transaction_onerror (tx : Transaction) (b : IndexedDBBackend)
  : PromiseState * IndexedDBBackend :=
  (Rejected, set_toFlush (toFlush b ++ batch tx) b).


(** *** decompress *)

(** The promise of [decompress], settled: fulfilled with the records, or
    rejected.  [JSON.parse] returns [any]; the source uses the value as an
    [Array<StoredDetails>], which is how it is read here. *)
Definition decompress (value : ArrayBuffer) : Completion (list StoredDetails) :=
  match inflate value with
  | None => Throw (TypeError "The compressed data was not valid")
  | Some buffer =>
      let content := TextDecoder_decode buffer in
      let* parsed := JSON.parse content in
      match as_details_array parsed with
      | Some records => Normal records
      | None => Throw (TypeError "not an array of StoredDetails")
      end
  end.

(** *** export *)

(** The request of [objectStore.openCursor()] over a store that reads
    without error. *)
Definition cursor_steps (s : ObjectStore) : list CursorStep := List.map Row (values s).

(** [opened.onsuccess] and [opened.onerror] of [export], event after
    event.  On a row that holds a buffer the handler returns without
    [cursor.continue()]: the call is left to the [then] callback of
    [decompress].  That callback runs when the streams have finished, in
    a later task, where the transaction of the cursor is not active any
    more: [cursor.continue()] raises there, inside a promise that nothing
    observes.  No further event comes, and neither [res] nor [rej] is
    called.  Nor are they when the decompression fails. *)
Fixpoint export_cursor (steps : list CursorStep) (data : list StoredDetails)
  : Settlement (list StoredDetails) :=
  match steps with
  | [] => Resolves data
  | Fails :: _ => Rejects
  | Row (Compressed _ buffer) :: _ => NeverSettles
  | Row (RawBuffer buffer) :: _ => NeverSettles
  | Row (Plain value) :: rest => export_cursor rest (data ++ [value])
  end.

(** [export()], for a cursor that reports [steps]. *)
Definition export_with (steps : ObjectStore -> list CursorStep) (b : IndexedDBBackend)
  : Completion (Settlement (list StoredDetails)) :=
  match indexedDB b with
  | None => Throw NotInitialised
  | Some objectStore => Normal (export_cursor (steps objectStore) [])
  end.

Definition export : IndexedDBBackend -> Completion (Settlement (list StoredDetails)) :=
  export_with cursor_steps.

(** *** exportBatch *)

Definition exportBatch_on (entriesAtOnce : Z) (st : BatchExport) (ev : BatchEvent)
  : BatchExport :=
  match ev with
  | CursorSuccess (Some (Compressed _ buffer)) => start_decompress buffer st
  | CursorSuccess (Some (RawBuffer buffer)) => start_decompress buffer st
  | CursorSuccess (Some (Plain value)) =>
      sendBuffered entriesAtOnce (push_buffered [value] st)
  | CursorSuccess None =>
      sendBuffered entriesAtOnce
        {| buffered := buffered st;
           empty := true;
           remainingPromises := remainingPromises st;
           awaited := awaited st;
           decompressing := decompressing st;
           issued := issued st;
           rejected := rejected st |}
  | CursorError =>
      {| buffered := buffered st;
         empty := empty st;
         remainingPromises := remainingPromises st;
         awaited := awaited st;
         decompressing := decompressing st;
         issued := issued st;
         rejected := true |}
  | Decompressed i =>
      match List.find (fun d => Nat.eqb (fst d) i) (decompressing st) with
      | None => st
      | Some (_, buffer) =>
          let st :=
            {| buffered := buffered st;
               empty := empty st;
               remainingPromises := remainingPromises st;
               awaited := awaited st;
               decompressing :=
                 List.filter (fun d => negb (Nat.eqb (fst d) i)) (decompressing st);
               issued := issued st;
               rejected := rejected st |} in
          match decompress buffer with
          | Normal content => sendBuffered entriesAtOnce (push_buffered content st)
          | Throw _ => st
          end
      end
  end.

(** The closure after a run of events. *)
Definition exportBatch_run (entriesAtOnce : Z) (events : list BatchEvent) : BatchExport :=
  fold_left (exportBatch_on entriesAtOnce) events exportBatch_start.

(** The success events of the cursor request over a store that reads
    without error: one per row, then the one with the null cursor.  (The
    settling of a decompression is an event of its own, [Decompressed].) *)
Definition cursor_events (s : ObjectStore) : list BatchEvent :=
  List.map (fun v => CursorSuccess (Some v)) (values s) ++ [CursorSuccess None].

(** [res()] can have been called once every promise of some
    [Promise.all] has been fulfilled: [completed i] tells whether the
    promise of the i-th [entryRunner] call is. *)
Definition resolved (st : BatchExport) (completed : nat -> bool) : bool :=
  existsb (fun n => forallb completed (seq 0 n)) (awaited st).

(** [exportBatch(entryRunner, entriesAtOnce)] *)
Definition exportBatch (entriesAtOnce : Z) (events : ObjectStore -> list BatchEvent)
    (b : IndexedDBBackend) : Completion BatchExport :=
  match indexedDB b with
  | None => Throw NotInitialised
  | Some objectStore => Normal (exportBatch_run entriesAtOnce (events objectStore))
  end.

End WithStreams.

End IndexedDBBackend.

(* ===================================================================== *)
(** ** One backend instance over time *)
(* ===================================================================== *)

(** [log] never suspends; [flushToDatabase] suspends while the streams
    compress and until its transaction settles; in between, the timer,
    the facade, the open request and other transactions run.  A run is
    the list of these events in the order they are handled. *)
Module Run.
Import Js BaseBackend IndexedDB Runtime IndexedDBBackend.

Section WithStreams.
Context {streams : Streams}.

(** The open request of [setup]: none of its events has been handled;
    [upgradeneeded] has been, and the version change transaction that
    makes the store runs; the request is over. *)
Inductive OpenRequest :=
| Requested
| Upgrading
| Over.

(** A flush suspended at the [await] of its compression: the promise that
    waits for it (its position in [promises]), the batch it took, the
    buffer the streams give, and the records of the batch as
    [JSON.stringify] read them when the flush was called. *)
Record SuspendedFlush := {
  waits : nat;
  taken : list QueuedDetails;
  compressed : ArrayBuffer;
  serialised : list StoredDetails;
}.

(** A transaction that has not settled yet: the promise that waits for it
    and the records of its batch as they were cloned or serialised when
    the flush was called.  [cancelled] is [None] while the transaction is
    active.  When one of its requests fails the transaction is aborted:
    the requests after the one that failed are cancelled, and each of
    them reports an error event of its own; [cancelled] counts those that
    have not been handled yet. *)
Record OpenTransaction := {
  promise : nat;
  transaction : Transaction;
  snapshot : list StoredDetails;
  cancelled : option nat;
}.

(** [promises] has one entry per call of [flushToDatabase], in call
    order.  [committed] lists the records of the batches whose transaction
    completed, in the order of completion. *)
Record System := {
  backend : IndexedDBBackend;
  request : OpenRequest;
  suspended : list SuspendedFlush;
  open : list OpenTransaction;
  promises : list PromiseState;
  committed : list StoredDetails;
}.

Inductive Event :=
| UpgradeNeeded                                    (* openRequest.onupgradeneeded *)
| Success (result : ObjectStore) (now : Z)         (* openRequest.onsuccess *)
| Log (message : string) (details : LogDetails)    (* backend.log(message, details) *)
| Flush (heap : Heap)                              (* flushToDatabase() is called *)
| Resume (i : nat) (now : Z)                       (* the awaits of the i-th suspended flush are over *)
| Complete (i : nat)                               (* oncomplete of the i-th open transaction *)
| Error (i : nat) (k : nat)                        (* request k of the i-th open transaction fails *)
| ErrorOfCancelled (i : nat)                       (* a request cancelled with it reports its error *)
| Abort (i : nat)                                  (* the i-th open transaction is aborted, no request at fault *)
| ClearOldData (now : Z).                          (* an eviction pass runs, the database being open *)

(** A backend whose database is there has had its open request answered. *)
Definition initial (b : IndexedDBBackend) : System :=
  {| backend := b;
     request := match indexedDB b with Some _ => Over | None => Requested end;
     suspended := []; open := []; promises := []; committed := [] |}.

Definition set_backend (b : IndexedDBBackend) (s : System) : System :=
  {| backend := b; request := request s; suspended := suspended s; open := open s;
     promises := promises s; committed := committed s |}.

Definition set_request (r : OpenRequest) (s : System) : System :=
  {| backend := backend s; request := r; suspended := suspended s; open := open s;
     promises := promises s; committed := committed s |}.

Definition set_suspended (l : list SuspendedFlush) (s : System) : System :=
  {| backend := backend s; request := request s; suspended := l; open := open s;
     promises := promises s; committed := committed s |}.

Definition set_open (l : list OpenTransaction) (s : System) : System :=
  {| backend := backend s; request := request s; suspended := suspended s; open := l;
     promises := promises s; committed := committed s |}.

Definition set_promises (l : list PromiseState) (s : System) : System :=
  {| backend := backend s; request := request s; suspended := suspended s; open := open s;
     promises := l; committed := committed s |}.

Definition set_committed (l : list StoredDetails) (s : System) : System :=
  {| backend := backend s; request := request s; suspended := suspended s; open := open s;
     promises := promises s; committed := l |}.

(** [this.indexedDB.transaction()] raises InvalidStateError. *)
Definition upgrading (s : System) : bool :=
  match request s with
  | Upgrading => true
  | Requested | Over => false
  end.

(** The executor of the promise numbered [p] asks for a transaction and
    adds its values.  While the store is being made the call raises; an
    exception in the executor rejects the promise, and the batch, which
    has left the queue, is not put back. *)
Definition begin (p : nat) (tx : Transaction) (read : list StoredDetails) (s : System)
  : System :=
  if upgrading s then set_promises (<[p := Rejected]> (promises s)) s
  else set_open (open s ++ [ {| promise := p; transaction := tx; snapshot := read;
                                cancelled := None |} ]) s.

(** An error event of the transaction [t], the i-th open one, reaches
    [transaction.onerror]; [more] error events of cancelled requests are
    still to come.  When none is, the transaction is over. *)
Definition on_error (i : nat) (t : OpenTransaction) (more : nat) (s : System) : System :=
  let (p, b) := transaction_onerror (transaction t) (backend s) in
  set_open
    (match more with
     | O => delete i (open s)
     | S _ => <[i := {| promise := promise t; transaction := transaction t;
                        snapshot := snapshot t; cancelled := Some more |}]> (open s)
     end)
    (set_promises (<[promise t := p]> (promises s)) (set_backend b s)).

Definition step (s : System) (e : Event) : System :=
  match e with
  | UpgradeNeeded =>
      match request s, indexedDB (backend s) with
      | Requested, None =>
          set_request Upgrading (set_backend (setup_onupgradeneeded (backend s)) s)
      | _, _ => s
      end
  | Success result now =>
      match request s, indexedDB (backend s) with
      | Requested, None =>
          set_request Over (set_backend (setup_onsuccess now result (backend s)) s)
      | Upgrading, Some made =>
          set_request Over (set_backend (setup_onsuccess now made (backend s)) s)
      | _, _ => s
      end
  | Log message details =>
      match log message details (backend s) with
      | Normal b => set_backend b s
      | Throw _ => s
      end
  | Flush heap =>
      let p := length (promises s) in
      match flushToDatabase heap (backend s) with
      | Settled state b => set_promises (promises s ++ [state]) (set_backend b s)
      | InFlight tx b =>
          begin p tx (List.map (structuredClone heap) (batch tx))
            (set_promises (promises s ++ [Pending]) (set_backend b s))
      | Suspended data buffer b =>
          set_suspended
            (suspended s ++ [ {| waits := p; taken := data; compressed := buffer;
                                 serialised := List.map (structuredClone heap) data |} ])
            (set_promises (promises s ++ [Pending]) (set_backend b s))
      end
  | Resume i now =>
      match suspended s !! i with
      | None => s
      | Some f =>
          let s := set_suspended (delete i (suspended s)) s in
          match flushToDatabase_resume now (taken f) (compressed f) (backend s) with
          | Settled state b => set_promises (<[waits f := state]> (promises s)) (set_backend b s)
          | InFlight tx b => begin (waits f) tx (serialised f) (set_backend b s)
          | Suspended _ _ _ => s
          end
      end
  | Complete i =>
      match open s !! i with
      | None => s
      | Some t =>
          match cancelled t with
          | Some _ => s
          | None =>
              let (p, b) := transaction_oncomplete (transaction t) (backend s) in
              set_committed (committed s ++ snapshot t)
                (set_open (delete i (open s))
                   (set_promises (<[promise t := p]> (promises s)) (set_backend b s)))
          end
      end
  | Error i k =>
      match open s !! i with
      | None => s
      | Some t =>
          match cancelled t with
          | Some _ => s
          | None =>
              if (k <? length (requests (transaction t)))%nat
              then on_error i t (length (requests (transaction t)) - S k) s
              else s
          end
      end
  | ErrorOfCancelled i =>
      match open s !! i with
      | None => s
      | Some t =>
          match cancelled t with
          | Some (S more) => on_error i t more s
          | Some O | None => s
          end
      end
  | Abort i =>
      match open s !! i with
      | None => s
      | Some t =>
          match cancelled t with
          | Some _ => s
          | None => set_open (delete i (open s)) s
          end
      end
  | ClearOldData now =>
      if upgrading s then s else set_backend (clearOldData now (backend s)) s
  end.

Definition run (s : System) (events : list Event) : System := fold_left step events s.

(** [export()], called in the state [s]. *)
Definition export_in (s : System) : Completion (Settlement (list StoredDetails)) :=
  match indexedDB (backend s) with
  | None => Throw NotInitialised
  | Some _ => if upgrading s then Throw InvalidStateError else export (backend s)
  end.

Definition is_flush (e : Event) : bool :=
  match e with Flush _ => true | _ => false end.

(** An event of the open request. *)
Definition is_open_event (e : Event) : bool :=
  match e with UpgradeNeeded | Success _ _ => true | _ => false end.

Definition is_eviction (e : Event) : bool :=
  match e with ClearOldData _ => true | _ => false end.

(** The records a list of stored values stands for, compressed entries
    expanded. *)
Definition expand (vs : list StoredValue) : list StoredDetails :=
  List.concat
    (List.map (fun v =>
                 match v with
                 | Plain r => [r]
                 | Compressed _ buffer | RawBuffer buffer =>
                     match decompress buffer with
                     | Normal content => content
                     | Throw _ => []
                     end
                 end) vs).

End WithStreams.

End Run.

(* ===================================================================== *)
(** ** Backends/FileBackend.ts *)
(* ===================================================================== *)

Module FileBackend.
Import BaseBackend.

(** The [fs.WriteStream], as the backend sees it.  [written] lists the
    chunks handed to [stream.write], oldest first.  [accepts] gives the
    values the coming calls of [stream.write] return ([false]: the sink
    asks the writer to wait for "drain"); once the list is used up the
    stream accepts.  [drain_listeners] are the callbacks registered with
    [once("drain", ...)], each by the messages it will write again. *)
Record WriteStream := {
  written : list string;
  accepts : list bool;
  drain_listeners : list (list string);
}.

Definition createWriteStream (accepts : list bool) : WriteStream :=
  {| written := []; accepts := accepts; drain_listeners := [] |}.

(** [stream.write(chunk)] and the boolean it returns. *)
Definition stream_write (chunk : string) (s : WriteStream) : bool * WriteStream :=
  match accepts s with
  | [] => (true, {| written := written s ++ [chunk]; accepts := [];
                    drain_listeners := drain_listeners s |})
  | ok :: later => (ok, {| written := written s ++ [chunk]; accepts := later;
                           drain_listeners := drain_listeners s |})
  end.

Definition once_drain (messages : list string) (s : WriteStream) : WriteStream :=
  {| written := written s; accepts := accepts s;
     drain_listeners := drain_listeners s ++ [messages] |}.

Record FileBackend := {
  stream : option WriteStream;
  ready : bool;
  waiting : list string;
}.

(** The constructor, [setup()] included: the stream is created, the
    listener for "ready" is [on_ready] below. *)
Definition constructor (accepts : list bool) : FileBackend :=
  {| stream := Some (createWriteStream accepts); ready := false; waiting := [] |}.

Definition CRLF : string := String "013" (String "010" EmptyString).

(** [messages.join("\r\n")] *)
Definition join_lines (messages : list string) : string := String.concat CRLF messages.

Definition write (messages : list string) (b : FileBackend) : FileBackend :=
  if (length messages =? 0)%nat then b
  else if negb (ready b) then
    {| stream := stream b; ready := ready b; waiting := waiting b ++ messages |}
  else match stream b with
       | None => b
       | Some s =>
           let lines := join_lines messages in
           let (successful, s) := stream_write lines s in
           if successful
           then {| stream := Some s; ready := ready b; waiting := waiting b |}
           else {| stream := Some (once_drain messages s); ready := ready b;
                   waiting := waiting b |}
       end.

(** The listener of "ready" installed by [setup()]. *)
Definition on_ready (b : FileBackend) : FileBackend :=
  let b := {| stream := stream b; ready := true; waiting := waiting b |} in
  let b := write (waiting b) b in
  {| stream := stream b; ready := ready b; waiting := [] |}.

(** The stream emits "drain": the listeners registered with [once] are
    removed, then called in the order of their registration. *)
Definition on_drain (b : FileBackend) : FileBackend :=
  match stream b with
  | None => b
  | Some s =>
      let listeners := drain_listeners s in
      let b := {| stream := Some {| written := written s; accepts := accepts s;
                                    drain_listeners := [] |};
                  ready := ready b; waiting := waiting b |} in
      fold_left (fun b messages => write messages b) listeners b
  end.

Definition log (message : string) (details : LogDetails) (b : FileBackend) : FileBackend :=
  write [message] b.

(** The chunks written so far. *)
Definition chunks (b : FileBackend) : list string :=
  match stream b with
  | Some s => written s
  | None => []
  end.

(** The sink has refused a chunk and has not drained since. *)
Definition backpressured (b : FileBackend) : bool :=
  match stream b with
  | Some s => negb (length (drain_listeners s) =? 0)%nat
  | None => false
  end.

End FileBackend.

(* ===================================================================== *)
(** ** One stream backend over time *)
(* ===================================================================== *)

Module FileRun.
Import BaseBackend FileBackend.

(** What happens to a stream backend, in the order it happens. *)
Inductive Event :=
| Log (message : string) (details : LogDetails)   (* backend.log(message, details) *)
| Ready                                           (* the stream emits "ready" *)
| Drain.                                          (* the stream emits "drain" *)

Definition step (b : FileBackend) (e : Event) : FileBackend :=
  match e with
  | Log message details => log message details b
  | Ready => on_ready b
  | Drain => on_drain b
  end.

Definition run (b : FileBackend) (events : list Event) : FileBackend := fold_left step events b.

End FileRun.

(* ===================================================================== *)
(** ** Lumberjack.ts: the namespace stack and [sendToBackend] *)
(* ===================================================================== *)

Module Lumberjack.
Import Js BaseBackend.

(** The fields of the facade that reach the backend: [namespaces] is the
    address of the array created by the constructor. *)
Record Lumberjack := {
  namespaces : addr;
}.

(** [this.namespaces.push(groupTitle)], an absent title being replaced by
    the empty string. *)
Definition group (groupTitle : option string) (l : Lumberjack) (heap : Heap) : Heap :=
  let groupTitle := default EmptyString groupTitle in
  <[namespaces l := (deref heap (namespaces l) ++ [groupTitle])%list]> heap.

(** [this.namespaces.pop()] *)
Definition groupEnd (l : Lumberjack) (heap : Heap) : Heap :=
  <[namespaces l := removelast (deref heap (namespaces l))]> heap.

Section SendToBackend.
(** [assembleMessage(message, optionalParams)]: the text of the log and
    what is left of [optionalParams], which [printf] consumes in place. *)
Variable assembleMessage : JsValue -> list JsValue -> string * list JsValue.

(** The details [sendToBackend] builds; [now] is [new Date()]. *)
Definition details_for (l : Lumberjack) (now : Date) (level : VerbosityLevel)
    (message : JsValue) (optionalParams : list JsValue) : LogDetails :=
  {| timestamp := now;
     arguments := message :: optionalParams;
     BaseBackend.namespaces := namespaces l;
     level := level;
     contextId := None |}.

(** [sendToBackend], for a backend with the given [log]. *)
Definition sendToBackend {Backend : Type}
    (backend_log : string -> LogDetails -> Backend -> Completion Backend)
    (l : Lumberjack) (now : Date) (level : VerbosityLevel)
    (message : JsValue) (optionalParams : list JsValue) (backend : Backend)
  : Completion Backend :=
  let (log, optionalParams) := assembleMessage message optionalParams in
  backend_log log (details_for l now level message optionalParams) backend.

End SendToBackend.

End Lumberjack.

(* ===================================================================== *)
(** ** Lumberjack.ts: the methods of the console *)
(* ===================================================================== *)

Module Facade.
Import Js BaseBackend Host Utilities.

(** *** Strings *)

(** White space and line terminators of one byte. *)
Definition is_space (c : ascii) : bool :=
  let n := nat_of_ascii c in
  ((9 <=? n) && (n <=? 13) || (n =? 32))%nat.

(** White space of two bytes, in UTF-8: U+00A0. *)
Definition is_space2 (c c1 : ascii) : bool :=
  ((nat_of_ascii c =? 194) && (nat_of_ascii c1 =? 160))%nat.

(** White space and line terminators of three bytes, in UTF-8: U+1680,
    U+2000 to U+200A, U+2028, U+2029, U+202F, U+205F, U+3000 and U+FEFF. *)
Definition is_space3 (c c1 c2 : ascii) : bool :=
  let n := nat_of_ascii c in
  let n1 := nat_of_ascii c1 in
  let n2 := nat_of_ascii c2 in
  ((n =? 225) && (n1 =? 154) && (n2 =? 128)
   || (n =? 226) && (n1 =? 128)
      && ((128 <=? n2) && (n2 <=? 138) || (n2 =? 168) || (n2 =? 169) || (n2 =? 175))
   || (n =? 226) && (n1 =? 129) && (n2 =? 159)
   || (n =? 227) && (n1 =? 128) && (n2 =? 128)
   || (n =? 239) && (n1 =? 187) && (n2 =? 191))%nat.

(** What follows the first character of [s] when that character is white
    space or a line terminator. *)
Definition strip_space (s : string) : option string :=
  match s with
  | EmptyString => None
  | String c rest =>
      if is_space c then Some rest
      else
        match rest with
        | EmptyString => None
        | String c1 rest1 =>
            if is_space2 c c1 then Some rest1
            else
              match rest1 with
              | EmptyString => None
              | String c2 rest2 => if is_space3 c c1 c2 then Some rest2 else None
              end
        end
  end.

Fixpoint trimStart_steps (n : nat) (s : string) : string :=
  match n with
  | O => s
  | S n =>
      match strip_space s with
      | Some rest => trimStart_steps n rest
      | None => s
      end
  end.

(** [s.trimStart()] *)
Definition trimStart (s : string) : string := trimStart_steps (String.length s) s.

(** [s.trimEnd()]: the string is cut where nothing but white space follows. *)
Fixpoint trimEnd (s : string) : string :=
  match s with
  | EmptyString => EmptyString
  | String c rest =>
      if String.eqb (trimStart s) EmptyString then EmptyString else String c (trimEnd rest)
  end.

(** [s.trim()] *)
Definition trim (s : string) : string := trimEnd (trimStart s).

(** [s.split("\n")] *)
Fixpoint split_lines (s : string) : list string :=
  match s with
  | EmptyString => [EmptyString]
  | String c rest =>
      if Ascii.eqb c "010" then EmptyString :: split_lines rest
      else match split_lines rest with
           | line :: lines => String c line :: lines
           | [] => [String c EmptyString]
           end
  end.

(** A label between double quotes. *)
Definition quoted (label : string) : string :=
  String JSON.dquote (label +:+ String JSON.dquote EmptyString).

(** *** decorateMessage *)

(** [interface LumberjackOptions]; an option that is absent is [false],
    or [None]. *)
Module Options.
Record LumberjackOptions := {
  timestamp : bool;
  trace : bool;
  applicationName : option string;
}.
End Options.
Abbreviation LumberjackOptions := Options.LumberjackOptions.

(** What a call reads from the runtime: [(new Date()).toISOString()] and
    [(new Error()).stack] in [decorateMessage], [new Date()] in
    [sendToBackend]. *)
Record Moment := {
  iso : string;
  stack : option string;
  now : Date;
}.

(** [decorateMessage(message)] *)
Definition decorateMessage (options : LumberjackOptions) (moment : Moment) (message : JsValue)
  : Completion JsValue :=
  match message with
  | JsString message =>
      let prepend := EmptyString in
      let append := EmptyString in
      let prepend := if Options.timestamp options then "[" +:+ iso moment +:+ "]" else prepend in
      let prepend :=
        match Options.applicationName options with
        | Some name =>
            if negb (String.eqb name EmptyString)
            then trim (prepend +:+ " " +:+ name) +:+ ":"
            else prepend
        | None => prepend
        end in
      let* append :=
        if Options.trace options then
          match stack moment with
          | Some trace =>
              if negb (String.eqb trace EmptyString) then
                let split := split_lines trace in
                match (if (3 <=? length split)%nat
                       then nth_error split (length split - 3) else None) with
                | Some line => Normal (trim line)
                | None =>
                    Throw (TypeError "Cannot read properties of undefined (reading 'trim')")
                end
              else Normal append
          | None => Normal append
          end
        else Normal append in
      Normal (JsString (trim (prepend +:+ " " +:+ message +:+ " " +:+ append)))
  | _ => Normal message
  end.

Section WithConversions.
Context {conversions : Conversions}.

(** *** assembleMessage *)

(** [assembleMessage(message, [])], the call made for each optional
    parameter: its loops do not run. *)
Definition assembleMessage_of (message : JsValue) : Completion JsValue :=
  match message with
  | JsString text =>
      let* printed := printf text [] in Normal (JsString (fst printed))
  | JsUndefined => Normal (JsString EmptyString)
  | _ =>
      if String.eqb (typeof message) "object" then encode message
      else match toString message with
           | Some s => Normal (JsString s)
           | None => Normal (JsString EmptyString)
           end
  end.

(** [log = `${log} ${this.assembleMessage(optionalParams[i], [])}`], for
    each optional parameter. *)
Fixpoint append_params (log : string) (optionalParams : list JsValue) : Completion string :=
  match optionalParams with
  | [] => Normal log
  | param :: rest =>
      let* assembled := assembleMessage_of param in
      let* text := ToString assembled in
      append_params (log +:+ " " +:+ text) rest
  end.

(** [assembleMessage(message, optionalParams)]: the value returned, and
    [optionalParams] as the call leaves it. *)
Definition assembleMessage (message : JsValue) (optionalParams : list JsValue)
  : Completion (JsValue * list JsValue) :=
  match message with
  | JsString text =>
      let* printed := printf text optionalParams in
      Normal (JsString (fst printed), snd printed)
  | JsUndefined =>
      let* log := append_params EmptyString optionalParams in
      Normal (JsString log, optionalParams)
  | _ =>
      if String.eqb (typeof message) "object" then
        let* log := encode message in
        match optionalParams with
        | [] => Normal (log, optionalParams)
        | _ =>
            let* text := ToString log in
            let* log := append_params text optionalParams in
            Normal (JsString log, optionalParams)
        end
      else match toString message with
           | Some s => Normal (JsString s, optionalParams)
           | None => Normal (JsString EmptyString, optionalParams)
           end
  end.

(** *** The facade and its backend *)

(** A call made on the console that the facade wraps. *)
Record ConsoleCall := {
  method : string;
  args : list JsValue;
}.

(** The fields of the facade; [console] lists the calls made on
    [this.console], oldest first. *)
Record Facade := {
  lumberjack : Lumberjack.Lumberjack;
  options : LumberjackOptions;
  timers : gmap string Date;
  console : list ConsoleCall;
}.

Section WithBackend.
Context {Backend : Type}.
Variable backend_log : string -> LogDetails -> Backend -> Completion Backend.

(** The facade, the memory it shares with its backend, and the backend. *)
Record World := {
  facade : Facade;
  heap : Heap;
  backend : Backend;
}.

(** [new Lumberjack(backend, options)]; [namespaces] is the address of
    the array the constructor creates. *)
Definition constructor (b : Backend) (opts : LumberjackOptions) (namespaces : addr)
    (heap : Heap) : World :=
  {| facade := {| lumberjack := {| Lumberjack.namespaces := namespaces |};
                  options := opts; timers := ∅; console := [] |};
     heap := <[namespaces := []]> heap;
     backend := b |}.

Definition console_call (name : string) (arguments : list JsValue) (w : World) : World :=
  {| facade := {| lumberjack := lumberjack (facade w);
                  options := options (facade w);
                  timers := timers (facade w);
                  console := (console (facade w)
                              ++ [ {| method := name; args := arguments |} ])%list |};
     heap := heap w;
     backend := backend w |}.

Definition set_timers (t : gmap string Date) (w : World) : World :=
  {| facade := {| lumberjack := lumberjack (facade w);
                  options := options (facade w);
                  timers := t;
                  console := console (facade w) |};
     heap := heap w;
     backend := backend w |}.

Definition set_heap (h : Heap) (w : World) : World :=
  {| facade := facade w; heap := h; backend := backend w |}.

Definition set_backend (b : Backend) (w : World) : World :=
  {| facade := facade w; heap := heap w; backend := b |}.

(** A method leaves the facade and its backend in a state, and returns
    or raises. *)
Definition Call := (World * Completion unit)%type.

(** [sendToBackend(level, message, optionalParams)]: the message is
    assembled, then handed to the backend with the details; [sent] is
    [new Date()].  The values of this development make [assembleMessage]
    return a string ([FacadeFacts.assembleMessage_string]), which is
    what the backend is given: the last branch is never taken. *)
Definition sendToBackend (level : VerbosityLevel) (sent : Date)
    (message : JsValue) (optionalParams : list JsValue) (w : World) : Call :=
  match assembleMessage message optionalParams with
  | Throw e => (w, Throw e)
  | Normal (JsString log, remaining) =>
      match Lumberjack.sendToBackend (fun _ _ => (log, remaining)) backend_log
              (lumberjack (facade w)) sent level message optionalParams (backend w) with
      | Normal b => (set_backend b w, Normal tt)
      | Throw e => (w, Throw e)
      end
  | Normal (_, _) => (w, Throw (TypeError "the message is not a string"))
  end.

(** [debug(message, ...optionalParams)] *)
Definition debug (moment : Moment) (message : JsValue) (optionalParams : list JsValue)
    (w : World) : Call :=
  match decorateMessage (options (facade w)) moment message with
  | Throw e => (w, Throw e)
  | Normal message =>
      let w := console_call "debug" (message :: optionalParams) w in
      sendToBackend DEBUG (now moment) message optionalParams w
  end.

(** [error(message, ...optionalParams)] *)
Definition error (moment : Moment) (message : JsValue) (optionalParams : list JsValue)
    (w : World) : Call :=
  match decorateMessage (options (facade w)) moment message with
  | Throw e => (w, Throw e)
  | Normal message =>
      let w := console_call "error" (message :: optionalParams) w in
      sendToBackend ERROR (now moment) message optionalParams w
  end.

(** [info(message, ...optionalParams)] *)
Definition info (moment : Moment) (message : JsValue) (optionalParams : list JsValue)
    (w : World) : Call :=
  match decorateMessage (options (facade w)) moment message with
  | Throw e => (w, Throw e)
  | Normal message =>
      let w := console_call "info" (message :: optionalParams) w in
      sendToBackend INFO (now moment) message optionalParams w
  end.

(** [log(message, ...optionalParams)] *)
Definition log (moment : Moment) (message : JsValue) (optionalParams : list JsValue)
    (w : World) : Call :=
  match decorateMessage (options (facade w)) moment message with
  | Throw e => (w, Throw e)
  | Normal message =>
      let w := console_call "log" (message :: optionalParams) w in
      sendToBackend NOTICE (now moment) message optionalParams w
  end.

(** [warn(message, ...optionalParams)]; the console method it calls is
    [log]. *)
Definition warn (moment : Moment) (message : JsValue) (optionalParams : list JsValue)
    (w : World) : Call :=
  match decorateMessage (options (facade w)) moment message with
  | Throw e => (w, Throw e)
  | Normal message =>
      let w := console_call "log" (message :: optionalParams) w in
      sendToBackend WARNING (now moment) message optionalParams w
  end.

(** [trace(message, ...optionalParams)]; [pushed] is the stack of the
    [Error] made in the method, [undefined] where errors have none. *)
Definition trace (moment : Moment) (pushed : option string)
    (message : JsValue) (optionalParams : list JsValue) (w : World) : Call :=
  match decorateMessage (options (facade w)) moment message with
  | Throw e => (w, Throw e)
  | Normal message =>
      let w := console_call "trace" (message :: optionalParams) w in
      let optionalParams := (optionalParams ++ [from_option JsString JsUndefined pushed])%list in
      sendToBackend NOTICE (now moment) message optionalParams w
  end.

(** [clear()] *)
Definition clear (w : World) : Call := (console_call "clear" [] w, Normal tt).

(** [group(groupTitle)] *)
Definition group (groupTitle : option string) (w : World) : Call :=
  let w := console_call "group" [from_option JsString JsUndefined groupTitle] w in
  (set_heap (Lumberjack.group groupTitle (lumberjack (facade w)) (heap w)) w, Normal tt).

(** [groupCollapsed(groupTitle)] *)
Definition groupCollapsed (groupTitle : option string) (w : World) : Call :=
  let w := console_call "groupCollapsed" [from_option JsString JsUndefined groupTitle] w in
  (set_heap (Lumberjack.group groupTitle (lumberjack (facade w)) (heap w)) w, Normal tt).

(** [groupEnd()] *)
Definition groupEnd (w : World) : Call :=
  let w := console_call "groupEnd" [] w in
  (set_heap (Lumberjack.groupEnd (lumberjack (facade w)) (heap w)) w, Normal tt).

(** [time(label)]; [started] is the [new Date()] kept for the label. *)
Definition time (started : Date) (moment : Moment) (label : option string) (w : World) : Call :=
  let label := default EmptyString label in
  match timers (facade w) !! label with
  | Some _ =>
      (console_call "warn"
         [JsString ("The timer " +:+ quoted label +:+ " has already been started")] w,
       Normal tt)
  | None =>
      let w := console_call "time" [JsString label] w in
      let w := set_timers (<[label := started]> (timers (facade w))) w in
      match decorateMessage (options (facade w)) moment
              (JsString ("Started timer " +:+ quoted label)) with
      | Throw e => (w, Throw e)
      | Normal message => sendToBackend NOTICE (now moment) message [] w
      end
  end.

(** [timeEnd(label)]; [ended] is the [new Date()] of the method. *)
Definition timeEnd (ended : Date) (moment : Moment) (label : option string) (w : World) : Call :=
  let label := default EmptyString label in
  match timers (facade w) !! label with
  | None =>
      (console_call "warn"
         [JsString ("The timer " +:+ quoted label +:+ " has not been started")] w,
       Normal tt)
  | Some timer =>
      let w := console_call "timeEnd" [JsString label] w in
      let w := set_timers (delete label (timers (facade w))) w in
      let difference := getTime timer - getTime ended in
      match decorateMessage (options (facade w)) moment
              (JsString ("Ended timer " +:+ quoted label +:+ ", time taken was "
                         +:+ string_of_Z difference +:+ " seconds")) with
      | Throw e => (w, Throw e)
      | Normal message => sendToBackend NOTICE (now moment) message [] w
      end
  end.

End WithBackend.

End WithConversions.

End Facade.

(* ===================================================================== *)
(** ** Lumberjack.ts: the console of the global object *)
(* ===================================================================== *)

Module Injection.

(** What [global.console] holds: the console of the runtime, or a facade,
    by the rank of its construction. *)
Inductive Console :=
| Native
| Wrapper (facade : nat).

(** The global object, which every facade shares, and the field
    [console] of each facade made so far, oldest first. *)
Record Globals := {
  console : Console;
  facades : list Console;
}.

(** [new Lumberjack(backend, options)]: [this.console] is what
    [global.console] holds at that moment.  The facade made is the last
    of [facades]. *)
Definition constructor (g : Globals) : Globals :=
  {| console := console g; facades := (facades g ++ [console g])%list |}.

(** [inject()]: [this.global.console = this].  The function it returns
    calls [revert]. *)
Definition inject (this : nat) (g : Globals) : Globals :=
  {| console := Wrapper this; facades := facades g |}.

(** [revert()]: [this.global.console = this.console] *)
Definition revert (this : nat) (g : Globals) : Globals :=
  match facades g !! this with
  | Some kept => {| console := kept; facades := facades g |}
  | None => g
  end.

End Injection.

(* ===================================================================== *)
(** * Vocabulary of the statements *)
(* ===================================================================== *)

(** ** Reading back what [JSON.stringify] writes *)

Module JSONReading.
Import Js JSON.

(** What may follow a number in a text: nothing, or a character that is
    not part of a number. *)
Definition follow_ok (k : string) : Prop :=
  match k with
  | EmptyString => True
  | String c _ => is_number_char c = false
  end.

(** The text after the first element of an array, and of an object. *)
Definition more_items (k : string) : list Json -> string :=
  fix more (l : list Json) : string :=
    match l with
    | [] => String "]" k
    | e' :: l' => String "," (print_k e' (more l'))
    end.

Definition more_members (k : string) : list (string * Json) -> string :=
  fix more (l : list (string * Json)) : string :=
    match l with
    | [] => String "}" k
    | (n', e') :: l' => String "," (quote_k n' (String ":" (print_k e' (more l'))))
    end.

(** The depth of calls [parse_value] makes on the text of a document. *)
Fixpoint need (j : Json) : nat :=
  match j with
  | JArray items => S (fold_right (fun e n => S (need e + n)) 0 items)
  | JObject members => S (fold_right (fun m n => S (need (snd m) + n)) 0 members)
  | _ => 1
  end%nat.

(** The parser reads the text of [j] back, whatever follows it. *)
Definition reads (j : Json) : Prop :=
  forall fuel k, (need j <= fuel)%nat -> follow_ok k ->
    parse_value fuel (print_k j k) = Some (j, k).

End JSONReading.

(** ** The encoding of arguments *)

Module EncodeSpec.
Import Js JSON BaseBackend IndexedDB IndexedDBBackend.

(** [String(v)], for a value that is not an object. *)
Definition string_form (v : JsValue) : string :=
  match v with
  | JsUndefined => "undefined"
  | JsNull => "null"
  | JsBoolean b => if b then "true" else "false"
  | JsNum n => string_of_number n
  | JsString s => s
  | JsBigInt z => string_of_Z z
  | JsSymbol d => "Symbol(" +:+ d +:+ ")"
  | JsFunction _ source => source
  | _ => EmptyString
  end.

(** A plain object is one whose constructor is [Object]. *)
Definition is_plain (item : JsValue) : bool :=
  match get_constructor item with
  | JsFunction name _ => String.eqb name "Object"
  | _ => false
  end.

(** The encoding in the words of the specification: an object becomes its
    JSON text, or its constructor's name when the text is the empty object
    literal and the object is not plain; any other value becomes its
    string form. *)
Definition specified_encoding (item : JsValue) : Completion JsValue :=
  if String.eqb (typeof item) "object" then
    let* encoded := JSON.stringify item in
    if bool_decide (encoded = Some "{}") && negb (is_plain item)
    then Normal (get_name (get_constructor item))
    else Normal (from_option JsString JsUndefined encoded)
  else Normal (JsString (string_form item)).

(** The record [log] is specified to queue. *)
Definition queues_as_specified (message : string) (details : LogDetails)
    (b b' : IndexedDBBackend) : Prop :=
  exists r encoded,
    toFlush b' = (toFlush b ++ [r])%list /\
    timestamp r = getTime (BaseBackend.timestamp details) /\
    map_throwing specified_encoding (BaseBackend.arguments details) = Normal encoded /\
    arguments r = encoded.

(** What [encode] does with an item, apart from the objects whose JSON text
    is the empty object literal although they have own enumerable keys. *)
Definition encoded_by_design (item out : JsValue) : Prop :=
  (ToBoolean item = false -> out = JsString EmptyString) /\
  (ToBoolean item = true -> typeof item <> "object" -> out = JsString (string_form item)) /\
  (ToBoolean item = true -> typeof item = "object" ->
   forall text, JSON.stringify item = Normal (Some text) ->
     text <> "{}" \/ Object_keys_length item = 0%nat -> out = JsString text).

(** An object that has own enumerable keys and whose JSON text is the
    empty object literal all the same: the case in which [encode] looks
    for the name of a constructor. *)
Definition empty_text_with_keys (item : JsValue) : Prop :=
  typeof item = "object" /\
  JSON.stringify item = Normal (Some "{}") /\
  Object_keys_length item <> 0%nat.

(** [log] returns to its caller. *)
Definition returns (message : string) (details : LogDetails) (b : IndexedDBBackend) : Prop :=
  exists b', log message details b = Normal b'.

(** An object whose only property refers back to the object itself:
    [const o = {}; o.self = o]. *)
Definition circular : JsValue := literal [("self", JsCycle 0)].

Definition details_of (args : list JsValue) : LogDetails :=
  {| BaseBackend.timestamp := {| getTime := 1700000000000 |};
     BaseBackend.arguments := args;
     BaseBackend.namespaces := 0%nat;
     BaseBackend.level := INFO;
     BaseBackend.contextId := None |}.

End EncodeSpec.

(** ** The stream backend under backpressure *)

Module FileBackendSpec.
Import BaseBackend FileBackend.

(** The third part of the behaviour specified for the stream backend:
    while the sink has not drained, a [log] call adds nothing to the
    chunks handed to the stream. *)
Definition accumulates_under_backpressure (b : FileBackend) : Prop :=
  forall message details,
    ready b = true -> backpressured b = true ->
    chunks (log message details b) = chunks b.

Definition details : LogDetails :=
  {| timestamp := {| getTime := 0 |}; arguments := []; namespaces := 0%nat;
     level := INFO; contextId := None |}.

(** The sink refuses the first chunk it is handed. *)
Definition refusing : FileBackend := on_ready (constructor [false]).

End FileBackendSpec.

(** ** A record logged inside a group *)

Module NamespacesSpec.
Import Js JSON BaseBackend IndexedDB Runtime IndexedDBBackend.

(** The facade of the scenario: its namespace stack is the array at
    address 0, empty at first.  The message is a string without format
    directives, which [assembleMessage] returns as it is. *)
Definition facade : Lumberjack.Lumberjack := {| Lumberjack.namespaces := 0%nat |}.

Definition assemble_plain (message : JsValue) (optionalParams : list JsValue)
  : string * list JsValue :=
  (match message with JsString s => s | _ => EmptyString end, optionalParams).

(** A backend whose database is open and empty. *)
Definition opened : IndexedDBBackend :=
  set_indexedDB (Some createObjectStore) (constructor default_options).

(** [group("checkout")], then [log("paid")]. *)
Definition heap_at_log : Heap := Lumberjack.group (Some "checkout") facade ∅.

Definition after_log : Completion IndexedDBBackend :=
  Lumberjack.sendToBackend assemble_plain log facade {| getTime := 1700000000000 |}
    NOTICE (JsString "paid") [] opened.

(** [groupEnd()], before the timer fires. *)
Definition heap_at_flush : Heap := Lumberjack.groupEnd facade heap_at_log.

(** The values a flush hands to the store. *)
Definition written_by_flush {streams : Streams} (heap : Heap) (now : Z)
    (b : Completion IndexedDBBackend) : list StoredValue :=
  match b with
  | Normal b =>
      match flushToDatabase heap b with
      | InFlight tx _ => requests tx
      | Suspended data buffer b' =>
          match flushToDatabase_resume now data buffer b' with
          | InFlight tx _ => requests tx
          | Settled _ _ | Suspended _ _ _ => []
          end
      | Settled _ _ => []
      end
  | Throw _ => []
  end.

End NamespacesSpec.

(** ** Records as JSON documents *)

Module CompressionSpec.
Import Js JSON BaseBackend IndexedDB Runtime IndexedDBBackend.

(** Every argument of the record is a string, as [encode] leaves them. *)
Definition encoded_arguments {N} (r : Details N) : Prop :=
  Forall (fun v => exists s, v = JsString s) (arguments r).

(** The JSON text of a string argument. *)
Definition argument_json (v : JsValue) : Json :=
  match v with
  | JsString s => JString s
  | _ => JNull
  end.

(** The document [JSON.stringify] builds for a record. *)
Definition details_json (r : StoredDetails) : Json :=
  JObject ([ ("timestamp", JNumber (timestamp r));
             ("arguments", JArray (List.map argument_json (arguments r)));
             ("namespaces", JArray (List.map JString (namespaces r)));
             ("level", JString (level_name (level r))) ]
           ++ match contextId r with
              | Some c => [("contextId", JString c)]
              | None => []
              end
           ++ [ ("message", JString (message r)) ]).

(** Two records logged on an open database that compresses from two
    records on. *)
Definition two_logged : IndexedDBBackend :=
  {| toFlush :=
       [ {| timestamp := 1700000000000; arguments := [JsString "1"; JsString "{}"];
            namespaces := 0%nat; level := INFO; contextId := Some "ctx"; message := "one 1 {}" |};
         {| timestamp := 1700000000001; arguments := [];
            namespaces := 0%nat; level := ERROR; contextId := None; message := "two" |} ];
     indexedDB := Some createObjectStore;
     options := {| expire := None; flushTimer := 5000; minimumRecordsToCompress := 2;
                   maxNumberOfLogs := None |} |}.

Definition two_logged_heap : Heap := {[ 0%nat := ["outer"; "inner"] ]}.

(** What [decompress] is to give for a record of the queue: the record
    field by field, its namespaces being the content of the array when
    the batch was serialised. *)
Definition same_fields (heap : Heap) (r : QueuedDetails) (d : StoredDetails) : Prop :=
  timestamp d = timestamp r /\
  arguments d = arguments r /\
  namespaces d = deref heap (namespaces r) /\
  level d = level r /\
  contextId d = contextId r /\
  message d = message r.

End CompressionSpec.

(** ** Runs of one backend *)

Module RunSpec.
Import Js JSON BaseBackend IndexedDB Runtime IndexedDBBackend Run CompressionSpec.

Section WithStreams.
Context {streams : Streams}.

(** A stored value that decompresses: a record, or a buffer that
    [decompress] reads. *)
Definition readable (v : StoredValue) : Prop :=
  match v with
  | Plain _ => True
  | Compressed _ buffer | RawBuffer buffer => exists content, decompress buffer = Normal content
  end.

(** The records in the database, compressed entries expanded, in the
    order of the primary key. *)
Definition durable (b : IndexedDBBackend) : list StoredDetails :=
  match indexedDB b with
  | Some objectStore => expand (values objectStore)
  | None => []
  end.

End WithStreams.

(** A row that holds a record, not a buffer. *)
Definition is_plain_row (v : StoredValue) : bool :=
  match v with
  | Plain _ => true
  | Compressed _ _ | RawBuffer _ => false
  end.

(** A fresh database that compresses from two records on. *)
Definition two_options : IndexedDBBackendOptions :=
  {| expire := None; flushTimer := 5000; minimumRecordsToCompress := 2;
     maxNumberOfLogs := None |}.

Definition fresh : IndexedDBBackend :=
  set_indexedDB (Some createObjectStore) (constructor two_options).

Definition details_at (t : Z) (args : list JsValue) : LogDetails :=
  {| BaseBackend.timestamp := {| getTime := t |};
     BaseBackend.arguments := args;
     BaseBackend.namespaces := 0%nat;
     BaseBackend.level := INFO;
     BaseBackend.contextId := None |}.

(** The record [log] queues for [details_at]. *)
Definition queued_at (t : Z) (args : list JsValue) (text : string) : QueuedDetails :=
  {| timestamp := t; arguments := args; namespaces := 0%nat; level := INFO;
     contextId := None; message := text |}.

(** The same record in the store, logged outside any group. *)
Definition stored_at (t : Z) (args : list JsValue) (text : string) : StoredDetails :=
  {| timestamp := t; arguments := args; namespaces := []; level := INFO;
     contextId := None; message := text |}.

(** One record is logged and flushed; its transaction is aborted when it
    commits, no request being at fault. *)
Definition aborted_commit : list Event :=
  [ Log "first" (details_at 1 [JsNum (Int 1)]); Flush ∅; Abort 0 ].

(** A second record is logged and flushed, and that transaction
    completes. *)
Definition next_flush : list Event :=
  [ Log "second" (details_at 3 [JsString "two"]); Flush ∅; Complete 0 ].

(** Two records are logged and flushed as two requests of one
    transaction; the first request fails, which cancels the second. *)
Definition failed_request : list Event :=
  [ Log "first" (details_at 1 [JsNum (Int 1)]); Log "second" (details_at 3 [JsString "two"]);
    Flush ∅; Error 0 0; ErrorOfCancelled 0 ].

(** Two records are logged and flushed as one compressed entry, which is
    stored. *)
Definition compressed_flush : list Event :=
  [ Log "first" (details_at 1 [JsNum (Int 1)]); Log "second" (details_at 3 [JsString "two"]);
    Flush ∅; Resume 0 5; Complete 0 ].

(** The same records flushed as two rows. *)
Definition plain_flush : list Event :=
  [ Log "first" (details_at 1 [JsNum (Int 1)]); Log "second" (details_at 3 [JsString "two"]);
    Flush ∅; Complete 0 ].

(** The state after two records were logged and flushed as two rows, and
    the transaction of that flush. *)
Definition two_rows_flushed : System :=
  Run.run (streams := stored_streams false) (initial fresh)
    [ Log "first" (details_at 1 [JsNum (Int 1)]); Log "second" (details_at 3 [JsString "two"]);
      Flush ∅ ].

Definition two_rows : OpenTransaction :=
  {| promise := 0%nat;
     transaction :=
       {| batch := [ queued_at 1 [JsString "1"] "first"; queued_at 3 [JsString "two"] "second" ];
          requests := [ Plain (stored_at 1 [JsString "1"] "first");
                        Plain (stored_at 3 [JsString "two"] "second") ] |};
     snapshot := [ stored_at 1 [JsString "1"] "first"; stored_at 3 [JsString "two"] "second" ];
     cancelled := None |}.

End RunSpec.

(** ** The two rules of an eviction pass *)

Module EvictionSpec.
Import Js BaseBackend IndexedDB IndexedDBBackend.

(** Row [a] was inserted before row [b] and is not younger: the primary
    keys increase and the timestamps do not decrease. *)
Definition row_before (a b : Z * StoredValue) : Prop :=
  fst a < fst b /\
  exists ta tb,
    timestamp_key (snd a) = Some ta /\ timestamp_key (snd b) = Some tb /\ ta <= tb.

(** The rows are in insertion order and their timestamps follow it. *)
Definition in_time_order (rs : list (Z * StoredValue)) : Prop :=
  StronglySorted row_before rs.

(** The age rule: [now - t <= expire]; no rule when [expire] is null. *)
Definition within_age (now : Z) (expire : option Z) (row : Z * StoredValue) : bool :=
  match expire, timestamp_key (snd row) with
  | Some e, Some t => now - t <=? e
  | _, _ => true
  end.

(** The count rule: the [m] most recent rows; no rule when
    [maxNumberOfLogs] is null or not below Infinity. *)
Definition most_recent (m : option JsNumber) (rs : list (Z * StoredValue))
  : list (Z * StoredValue) :=
  match m with
  | Some (Int z) => skipn (length rs - Z.to_nat z) rs
  | Some NegInfinity => []
  | Some Infinity | Some NaN | None => rs
  end.

Definition key_in (ks : list Z) (row : Z * StoredValue) : bool :=
  existsb (Z.eqb (fst row)) ks.

Definition keys_unique (rs : list (Z * StoredValue)) : Prop :=
  forall k v v', In (k, v) rs -> In (k, v') rs -> v = v'.

(** The rows below the bound of the first cursor. *)
Definition expired (oldest : Z) (row : Z * StoredValue) : bool :=
  match timestamp_key (snd row) with
  | Some t => t <? oldest
  | None => false
  end.

(** The rows the second cursor keeps: the first [keep] it is shown. *)
Definition keep (m : JsNumber) (n : Z) : nat :=
  match m with
  | Int z => Z.to_nat (z - n)
  | _ => 0%nat
  end.

(** The scenario of the specification: five records in a store limited
    to three, no expiry. *)
Definition record (t : Z) (text : string) : StoredValue :=
  Plain {| timestamp := t; arguments := []; namespaces := []; level := INFO;
           contextId := None; message := text |}.

Definition five_rows : ObjectStore :=
  {| rows := [ (1, record 10 "R1"); (2, record 20 "R2"); (3, record 30 "R3");
               (4, record 40 "R4"); (5, record 50 "R5") ];
     key_generator := 6 |}.

Definition limited (e : option Z) (m : option JsNumber) : IndexedDBBackend :=
  {| toFlush := [];
     indexedDB := Some five_rows;
     options := {| expire := e; flushTimer := 1; minimumRecordsToCompress := 1000;
                   maxNumberOfLogs := m |} |}.

End EvictionSpec.

(** ** Batches handed to the consumer of [exportBatch] *)

Module ExportBatchSpec.
Import Js BaseBackend IndexedDB Runtime IndexedDBBackend Run.

(** A store that holds the records [rs] as plain rows. *)
Definition holds_plain (s : ObjectStore) (rs : list StoredDetails) : Prop :=
  values s = List.map Plain rs.

(** The smallest integer not below [m / k]. *)
Definition ceiling_div (m k : Z) : Z := (m + k - 1) / k.

Section WithStreams.
Context {streams : Streams}.

(** The number of consumer calls the specification announces for a store:
    the ceiling of M / k, for M records after expansion. *)
Definition dispatches_ceiling (entriesAtOnce : Z) (s : ObjectStore) : Prop :=
  Z.of_nat (length (remainingPromises (exportBatch_run entriesAtOnce (cursor_events s))))
  = ceiling_div (Z.of_nat (length (expand (values s)))) entriesAtOnce.

End WithStreams.

Definition entry (t : Z) (text : string) : StoredDetails :=
  {| timestamp := t; arguments := []; namespaces := []; level := INFO;
     contextId := None; message := text |}.

(** Two plain rows. *)
Definition two_rows : ObjectStore :=
  add (Plain (entry 2 "b")) (add (Plain (entry 1 "a")) createObjectStore).

End ExportBatchSpec.

(** ** Intersections of arrays *)

Module UtilitiesSpec.

Section Arrays.
Context {A : Type} `{EqDecision A}.

(** The elements of a list without their repetitions, each at the place
    of its first occurrence. *)
Fixpoint first_occurrences (l : list A) : list A :=
  match l with
  | [] => []
  | x :: l' => x :: List.filter (fun y => negb (bool_decide (y = x))) (first_occurrences l')
  end.

(** [x] occurs in each of the arrays. *)
Definition in_all (arrays : list (list A)) (x : A) : bool :=
  forallb (fun array => bool_decide (x ∈ array)) arrays.

End Arrays.

End UtilitiesSpec.

(** ** The keys of the object store *)

Module StoreSpec.
Import Js BaseBackend IndexedDB IndexedDBBackend EvictionSpec.

(** The rows of a store are in ascending order of their primary keys, and
    the key generator is above each of them: what [createObjectStore] with
    [autoIncrement] and [add] without a key give. *)
Definition keys_in_order (s : ObjectStore) : Prop :=
  StronglySorted Z.lt (List.map fst (rows s)) /\
  Forall (fun k => k < key_generator s) (List.map fst (rows s)).

(** A store whose timestamps do not follow the order of insertion: the
    second row was logged before the first one was. *)
Definition skewed_rows : ObjectStore :=
  {| rows := [ (1, record 50 "first"); (2, record 10 "late"); (4, record 55 "last") ];
     key_generator := 5 |}.

Definition skewed (e : option Z) (m : option JsNumber) : IndexedDBBackend :=
  {| toFlush := [];
     indexedDB := Some skewed_rows;
     options := {| expire := e; flushTimer := 1; minimumRecordsToCompress := 1000;
                   maxNumberOfLogs := m |} |}.

End StoreSpec.

(** ** The order of the records *)

Module OrderSpec.
Import Js BaseBackend IndexedDB Runtime IndexedDBBackend Run.

(** The message of a [log] call that returns; [None] for a call that
    raises and for any other event. *)
Definition logged_message (e : Event) : option string :=
  match e with
  | Log message details =>
      match log message details (constructor default_options) with
      | Normal _ => Some message
      | Throw _ => None
      end
  | _ => None
  end.

(** The messages a run logs, in the order of the calls. *)
Definition logged (events : list Event) : list string := omap logged_message events.

Definition is_log (e : Event) : bool :=
  match e with Log _ _ => true | _ => false end.

(** No transaction fails or is aborted, no eviction pass runs, and the
    transaction that completes is the oldest one open: readwrite
    transactions over one store run in the order they were created. *)
Definition in_order (e : Event) : bool :=
  match e with
  | Log _ _ | Flush _ => true
  | Complete i => Nat.eqb i 0
  | _ => false
  end.




(** Nothing of the open request has been handled, nothing is under way. *)
Record waiting {streams : Streams} (s : System) : Prop := {
  wt_request : request s = Requested;
  wt_database : indexedDB (backend s) = None;
  wt_open : open s = [];
  wt_suspended : suspended s = [];
}.

(** Three records logged before the open request is answered, with
    flushes and an eviction pass in between. *)
Definition early_logs : list Event :=
  [ Log "a" (RunSpec.details_at 1 []); Flush ∅; Log "b" (RunSpec.details_at 2 [JsNum (Int 7)]);
    ClearOldData 3; Complete 0; Log "c" (RunSpec.details_at 4 []) ].

End OrderSpec.

(** ** Reading the store with a cursor *)

Module CursorSpec.
Import Js JSON BaseBackend IndexedDB Runtime IndexedDBBackend Run RunSpec CompressionSpec.
Import ExportBatchSpec.

Section WithStreams.
Context {streams : Streams}.

(** The records of the buffers whose decompression has not settled. *)
Definition pending (st : BatchExport) : list StoredDetails :=
  expand (List.map (fun d => RawBuffer (snd d)) (decompressing st)).

(** What holds of the closure of [exportBatch] while the cursor has rows
    left: no [Promise.all] yet, the records of the rows [shown] are in the
    calls made, in the buffer or in a decompression that has not settled,
    each call made took at least [k] records and the buffer has fewer. *)
Record reading (k : Z) (st : BatchExport) (shown : list StoredValue) : Prop := {
  rd_empty : empty st = false;
  rd_awaited : awaited st = [];
  rd_rejected : rejected st = false;
  rd_records :
    (List.concat (remainingPromises st) ++ buffered st ++ pending st)%list ≡ₚ expand shown;
  rd_calls : Forall (fun call => k <= Z.of_nat (length call)) (remainingPromises st);
  rd_buffered : Z.of_nat (length (buffered st)) < k;
  rd_issued : Forall (fun d => (fst d < issued st)%nat) (decompressing st);
  rd_distinct : NoDup (List.map fst (decompressing st));
  rd_readable : Forall (fun d => readable (RawBuffer (snd d))) (decompressing st);
}.

End WithStreams.

(** What the success events of the cursor request showed, in their order. *)
Definition cursors (events : list BatchEvent) : list (option StoredValue) :=
  omap (fun e => match e with CursorSuccess cursor => Some cursor | _ => None end) events.

Definition is_cursor_error (e : BatchEvent) : bool :=
  match e with CursorError => true | _ => false end.

(** A store with a compressed batch of two records and a plain row, for a
    runtime whose deflate stream stores the bytes as they are. *)
Definition batch_of_two : ArrayBuffer :=
  TextEncoder_encode
    (JSON.print (JSON.JArray [details_json (entry 1 "a"); details_json (entry 2 "b")])).

Definition mixed : ObjectStore :=
  add (Plain (entry 3 "c")) (add (Compressed 5 batch_of_two) createObjectStore).

(** The decompression settles before the cursor shows the second row. *)
Definition mixed_events : list BatchEvent :=
  [ CursorSuccess (Some (Compressed 5 batch_of_two)); Decompressed 0;
    CursorSuccess (Some (Plain (entry 3 "c"))) ].

End CursorSpec.

(** ** Runs of the stream backend *)

Module FileRunSpec.
Import BaseBackend FileBackend FileRun.

(** The messages of the [log] calls of a run, in call order. *)
Definition logged_messages (events : list Event) : list string :=
  omap (fun e => match e with Log message _ => Some message | _ => None end) events.

(** What holds of a backend made by the constructor, at any moment.
    [groups] are the arrays of messages handed to [write] on the ready
    stream, one per chunk. *)
Record consistent (b : FileBackend) (groups : list (list string)) : Prop := {
  cs_chunks : chunks b = List.map join_lines groups;
  cs_stream : is_Some (stream b);
  cs_waiting : ready b = true -> waiting b = [];
  cs_listeners : forall s, stream b = Some s ->
                           Forall (fun messages => messages <> []) (drain_listeners s) /\
                           (ready b = false -> drain_listeners s = []);
}.

(** The stream accepts every chunk it will be handed, and has refused
    none that is still to be written again. *)
Definition never_refuses (b : FileBackend) : Prop :=
  forall s, stream b = Some s -> forallb id (accepts s) = true /\ drain_listeners s = [].

Definition log_all (messages : list string) : list Event :=
  List.map (fun message => Log message FileBackendSpec.details) messages.

End FileRunSpec.

(** ** The specifiers of a message *)

Module PrintfSpec.
Import Js Host Utilities.

(** The message holds no "%". *)
Fixpoint no_percent (s : string) : bool :=
  match s with
  | EmptyString => true
  | String c rest => negb (Ascii.eqb c "%") && no_percent rest
  end.

(** The specifier of a flag: "%" and the flag. *)
Definition specifier (flag : ascii) : string := String "%" (String flag EmptyString).

(** The specifier of a flag after a "%". *)
Definition escaped_specifier (flag : ascii) : string := String "%" (specifier flag).

Definition is_specifier (p : Piece) : bool :=
  match p with Specifier _ _ => true | Literal _ => false end.

Definition is_unescaped (p : Piece) : bool :=
  match p with Specifier escaped _ => negb escaped | Literal _ => true end.

(** The number of matches of a message. *)
Definition specifiers (message : string) : nat :=
  length (List.filter is_specifier (matches message)).

(** No match of the message has a "%" before its specifier. *)
Definition unescaped (message : string) : bool := forallb is_unescaped (matches message).

End PrintfSpec.

(** ** The console methods *)

Module FacadeSpec.
Import Js BaseBackend IndexedDB Host Utilities Facade.

(** No option is set. *)
Definition plain : LumberjackOptions :=
  {| Options.timestamp := false; Options.trace := false; Options.applicationName := None |}.

(** A character of one byte that is not white space. *)
Definition visible (c : ascii) : bool := (nat_of_ascii c <? 128)%nat && negb (is_space c).

(** A facade over an [IndexedDBBackend]. *)
Abbreviation Logger := (World (Backend := IndexedDBBackend.IndexedDBBackend)).

(** The record that [IndexedDBBackend.log] queues for a message sent by
    the facade of [w]. *)
Definition record_of (w : Logger) (text : string) (level : VerbosityLevel) (sent : Date)
    (arguments : list JsValue) : QueuedDetails :=
  {| timestamp := getTime sent;
     arguments := arguments;
     namespaces := Lumberjack.namespaces (lumberjack (facade w));
     level := level;
     contextId := None;
     message := text |}.

(** [w] with one more record in the queue of its backend. *)
Definition queued (r : QueuedDetails) (w : Logger) : Logger :=
  set_backend
    (IndexedDBBackend.set_toFlush (IndexedDBBackend.toFlush (backend w) ++ [r])%list (backend w))
    w.

(** What the parameters add to a message without specifiers. *)
Definition added (params : list string) : string :=
  match params with
  | [] => EmptyString
  | _ => unescape (" " +:+ String.concat " " params)
  end.

(** What the parameters add to a message that is not a string. *)
Fixpoint spaced (params : list string) : string :=
  match params with
  | [] => EmptyString
  | param :: rest => " " +:+ param +:+ spaced rest
  end.

(** Groups opened one after the other, each collapsed or not, and groups
    closed. *)
Section Groups.
Context {Backend : Type}.

Definition open_group (w : World (Backend := Backend)) (g : bool * option string)
  : World (Backend := Backend) :=
  fst (if fst g then groupCollapsed (snd g) w else group (snd g) w).

Definition open_groups (groups : list (bool * option string)) (w : World (Backend := Backend))
  : World (Backend := Backend) :=
  fold_left open_group groups w.

Definition close_groups (n : nat) (w : World (Backend := Backend)) : World (Backend := Backend) :=
  Nat.iter n (fun w => fst (groupEnd w)) w.

(** The array of namespaces of the facade. *)
Definition namespaces_of (w : World (Backend := Backend)) : list string :=
  deref (heap w) (Lumberjack.namespaces (lumberjack (facade w))).

End Groups.

(** A facade that has just been made, over a backend with the default
    options, and a moment of the clock. *)
Definition fresh (options : LumberjackOptions) : Logger :=
  constructor (IndexedDBBackend.constructor IndexedDBBackend.default_options) options 0%nat ∅.

Definition noon (stack : option string) : Moment :=
  {| iso := "2024-01-01T12:00:00.000Z"; stack := stack; now := {| getTime := 1704110400000 |} |}.

(** The number of lines of a stack. *)
Definition lines (stack : string) : nat := length (split_lines stack).

End FacadeSpec.

(** ** Facades injected one after the other *)

Module InjectionSpec.
Import Injection.

(** A runtime in which no facade has been made. *)
Definition untouched : Globals := {| console := Native; facades := [] |}.

(** [n] facades, each made and injected before the next one is made. *)
Fixpoint installed (n : nat) : Globals :=
  match n with
  | O => untouched
  | S n => inject n (constructor (installed n))
  end.

(** The facades of [order] reverted, the first of the list first. *)
Definition reverted (order : list nat) (g : Globals) : Globals :=
  fold_left (fun g this => revert this g) order g.

End InjectionSpec.

(* ===================================================================== *)
(** * Properties *)
(* ===================================================================== *)

(** ** [JSON.parse] inverts [JSON.stringify] *)

Module JSONRoundTrip.
Import Js JSON JSONReading.

Lemma parse_escape_char c rest :
  parse_string_body (escape_char c rest) = prepend c (parse_string_body rest).
Proof.
  destruct c as [[] [] [] [] [] [] [] []]; reflexivity.
Qed.

Lemma parse_escape s k :
  parse_string_body (escape s (String dquote k)) = Some (s, k).
Proof.
  induction s as [|c s IH]; simpl.
  - reflexivity.
  - rewrite parse_escape_char, IH. reflexivity.
Qed.

Lemma span_number_follow k : follow_ok k -> span_number k = (EmptyString, k).
Proof. destruct k as [|c k]; simpl; [reflexivity|]. intros ->. reflexivity. Qed.

Lemma span_uint d k :
  follow_ok k ->
  span_number (NilEmpty.string_of_uint d +:+ k) = (NilEmpty.string_of_uint d, k).
Proof.
  intros Hk. induction d; simpl; try (rewrite IHd; reflexivity).
  apply span_number_follow, Hk.
Qed.

Lemma string_of_uint_nonnil d :
  d <> Decimal.Nil -> NilZero.string_of_uint d = NilEmpty.string_of_uint d.
Proof. destruct d; intros H; try reflexivity. congruence. Qed.

Lemma to_int_nonnil z :
  Z.to_int z <> Decimal.Pos Decimal.Nil /\ Z.to_int z <> Decimal.Neg Decimal.Nil.
Proof.
  destruct z; simpl; split; try discriminate;
    intros H; injection H; apply Unsigned.to_uint_nonnil.
Qed.

Lemma span_string_of_Z z k :
  follow_ok k -> span_number (string_of_Z z +:+ k) = (string_of_Z z, k).
Proof.
  intros Hk. unfold string_of_Z. destruct z as [|p|p]; simpl.
  - rewrite span_number_follow by exact Hk. reflexivity.
  - rewrite string_of_uint_nonnil by apply Unsigned.to_uint_nonnil.
    apply span_uint, Hk.
  - rewrite string_of_uint_nonnil by apply Unsigned.to_uint_nonnil.
    rewrite span_uint by exact Hk. reflexivity.
Qed.

Lemma parse_number_print z k :
  follow_ok k -> parse_number (string_of_Z z +:+ k) = Some (JNumber z, k).
Proof.
  intros Hk. unfold parse_number. rewrite span_string_of_Z by exact Hk. simpl.
  unfold string_of_Z. destruct (to_int_nonnil z) as [H1 H2].
  rewrite NilZero.isi by assumption. rewrite DecimalZ.of_to. reflexivity.
Qed.

Lemma Json_nested_ind (P : Json -> Prop) :
  P JNull -> (forall b, P (JBool b)) -> (forall z, P (JNumber z)) ->
  (forall s, P (JString s)) ->
  (forall items, Forall P items -> P (JArray items)) ->
  (forall members, Forall (fun m => P (snd m)) members -> P (JObject members)) ->
  forall j, P j.
Proof.
  intros HN HB HZ HS HA HO. fix IH 1. intros [ | b | z | s | items | members ].
  - exact HN.
  - apply HB.
  - apply HZ.
  - apply HS.
  - apply HA. induction items as [|e es IHes]; constructor; [apply IH | exact IHes].
  - apply HO. induction members as [|m ms IHms]; constructor; [apply IH | exact IHms].
Qed.

Lemma print_k_array e es k :
  print_k (JArray (e :: es)) k = String "[" (print_k e (more_items k es)).
Proof. reflexivity. Qed.

Lemma print_k_object n e es k :
  print_k (JObject ((n, e) :: es)) k =
  String "{" (quote_k n (String ":" (print_k e (more_members k es)))).
Proof. reflexivity. Qed.

Lemma string_of_Z_nonempty z :
  exists c s, string_of_Z z = String c s /\ is_number_char c = true.
Proof.
  unfold string_of_Z. destruct z as [|p|p]; simpl.
  - eexists _, _. split; reflexivity.
  - rewrite string_of_uint_nonnil by apply Unsigned.to_uint_nonnil.
    pose proof (Unsigned.to_uint_nonnil p) as Hp.
    destruct (Pos.to_uint p); try congruence; simpl; eexists _, _; split; reflexivity.
  - eexists _, _. split; reflexivity.
Qed.

Lemma string_of_Z_head z k :
  exists c r, string_of_Z z +:+ k = String c r /\ is_number_char c = true.
Proof.
  destruct (string_of_Z_nonempty z) as (c & s & -> & Hc).
  exists c, (s +:+ k). split; [reflexivity | exact Hc].
Qed.

Lemma parse_value_number fuel c r :
  is_number_char c = true ->
  parse_value (S fuel) (String c r) = parse_number (String c r).
Proof.
  destruct c as [[] [] [] [] [] [] [] []]; try discriminate; reflexivity.
Qed.

Lemma is_number_char_closers c :
  is_number_char c = true -> Ascii.eqb c "]" = false /\ Ascii.eqb c "}" = false.
Proof.
  destruct c as [[] [] [] [] [] [] [] []]; try discriminate; split; reflexivity.
Qed.

(** A document never starts with a closing bracket. *)
Lemma print_k_head j k :
  exists c r, print_k j k = String c r /\ Ascii.eqb c "]" = false /\ Ascii.eqb c "}" = false.
Proof.
  destruct j as [ | [] | z | s | [|e es] | [|[n e] es] ]; simpl;
    try (eexists _, _; split; [reflexivity | split; reflexivity]).
  destruct (string_of_Z_head z k) as (c & r & -> & Hc).
  exists c, r. split; [reflexivity | apply is_number_char_closers, Hc].
Qed.

Lemma parse_elements_unfold fuel s :
  parse_elements (S fuel) s =
  match parse_value fuel s with
  | Some (v, String c r) =>
      if Ascii.eqb c "," then
        match parse_elements fuel r with
        | Some (vs, r') => Some (v :: vs, r')
        | None => None
        end
      else if Ascii.eqb c "]" then Some ([v], r)
      else None
  | _ => None
  end.
Proof. reflexivity. Qed.

Lemma follow_ok_more_items k es : follow_ok (more_items k es).
Proof. destruct es; reflexivity. Qed.

Lemma follow_ok_more_members k es : follow_ok (more_members k es).
Proof. destruct es as [|[n e] es]; reflexivity. Qed.

Lemma parse_elements_print es : forall e fuel k,
  Forall reads (e :: es) ->
  (fold_right (fun e n => S (need e + n)) 0 (e :: es) <= fuel)%nat ->
  parse_elements fuel (print_k e (more_items k es)) = Some (e :: es, k).
Proof.
  induction es as [|e' es IH]; intros e fuel k HF Hfuel;
    inversion HF as [|? ? He HF']; subst;
    (destruct fuel as [|fuel]; [simpl in Hfuel; lia|]);
    rewrite parse_elements_unfold; simpl in Hfuel.
  - rewrite He; [reflexivity | lia | reflexivity].
  - rewrite He; [| lia | reflexivity]. simpl.
    rewrite IH; [reflexivity | exact HF' | simpl; lia].
Qed.

Lemma parse_members_unfold fuel s :
  parse_members (S fuel) s =
  match s with
  | String q r =>
      if Ascii.eqb q dquote then
        match parse_string_body r with
        | Some (name, String colon r1) =>
            if Ascii.eqb colon ":" then
              match parse_value fuel r1 with
              | Some (v, String c r2) =>
                  if Ascii.eqb c "," then
                    match parse_members fuel r2 with
                    | Some (ms, r') => Some ((name, v) :: ms, r')
                    | None => None
                    end
                  else if Ascii.eqb c "}" then Some ([(name, v)], r2)
                  else None
              | _ => None
              end
            else None
        | _ => None
        end
      else None
  | EmptyString => None
  end.
Proof. reflexivity. Qed.

Lemma parse_members_print es : forall n e fuel k,
  Forall (fun m => reads (snd m)) ((n, e) :: es) ->
  (fold_right (fun m n => S (need (snd m) + n)) 0 ((n, e) :: es) <= fuel)%nat ->
  parse_members fuel (quote_k n (String ":" (print_k e (more_members k es))))
  = Some ((n, e) :: es, k).
Proof.
  induction es as [|[n' e'] es IH]; intros n e fuel k HF Hfuel;
    inversion HF as [|? ? He HF']; subst; simpl in He;
    (destruct fuel as [|fuel]; [simpl in Hfuel; lia|]);
    rewrite parse_members_unfold; simpl in Hfuel;
    unfold quote_k at 1; rewrite Ascii.eqb_refl, parse_escape, Ascii.eqb_refl.
  - rewrite He; [reflexivity | lia | reflexivity].
  - rewrite He; [| lia | reflexivity]. simpl.
    rewrite IH; [reflexivity | exact HF' | simpl; lia].
Qed.

Lemma parse_value_array fuel c r :
  Ascii.eqb c "]" = false ->
  parse_value (S fuel) (String "[" (String c r)) =
  match parse_elements fuel (String c r) with
  | Some (items, r'') => Some (JArray items, r'')
  | None => None
  end.
Proof. intros H. simpl. rewrite H. reflexivity. Qed.

Lemma parse_value_object fuel c r :
  Ascii.eqb c "}" = false ->
  parse_value (S fuel) (String "{" (String c r)) =
  match parse_members fuel (String c r) with
  | Some (members, r'') => Some (JObject members, r'')
  | None => None
  end.
Proof. intros H. simpl. rewrite H. reflexivity. Qed.

Lemma parse_value_print j : reads j.
Proof.
  induction j as [ | b | z | s | items IH | members IH ] using Json_nested_ind;
    intros fuel k Hfuel Hk; (destruct fuel as [|fuel]; [simpl in Hfuel; lia|]).
  - reflexivity.
  - destruct b; reflexivity.
  - cbn [print_k]. destruct (string_of_Z_head z k) as (c & r & E & Hc).
    rewrite E, parse_value_number by exact Hc. rewrite <- E.
    apply parse_number_print, Hk.
  - cbn [print_k]. unfold quote_k. simpl. rewrite parse_escape. reflexivity.
  - destruct items as [|e es]; [reflexivity|].
    rewrite print_k_array.
    destruct (print_k_head e (more_items k es)) as (c & r & E & Hc & _).
    rewrite E, parse_value_array by exact Hc. rewrite <- E.
    rewrite parse_elements_print; [reflexivity | exact IH | simpl in Hfuel; simpl; lia].
  - destruct members as [|[n e] es]; [reflexivity|].
    rewrite print_k_object.
    unfold quote_k at 1. rewrite parse_value_object by reflexivity.
    fold (quote_k n (String ":" (print_k e (more_members k es)))).
    rewrite parse_members_print; [reflexivity | exact IH | simpl in Hfuel; simpl; lia].
Qed.

Lemma length_append (a b : string) :
  String.length (a +:+ b) = (String.length a + String.length b)%nat.
Proof. induction a as [|c a IH]; simpl; [reflexivity | rewrite IH; reflexivity]. Qed.

Lemma length_escape_char c r :
  (S (String.length r) <= String.length (escape_char c r))%nat.
Proof. destruct c as [[] [] [] [] [] [] [] []]; simpl; lia. Qed.

Lemma length_escape s k : (String.length k <= String.length (escape s k))%nat.
Proof.
  induction s as [|c s IH]; simpl; [lia|].
  pose proof (length_escape_char c (escape s k)). lia.
Qed.

Lemma length_quote_k s k : (S (String.length k) <= String.length (quote_k s k))%nat.
Proof. unfold quote_k. simpl. pose proof (length_escape s (String dquote k)). simpl in *. lia. Qed.

Lemma length_print_k j : forall k,
  (need j + String.length k <= String.length (print_k j k))%nat.
Proof.
  induction j as [ | b | z | s | items IH | members IH ] using Json_nested_ind; intros k.
  - cbn [print_k need]. rewrite length_append. simpl. lia.
  - cbn [print_k need]. rewrite length_append. destruct b; simpl; lia.
  - cbn [print_k need]. destruct (string_of_Z_nonempty z) as (c & r & -> & _).
    rewrite length_append. simpl. lia.
  - cbn [print_k need]. pose proof (length_quote_k s k). lia.
  - destruct items as [|e es]; [simpl; lia|].
    rewrite print_k_array. cbn [need String.length].
    inversion IH as [|? ? He Hes]; subst.
    assert (H : (fold_right (fun e n => S (need e + n)) 0 es + S (String.length k)
                 <= String.length (more_items k es))%nat).
    { clear He IH. induction es as [|e' es IHes]; simpl; [lia|].
      inversion Hes as [|? ? He' Hes']; subst.
      specialize (IHes Hes'). specialize (He' (more_items k es)).
      fold (more_items k es). lia. }
    specialize (He (more_items k es)). simpl. lia.
  - destruct members as [|[n e] es]; [simpl; lia|].
    rewrite print_k_object. cbn [need String.length].
    inversion IH as [|? ? He Hes]; subst. simpl in He.
    assert (H : (fold_right (fun m n => S (need (snd m) + n)) 0 es + S (String.length k)
                 <= String.length (more_members k es))%nat).
    { clear He IH. induction es as [|[n' e'] es IHes]; simpl; [lia|].
      inversion Hes as [|? ? He' Hes']; subst. simpl in He'.
      specialize (IHes Hes'). specialize (He' (more_members k es)).
      fold (more_members k es).
      pose proof (length_quote_k n' (String ":" (print_k e' (more_members k es)))) as Hq.
      simpl in Hq. lia. }
    specialize (He (more_members k es)).
    pose proof (length_quote_k n (String ":" (print_k e (more_members k es)))) as Hq.
    simpl in *. lia.
Qed.

Lemma parse_document_print j : parse_document (print j) = Some j.
Proof.
  unfold parse_document, print.
  rewrite parse_value_print; [reflexivity | | exact I].
  pose proof (length_print_k j EmptyString). lia.
Qed.

Lemma parse_print j : JSON.parse (print j) = Normal (revive j).
Proof. unfold JSON.parse. rewrite parse_document_print. reflexivity. Qed.

End JSONRoundTrip.

(** ** [log] and [encode] *)

Module EncodeFacts.
Import Js JSON BaseBackend IndexedDB IndexedDBBackend Utilities EncodeSpec.

(** [encode] raises when [JSON.stringify] does, and when it reads the name
    of a constructor that is [null]. *)
Lemma encode_throws item e :
  encode item = Throw e <->
  typeof item = "object" /\
  (JSON.stringify item = Throw e \/
   JSON.stringify item = Normal (Some "{}") /\ Object_keys_length item <> 0%nat /\
   typeof (get_constructor item) = "object" /\ read_name (get_constructor item) = Throw e).
Proof.
  unfold encode. split.
  - destruct (ToBoolean item) eqn:Hb; simpl; [|discriminate].
    destruct (String.eqb (typeof item) "object") eqn:Ht.
    + apply String.eqb_eq in Ht. destruct (JSON.stringify item) as [encoded|e'] eqn:Hs; simpl.
      * destruct (bool_decide (encoded = Some "{}")
                  && negb (Object_keys_length item =? 0)%nat
                  && String.eqb (typeof (get_constructor item)) "object") eqn:Hc;
          [|discriminate].
        apply andb_prop in Hc as [Hc Hctor]. apply andb_prop in Hc as [Henc Hkeys].
        apply bool_decide_eq_true_1 in Henc. apply negb_true_iff, Nat.eqb_neq in Hkeys.
        apply String.eqb_eq in Hctor. subst encoded.
        destruct (read_name (get_constructor item)) as [name|e'] eqn:Hn; simpl.
        -- destruct (String.eqb (typeof name) "string"); discriminate.
        -- intros [= ->]. split; [exact Ht|]. right. auto.
      * intros [= ->]. split; [exact Ht|]. left. reflexivity.
    + destruct (toString item); discriminate.
  - intros [Ht H].
    assert (Hb : ToBoolean item = true).
    { destruct item as [ | | | | | | | | | | ]; try discriminate Ht; try reflexivity.
      destruct H as [Hs | (Hs & _)]; discriminate Hs. }
    rewrite Hb. simpl. rewrite Ht. simpl.
    destruct H as [Hs | (Hs & Hkeys & Hctor & Hn)].
    + rewrite Hs. reflexivity.
    + rewrite Hs. cbn [bind]. rewrite bool_decide_eq_true_2 by reflexivity.
      apply Nat.eqb_neq in Hkeys. rewrite Hkeys, Hctor. simpl. rewrite Hn. reflexivity.
Qed.

(** Apart from the objects for which it looks for the name of a
    constructor, [encode] raises when [JSON.stringify] does. *)
Lemma encode_throws_stringify item e :
  ~ empty_text_with_keys item ->
  encode item = Throw e <-> typeof item = "object" /\ JSON.stringify item = Throw e.
Proof.
  intros Hout. rewrite encode_throws. split.
  - intros [Ht [Hs | (Hs & Hkeys & _)]]; [auto|].
    exfalso. apply Hout. repeat split; assumption.
  - intros [Ht Hs]. auto.
Qed.

Lemma map_throwing_Forall2 {A B} (f : A -> Completion B) l ys :
  map_throwing f l = Normal ys <-> Forall2 (fun x y => f x = Normal y) l ys.
Proof.
  revert ys. induction l as [|x l IH]; intros ys; simpl.
  - split; [intros [= <-]; constructor | intros H; inversion H; reflexivity].
  - destruct (f x) as [y|e] eqn:Hx; simpl.
    + destruct (map_throwing f l) as [ys'|e] eqn:Hl; simpl.
      * split.
        -- intros [= <-]. constructor; [exact Hx | apply IH; reflexivity].
        -- intros H. inversion H as [|? y' ? ys'' Hy Hys]; subst.
           apply IH in Hys. congruence.
      * split; [discriminate|]. intros H. inversion H as [|? y' ? ys'' Hy Hys]; subst.
        apply IH in Hys. discriminate.
    + split; [discriminate|]. intros H. inversion H; subst. congruence.
Qed.

Lemma map_throwing_returns {A B} (f : A -> Completion B) l :
  (exists ys, map_throwing f l = Normal ys) <->
  (forall x e, In x l -> f x <> Throw e).
Proof.
  induction l as [|x l IH]; simpl.
  - split; [intros _ x e [] | intros _; eexists; reflexivity].
  - destruct (f x) as [y|e] eqn:Hx; simpl.
    + destruct (map_throwing f l) as [ys'|e] eqn:Hl; simpl.
      * split; [|intros _; eexists; reflexivity].
        intros _ x' e' [<-|Hin]; [congruence|].
        destruct IH as [IH _]. apply IH; [eexists; reflexivity | exact Hin].
      * split; [intros [ys [=]]|].
        intros H. destruct IH as [_ IH]. destruct IH as [ys Hys]; [|discriminate].
        intros x' e' Hin. apply H. right. exact Hin.
    + split; [intros [ys [=]]|]. intros H. exfalso. apply (H x e); [left; reflexivity | exact Hx].
Qed.

Lemma map_throwing_throws {A B} (f : A -> Completion B) l e :
  map_throwing f l = Throw e -> exists x, In x l /\ f x = Throw e.
Proof.
  induction l as [|x l IH]; simpl; [discriminate|].
  destruct (f x) as [y|e'] eqn:Hx; simpl.
  - destruct (map_throwing f l) as [ys|e'] eqn:Hl; simpl; [discriminate|].
    intros [= ->]. destruct (IH eq_refl) as (x' & Hin & Hx'). exists x'. auto.
  - intros [= ->]. exists x. auto.
Qed.

Lemma log_normal message details b b' :
  log message details b = Normal b' <->
  exists encoded,
    map_throwing encode (BaseBackend.arguments details) = Normal encoded /\
    b' = set_toFlush
           (toFlush b ++ [ {| timestamp := getTime (BaseBackend.timestamp details);
                              arguments := encoded;
                              namespaces := BaseBackend.namespaces details;
                              level := BaseBackend.level details;
                              contextId := BaseBackend.contextId details;
                              message := message |} ]) b.
Proof.
  unfold log. destruct (map_throwing encode _) as [encoded|e]; simpl.
  - split; [intros [= <-]; eexists; split; reflexivity|].
    intros (encoded' & [= <-] & ->). reflexivity.
  - split; [discriminate | intros (? & [=] & _)].
Qed.

Lemma toString_string_form item :
  ToBoolean item = true -> typeof item <> "object" ->
  toString item = Some (string_form item).
Proof.
  destruct item; simpl; intros Hb Ht; try reflexivity; try discriminate; congruence.
Qed.

Lemma encode_by_design item out :
  encode item = Normal out -> encoded_by_design item out.
Proof.
  unfold encode, encoded_by_design. intros H. repeat split.
  - intros Hb. rewrite Hb in H. simpl in H. congruence.
  - intros Hb Ht. rewrite Hb in H. simpl in H.
    destruct (String.eqb (typeof item) "object") eqn:E.
    + apply String.eqb_eq in E. contradiction.
    + rewrite toString_string_form in H by assumption. congruence.
  - intros Hb Ht text Hs Hcond. rewrite Hb in H. simpl in H.
    rewrite Ht in H. simpl in H. rewrite Hs in H. simpl in H.
    destruct Hcond as [Hne | Hkeys].
    + rewrite bool_decide_eq_false_2 in H by congruence. simpl in H. congruence.
    + rewrite Hkeys in H. rewrite andb_false_r in H. simpl in H. congruence.
Qed.

(** C6, as amended.  No argument is an object with own enumerable keys
    whose JSON text is the empty object literal.  Then [log] returns to
    its caller unless [JSON.stringify] raises on one of the arguments of
    type object (a circular object graph, a BigInt inside an object); when
    [log] raises, what it raises is what [JSON.stringify] raised on one of
    them, and no record is queued: [encode] does not catch it. *)
Theorem log_returns_unless_stringify_raises message details b :
  (forall item, In item (BaseBackend.arguments details) -> ~ empty_text_with_keys item) ->
  (returns message details b <->
   (forall item e, In item (BaseBackend.arguments details) ->
      typeof item = "object" -> JSON.stringify item <> Throw e)) /\
  (forall e,
     log message details b = Throw e ->
     exists item, In item (BaseBackend.arguments details) /\
                  typeof item = "object" /\ JSON.stringify item = Throw e).
Proof.
  intros Hout. unfold returns. split; [split|].
  - intros [b' Hb'] item e Hin Ht Hs.
    apply log_normal in Hb' as (encoded & Henc & _).
    assert (Hret : exists ys, map_throwing encode (BaseBackend.arguments details) = Normal ys)
      by (eexists; exact Henc).
    apply map_throwing_returns with (x := item) (e := e) in Hret; [|exact Hin].
    apply Hret. apply encode_throws_stringify; [apply Hout, Hin|]. split; assumption.
  - intros H.
    destruct (proj2 (map_throwing_returns encode (BaseBackend.arguments details))) as [ys Hys].
    + intros item e Hin He. apply encode_throws_stringify in He as [Ht Hs]; [|apply Hout, Hin].
      exact (H item e Hin Ht Hs).
    + eexists. apply log_normal. eexists. split; [exact Hys | reflexivity].
  - intros e He. unfold log in He.
    destruct (map_throwing encode (BaseBackend.arguments details)) as [ys|e'] eqn:Hm;
      [discriminate|].
    simpl in He. injection He as ->.
    apply map_throwing_throws in Hm as (item & Hin & Hitem).
    apply encode_throws_stringify in Hitem as [Ht Hs]; [|apply Hout, Hin].
    exists item. auto.
Qed.

(** A number and an object literal are logged. *)
Lemma log_returns_unless_stringify_raises_witness :
  returns "seven" (details_of [JsNum (Int 7); literal [("id", JsNum (Int 7))]])
    (constructor default_options).
Proof.
  assert (Hout : forall item,
             In item [JsNum (Int 7); literal [("id", JsNum (Int 7))]] ->
             ~ empty_text_with_keys item).
  { intros item [<- | [<- | []]] (Ht & Hs & _); discriminate. }
  apply (proj1 (log_returns_unless_stringify_raises "seven"
                  (details_of [JsNum (Int 7); literal [("id", JsNum (Int 7))]])
                  (constructor default_options) Hout)).
  intros item e [<- | [<- | []]] Ht; discriminate.
Defined.

(** C6, counterexample: an argument that refers to itself makes [log]
    raise the TypeError of [JSON.stringify]. *)
Lemma log_raises_on_circular_argument :
  log "state" (details_of [circular]) (constructor default_options)
    = Throw (TypeError "Converting circular structure to JSON")
  /\ ~ returns "state" (details_of [circular]) (constructor default_options).
Proof.
  split; [reflexivity|]. intros [b' H]. discriminate H.
Qed.

(** C7, as amended.  The record [log] appends carries the epoch
    milliseconds of [details.timestamp], and each argument encoded: a falsy
    value as the empty string, any other value that is not an object as its
    string form, an object as its JSON text (nothing is said here of an
    object with own keys whose JSON text is the empty object literal). *)
Theorem log_appends_encoded_record msg details b b' :
  log msg details b = Normal b' ->
  exists r,
    toFlush b' = (toFlush b ++ [r])%list /\
    timestamp r = getTime (BaseBackend.timestamp details) /\
    Forall2 encoded_by_design (BaseBackend.arguments details) (arguments r) /\
    message r = msg /\
    indexedDB b' = indexedDB b.
Proof.
  intros H. apply log_normal in H as (encoded & Henc & ->).
  eexists. split; [reflexivity|]. simpl. repeat split.
  apply map_throwing_Forall2 in Henc.
  induction Henc; constructor; [apply encode_by_design; assumption | assumption].
Qed.

Lemma log_appends_encoded_record_witness :
  exists r,
    toFlush (set_toFlush [ {| timestamp := 1700000000000; arguments := [JsString "7"];
                              namespaces := 0%nat; level := INFO; contextId := None;
                              message := "seven" |} ]
                         (constructor default_options))
      = (toFlush (constructor default_options) ++ [r])%list /\
    timestamp r = getTime (BaseBackend.timestamp (details_of [JsNum (Int 7)])) /\
    Forall2 encoded_by_design (BaseBackend.arguments (details_of [JsNum (Int 7)])) (arguments r) /\
    message r = "seven" /\
    indexedDB (set_toFlush [ {| timestamp := 1700000000000; arguments := [JsString "7"];
                              namespaces := 0%nat; level := INFO; contextId := None;
                              message := "seven" |} ]
                         (constructor default_options)) = indexedDB (constructor default_options).
Proof.
  apply (log_appends_encoded_record "seven" (details_of [JsNum (Int 7)])). reflexivity.
Defined.

(** C7, counterexample: the number 0 is queued as the empty string, not
    as its string form. *)
Lemma log_encodes_zero_as_empty_string :
  log "count" (details_of [JsNum (Int 0)]) (constructor default_options)
    = Normal (set_toFlush [ {| timestamp := 1700000000000; arguments := [JsString EmptyString];
                               namespaces := 0%nat; level := INFO; contextId := None;
                               message := "count" |} ] (constructor default_options))
  /\ specified_encoding (JsNum (Int 0)) = Normal (JsString "0")
  /\ ~ (forall b', log "count" (details_of [JsNum (Int 0)]) (constructor default_options) = Normal b' ->
        queues_as_specified "count" (details_of [JsNum (Int 0)]) (constructor default_options) b').
Proof.
  split; [reflexivity|]. split; [reflexivity|].
  intros H. specialize (H _ eq_refl). destruct H as (r & encoded & Hq & _ & Henc & Hargs).
  simpl in Hq. injection Hq as <-. simpl in Henc. injection Henc as <-. discriminate Hargs.
Qed.

(** [encode] on a few values.  An instance of a class whose only own
    property is a method: its JSON text is the empty object literal, its
    constructor is a function, and the text is what [encode] returns. *)
Example encode_nested_object :
  encode (literal [("id", JsNum (Int 7)); ("tags", JsArray [JsString "a"; JsUndefined])])
  = Normal (JsString (JSON.print
      (JSON.JObject [("id", JSON.JNumber 7);
                     ("tags", JSON.JArray [JSON.JString "a"; JSON.JNull])]))).
Proof. reflexivity. Qed.

Example encode_class_instance :
  encode (JsObject [("handler", JsFunction "handler" "handler() {}")]
                   (JsFunction "Widget" "class Widget {}"))
  = Normal (JsString "{}").
Proof. reflexivity. Qed.

Example encode_constructor_object :
  encode (JsObject [("handler", JsFunction "handler" "handler() {}")]
                   (literal [("name", JsString "Widget")]))
  = Normal (JsString "Widget").
Proof. reflexivity. Qed.

(** An object made with a prototype whose [constructor] is [null], and
    with a method of its own: [typeof null] is "object", and reading the
    name of [null] raises. *)
Example encode_null_constructor :
  encode (JsObject [("handler", JsFunction "handler" "handler() {}")] JsNull)
  = Throw (TypeError "Cannot read properties of null (reading 'name')").
Proof. reflexivity. Qed.

Example encode_falsy :
  List.map encode [JsUndefined; JsNull; JsBoolean false; JsNum (Int 0); JsNum NaN;
                   JsString EmptyString]
  = List.map (fun _ => Normal (JsString EmptyString)) (seq 0 6).
Proof. reflexivity. Qed.

End EncodeFacts.

(** ** Flushes without effect; the stream backend *)

Module FlushFacts.
Import Js JSON BaseBackend IndexedDB Runtime IndexedDBBackend.

Section WithStreams.
Context {streams : Streams}.


End WithStreams.


End FlushFacts.

Module FileBackendFacts.
Import BaseBackend FileBackend FileBackendSpec.

Lemma join_lines_single message : join_lines [message] = message.
Proof. reflexivity. Qed.

Lemma write_not_ready messages b :
  ready b = false ->
  write messages b = {| stream := stream b; ready := false; waiting := (waiting b ++ messages)%list |}.
Proof.
  intros Hr. unfold write. rewrite Hr. simpl.
  destruct messages as [|m ms]; simpl.
  - rewrite app_nil_r. destruct b; simpl in *; congruence.
  - reflexivity.
Qed.

(** A write on a ready backend hands its chunk to the stream, whatever the
    stream answers; a refusal registers the messages for the next drain. *)
Lemma write_ready messages b s :
  ready b = true -> stream b = Some s -> messages <> [] ->
  exists s',
    stream (write messages b) = Some s' /\
    written s' = (written s ++ [join_lines messages])%list /\
    accepts s' = tail (accepts s) /\
    drain_listeners s' =
      (drain_listeners s ++ if hd true (accepts s) then [] else [messages])%list /\
    ready (write messages b) = true /\
    waiting (write messages b) = waiting b.
Proof.
  intros Hr Hs Hm. unfold write. rewrite Hr, Hs. simpl.
  destruct messages as [|m ms]; [congruence|]. simpl length. simpl Nat.eqb. cbv iota.
  unfold stream_write. destruct (accepts s) as [|ok later]; simpl.
  - eexists. repeat split. simpl. rewrite app_nil_r. reflexivity.
  - destruct ok; simpl; eexists; repeat split. simpl. rewrite app_nil_r. reflexivity.
Qed.

Lemma chunks_written b s : stream b = Some s -> chunks b = written s.
Proof. unfold chunks. intros ->. reflexivity. Qed.

(** The listeners of a drain, run one after the other. *)
Lemma drain_writes listeners : forall b s,
  ready b = true -> stream b = Some s ->
  Forall (fun messages => messages <> []) listeners ->
  chunks (fold_left (fun b messages => write messages b) listeners b)
  = (written s ++ List.map join_lines listeners)%list.
Proof.
  induction listeners as [|ms ls IH]; intros b s Hr Hs Hne; simpl.
  - rewrite app_nil_r. apply chunks_written, Hs.
  - inversion Hne as [|? ? Hms Hls]; subst.
    destruct (write_ready ms b s Hr Hs Hms) as (s' & Hs' & Hw & _ & _ & Hr' & _).
    rewrite (IH _ s' Hr' Hs' Hls), Hw, <- app_assoc. reflexivity.
Qed.

(** C8, as amended.  Before the stream is ready a [log] call only queues its
    message.  The ready signal writes the queue as one chunk (none when the
    queue is empty) and empties it; from then on every [log] call hands its
    message to the stream at once, as a chunk of its own, also while the
    sink has refused a chunk and not drained yet.  A refused chunk has its
    messages registered for the next drain signal, which writes them again. *)
Theorem stream_backend_queues_then_writes_through :
  (forall b message details,
     ready b = false ->
     log message details b
     = {| stream := stream b; ready := false; waiting := (waiting b ++ [message])%list |}) /\
  (forall b s,
     ready b = false -> stream b = Some s ->
     ready (on_ready b) = true /\
     waiting (on_ready b) = [] /\
     chunks (on_ready b)
     = (written s ++ match waiting b with [] => [] | _ => [join_lines (waiting b)] end)%list) /\
  (forall b s message details,
     ready b = true -> stream b = Some s ->
     chunks (log message details b) = (written s ++ [message])%list /\
     waiting (log message details b) = waiting b /\
     exists s',
       stream (log message details b) = Some s' /\
       drain_listeners s' =
         (drain_listeners s ++ if hd true (accepts s) then [] else [[message]])%list) /\
  (forall b s,
     ready b = true -> stream b = Some s ->
     Forall (fun messages => messages <> []) (drain_listeners s) ->
     chunks (on_drain b) = (written s ++ List.map join_lines (drain_listeners s))%list).
Proof.
  split; [|split; [|split]].
  - intros b message details Hr. unfold log. apply write_not_ready, Hr.
  - intros b s Hr Hs. unfold on_ready. simpl.
    destruct (waiting b) as [|m ms] eqn:Hw.
    + simpl. unfold chunks. simpl. rewrite Hs, app_nil_r. auto.
    + destruct (write_ready (m :: ms)
                  {| stream := stream b; ready := true; waiting := m :: ms |} s)
        as (s' & Hs' & Hwr & _ & _ & Hr' & _); simpl; auto; try congruence.
      unfold chunks. simpl. rewrite Hs', Hr'. auto.
  - intros b s message details Hr Hs. unfold log.
    destruct (write_ready [message] b s) as (s' & Hs' & Hw & _ & Hl & _ & Hwt);
      auto; try discriminate.
    rewrite (chunks_written _ _ Hs'). split; [exact Hw|]. split; [exact Hwt|].
    exists s'. split; assumption.
  - intros b s Hr Hs Hne. unfold on_drain. rewrite Hs.
    rewrite (drain_writes (drain_listeners s) _
               {| written := written s; accepts := accepts s; drain_listeners := [] |});
      auto.
Qed.

Lemma stream_backend_queues_then_writes_through_witness :
  chunks (log "second" details (log "first" details refusing)) = ["first"; "second"] /\
  chunks (on_drain (log "first" details refusing)) = ["first"; "first"].
Proof.
  destruct stream_backend_queues_then_writes_through as (_ & _ & Hlog & Hdrain).
  split.
  - destruct (Hlog (log "first" details refusing)
                   {| written := ["first"]; accepts := []; drain_listeners := [["first"]] |}
                   "second" details eq_refl eq_refl) as (-> & _).
    reflexivity.
  - rewrite (Hdrain (log "first" details refusing)
                    {| written := ["first"]; accepts := []; drain_listeners := [["first"]] |}
                    eq_refl eq_refl).
    + reflexivity.
    + repeat constructor. discriminate.
Defined.

(** C8, counterexample: the sink has refused the chunk of the first call and
    has not drained; the second call is handed to the stream all the same. *)
Lemma log_writes_under_backpressure :
  ready (log "first" details refusing) = true /\
  backpressured (log "first" details refusing) = true /\
  chunks (log "first" details refusing) = ["first"] /\
  chunks (log "second" details (log "first" details refusing)) = ["first"; "second"] /\
  ~ accumulates_under_backpressure (log "first" details refusing).
Proof.
  repeat split. intros H. specialize (H "second" details eq_refl eq_refl). discriminate H.
Qed.

End FileBackendFacts.

(** ** Namespaces *)

Module NamespacesFacts.
Import Js JSON BaseBackend IndexedDB Runtime IndexedDBBackend NamespacesSpec.

(** C9, the code at the failing input.  The record is logged inside the
    group "checkout"; the group is closed before the flush; the record
    reaches the store with no namespace. *)
Theorem namespaces_are_read_at_flush :
  deref heap_at_log (Lumberjack.namespaces facade) = ["checkout"] /\
  written_by_flush (streams := stored_streams false) heap_at_flush 1700000005000 after_log
  = [ Plain {| timestamp := 1700000000000; arguments := [JsString "paid"];
               namespaces := []; level := NOTICE; contextId := None;
               message := "paid" |} ] /\
  written_by_flush (streams := stored_streams false) heap_at_log 1700000005000 after_log
  = [ Plain {| timestamp := 1700000000000; arguments := [JsString "paid"];
               namespaces := ["checkout"]; level := NOTICE; contextId := None;
               message := "paid" |} ].
Proof. repeat split; vm_compute; reflexivity. Qed.

(** In general the namespaces that reach the store are the content of the
    array when the flush is called. *)
Lemma structuredClone_namespaces heap (r : QueuedDetails) :
  namespaces (structuredClone heap r) = deref heap (namespaces r).
Proof. reflexivity. Qed.

End NamespacesFacts.

(** ** Compression round trip *)

Module CompressionFacts.
Import Js JSON BaseBackend IndexedDB Runtime IndexedDBBackend JSONRoundTrip CompressionSpec.

Lemma serialize_array_cons v vs j items :
  SerializeJSONProperty v = Normal (Some j) ->
  SerializeJSONProperty (JsArray vs) = Normal (Some (JArray items)) ->
  SerializeJSONProperty (JsArray (v :: vs)) = Normal (Some (JArray (j :: items))).
Proof.
  intros Hv Hvs. simpl in *. rewrite Hv. cbn [bind].
  match type of Hvs with
  | bind ?c _ = _ => destruct c as [items'|e]; simpl in *; [|discriminate]
  end.
  injection Hvs as ->. reflexivity.
Qed.

Lemma serialize_object_cons k v props ctor j members :
  SerializeJSONProperty v = Normal (Some j) ->
  SerializeJSONProperty (JsObject props ctor) = Normal (Some (JObject members)) ->
  SerializeJSONProperty (JsObject ((k, v) :: props) ctor)
  = Normal (Some (JObject ((k, j) :: members))).
Proof.
  intros Hv Hvs. simpl in *. rewrite Hv. cbn [bind].
  match type of Hvs with
  | bind ?c _ = _ => destruct c as [items'|e]; simpl in *; [|discriminate]
  end.
  injection Hvs as ->. reflexivity.
Qed.

Lemma serialize_strings (l : list string) :
  SerializeJSONProperty (JsArray (List.map JsString l))
  = Normal (Some (JArray (List.map JString l))).
Proof.
  induction l as [|s l IH]; [reflexivity|].
  apply serialize_array_cons; [reflexivity | exact IH].
Qed.

Lemma serialize_arguments (args : list JsValue) :
  Forall (fun v => exists s, v = JsString s) args ->
  SerializeJSONProperty (JsArray args)
  = Normal (Some (JArray (List.map argument_json args))).
Proof.
  induction 1 as [|v args [s ->] _ IH]; [reflexivity|].
  apply serialize_array_cons; [reflexivity | exact IH].
Qed.

Lemma serialize_details (r : StoredDetails) :
  encoded_arguments r ->
  SerializeJSONProperty (details_to_js r) = Normal (Some (details_json r)).
Proof.
  intros Henc. unfold details_to_js, details_json, literal.
  pose proof (serialize_arguments _ Henc) as Ha.
  pose proof (serialize_strings (namespaces r)) as Hn.
  destruct (contextId r); cbn [app];
    repeat (apply serialize_object_cons; [first [exact Ha | exact Hn | reflexivity] |]);
    reflexivity.
Qed.

Lemma serialize_batch (rs : list StoredDetails) :
  Forall encoded_arguments rs ->
  SerializeJSONProperty (JsArray (List.map details_to_js rs))
  = Normal (Some (JArray (List.map details_json rs))).
Proof.
  induction 1 as [|r rs Hr _ IH]; [reflexivity|].
  apply serialize_array_cons; [apply serialize_details, Hr | exact IH].
Qed.

Lemma all_some_map {A B} (f : A -> option B) (g : B -> A) (l : list B) :
  (forall x, In x l -> f (g x) = Some x) ->
  all_some f (List.map g l) = Some l.
Proof.
  induction l as [|x l IH]; intros H; simpl; [reflexivity|].
  rewrite H by (left; reflexivity). rewrite IH; [reflexivity|].
  intros y Hy. apply H. right. exact Hy.
Qed.

Lemma level_of_name_level_name l : level_of_name (level_name l) = Some l.
Proof. destruct l; reflexivity. Qed.

Lemma revive_arguments (args : list JsValue) :
  Forall (fun v => exists s, v = JsString s) args ->
  List.map revive (List.map argument_json args) = args.
Proof.
  induction 1 as [|v args [s ->] _ IH]; simpl; [reflexivity|]. rewrite IH. reflexivity.
Qed.

(** Reading back the document of a record gives the record. *)
Lemma details_of_js_revive (r : StoredDetails) :
  encoded_arguments r ->
  details_of_js (revive (details_json r)) = Some r.
Proof.
  intros Henc. destruct r as [t args ns lvl ctx msg]. unfold encoded_arguments in Henc.
  simpl in Henc. unfold details_json. cbn [timestamp arguments namespaces level contextId message].
  destruct ctx as [c|]; cbn [app revive List.map fst snd literal details_of_js field assoc
                               String.eqb Ascii.eqb Bool.eqb as_integer as_array as_strings
                               as_level as_string];
    rewrite (revive_arguments _ Henc), List.map_map, level_of_name_level_name;
    cbn [revive]; rewrite (all_some_map as_string JsString) by reflexivity;
    reflexivity.
Qed.

Lemma as_details_array_revive (rs : list StoredDetails) :
  Forall encoded_arguments rs ->
  as_details_array (revive (JArray (List.map details_json rs))) = Some rs.
Proof.
  intros H. cbn [revive as_details_array]. rewrite List.map_map.
  apply all_some_map. intros r Hr. apply details_of_js_revive.
  rewrite Forall_forall in H. apply H. apply list_elem_of_In. exact Hr.
Qed.

Section WithStreams.
Context {streams : Streams}.

Lemma encoded_structuredClone heap (r : QueuedDetails) :
  encoded_arguments r -> encoded_arguments (structuredClone heap r).
Proof. intros H. exact H. Qed.

(** [JSON.stringify] of a batch of logged records succeeds, and
    [decompress] reads the compressed text back as the batch. *)
Lemma decompress_deflate heap (data : list QueuedDetails) :
  Forall encoded_arguments data ->
  exists text,
    stringify_batch heap data = Normal (Some text) /\
    decompress (deflate (TextEncoder_encode text))
    = Normal (List.map (structuredClone heap) data).
Proof.
  intros Henc.
  assert (Hclones : Forall encoded_arguments (List.map (structuredClone heap) data)).
  { induction Henc; constructor; assumption. }
  exists (print (JArray (List.map details_json (List.map (structuredClone heap) data)))).
  split.
  - unfold stringify_batch, stringify.
    rewrite <- (List.map_map (structuredClone heap) details_to_js).
    rewrite (serialize_batch _ Hclones). reflexivity.
  - unfold decompress. rewrite inflate_deflate.
    unfold TextDecoder_decode, TextEncoder_encode.
    rewrite string_of_list_byte_of_string, parse_print. cbn [bind].
    rewrite (as_details_array_revive _ Hclones). reflexivity.
Qed.

Lemma same_fields_clone heap (data : list QueuedDetails) :
  Forall2 (same_fields heap) data (List.map (structuredClone heap) data).
Proof.
  induction data as [|r data IH]; constructor; [|exact IH].
  repeat split; reflexivity.
Qed.

(** C3.  A flush of a queue that has reached the threshold, on a runtime
    with [CompressionStream], takes the whole queue and is suspended at
    its compression; when it goes on it hands the store one entry
    [{ timestamp, buffer }], and [decompress] reads that buffer back as
    the batch: as many records, in the order of the queue, each with the
    timestamp, the arguments, the level, the context and the message of
    the record queued, and with the namespaces the array held when the
    flush was called.  The records are those queued by [log], whose
    arguments are strings. *)
Theorem compressed_batch_round_trip heap b objectStore :
  indexedDB b = Some objectStore ->
  toFlush b <> [] ->
  Forall encoded_arguments (toFlush b) ->
  CompressionStream_defined = true ->
  minimumRecordsToCompress (options b) <= Z.of_nat (length (toFlush b)) ->
  exists buffer records,
    flushToDatabase heap b = Suspended (toFlush b) buffer (set_toFlush [] b) /\
    (forall now,
       flushToDatabase_resume now (toFlush b) buffer (set_toFlush [] b)
       = InFlight {| batch := toFlush b; requests := [Compressed now buffer] |}
           (set_toFlush [] b)) /\
    decompress buffer = Normal records /\
    Forall2 (fun (r : QueuedDetails) (d : StoredDetails) =>
               timestamp d = timestamp r /\
               arguments d = arguments r /\
               namespaces d = deref heap (namespaces r) /\
               level d = level r /\
               contextId d = contextId r /\
               message d = message r)
            (toFlush b) records.
Proof.
  intros Hdb Hq Henc Hcs Hmin.
  destruct (decompress_deflate heap (toFlush b) Henc) as (text & Htext & Hback).
  exists (deflate (TextEncoder_encode text)), (List.map (structuredClone heap) (toFlush b)).
  split; [|split; [|split]].
  - assert (Hlen : (length (toFlush b) =? 0)%nat = false)
      by (destruct (toFlush b); [congruence | reflexivity]).
    unfold flushToDatabase. rewrite Hlen, Hdb. cbn [options set_toFlush].
    rewrite Hcs. apply Z.leb_le in Hmin. rewrite Hmin. cbn [andb]. rewrite Htext.
    reflexivity.
  - intros now. unfold flushToDatabase_resume. cbn [indexedDB set_toFlush]. rewrite Hdb.
    reflexivity.
  - exact Hback.
  - apply (same_fields_clone heap).
Qed.

End WithStreams.

(** Two records, the first logged with a context, while the array of
    namespaces holds two groups. *)
Lemma compressed_batch_round_trip_witness :
  exists buffer,
    flushToDatabase (streams := stored_streams true) two_logged_heap two_logged
    = Suspended (toFlush two_logged) buffer (set_toFlush [] two_logged) /\
    decompress (streams := stored_streams true) buffer
    = Normal
        [ {| timestamp := 1700000000000; arguments := [JsString "1"; JsString "{}"];
             namespaces := ["outer"; "inner"]; level := INFO; contextId := Some "ctx";
             message := "one 1 {}" |};
          {| timestamp := 1700000000001; arguments := [];
             namespaces := ["outer"; "inner"]; level := ERROR; contextId := None;
             message := "two" |} ].
Proof.
  destruct (compressed_batch_round_trip (streams := stored_streams true)
              two_logged_heap two_logged createObjectStore) as
    (buffer & records & Hflush & _ & Hback & Hsame).
  - reflexivity.
  - discriminate.
  - repeat constructor; eexists; reflexivity.
  - reflexivity.
  - vm_compute. discriminate.
  - exists buffer. split; [exact Hflush|]. rewrite Hback. f_equal.
    vm_compute in Hflush. injection Hflush as <-. vm_compute in Hback.
    injection Hback as <-. reflexivity.
Defined.

End CompressionFacts.

(** ** Flushes, failures and export over a run *)

Module RunFacts.
Import Js JSON BaseBackend IndexedDB Runtime IndexedDBBackend Run.
Import Utilities EncodeSpec EncodeFacts CompressionSpec CompressionFacts RunSpec.

Lemma serialize_object_some v :
  typeof v = "object" -> ToBoolean v = true ->
  forall r, SerializeJSONProperty v = Normal r -> exists j, r = Some j.
Proof.
  destruct v; simpl; try discriminate; intros _ _ r H.
  - match type of H with
    | bind ?c _ = _ => destruct c; simpl in H; [|discriminate]
    end.
    injection H as <-. eexists; reflexivity.
  - match type of H with
    | bind ?c _ = _ => destruct c; simpl in H; [|discriminate]
    end.
    injection H as <-. eexists; reflexivity.
Qed.

Lemma typeof_string v : typeof v = "string" -> exists s, v = JsString s.
Proof. destruct v; simpl; try discriminate. intros _. eexists; reflexivity. Qed.

(** Whatever [encode] returns is a string. *)
Lemma encode_string item out :
  encode item = Normal out -> exists s, out = JsString s.
Proof.
  unfold encode. destruct (ToBoolean item) eqn:Hb; simpl.
  - destruct (String.eqb (typeof item) "object") eqn:Ht.
    + apply String.eqb_eq in Ht.
      unfold stringify. destruct (SerializeJSONProperty item) as [r|e] eqn:Hs; simpl; [|discriminate].
      destruct (serialize_object_some item Ht Hb r Hs) as [j ->]. simpl.
      destruct (bool_decide _ && _ && _).
      * destruct (read_name (get_constructor item)) as [name|e]; simpl; [|discriminate].
        destruct (String.eqb (typeof name) "string") eqn:Hn.
        -- apply String.eqb_eq in Hn. intros [= <-]. apply typeof_string, Hn.
        -- intros [= <-]. eexists; reflexivity.
      * intros [= <-]. eexists; reflexivity.
    + assert (Ht' : typeof item <> "object") by (intros E; rewrite E in Ht; discriminate).
      rewrite (toString_string_form item Hb Ht'). intros [= <-]. eexists; reflexivity.
  - intros [= <-]. eexists; reflexivity.
Qed.

Lemma log_effect msg details b b' :
  log msg details b = Normal b' ->
  exists r, encoded_arguments r /\
            toFlush b' = (toFlush b ++ [r])%list /\
            indexedDB b' = indexedDB b /\ options b' = options b.
Proof.
  intros H. apply log_normal in H as (encoded & Henc & ->).
  eexists. split; [|repeat split].
  unfold encoded_arguments. simpl.
  apply map_throwing_Forall2 in Henc.
  induction Henc as [|x y l l' Hxy _ IH]; constructor; [|exact IH].
  apply (encode_string x y Hxy).
Qed.

Section WithStreams.
Context {streams : Streams}.

Lemma expand_app l1 l2 : expand (l1 ++ l2) = (expand l1 ++ expand l2)%list.
Proof. unfold expand. rewrite List.map_app, List.concat_app. reflexivity. Qed.




(** The cursor of [export] over rows that hold records. *)
Lemma export_cursor_plain (before : list StoredDetails) : forall rest data,
  export_cursor (List.map Row (List.map Plain before) ++ rest) data
  = export_cursor rest (data ++ before)%list.
Proof.
  induction before as [|r before IH]; intros rest data; simpl.
  - rewrite app_nil_r. reflexivity.
  - rewrite IH, <- app_assoc. reflexivity.
Qed.

Lemma export_plain_rows b db (records : list StoredDetails) :
  indexedDB b = Some db -> values db = List.map Plain records ->
  export b = Normal (Resolves records).
Proof.
  intros Hdb Hv. unfold export, export_with, cursor_steps. rewrite Hdb, Hv.
  rewrite <- (app_nil_r (List.map Row _)), export_cursor_plain. reflexivity.
Qed.


Lemma run_app events1 events2 s : run s (events1 ++ events2) = run (run s events1) events2.
Proof. unfold run. apply fold_left_app. Qed.

Lemma delete_insert_same {A} (l : list A) : forall i x, delete i (<[i := x]> l) = delete i l.
Proof.
  induction l as [|y l IH]; intros [|i] x; simpl; try reflexivity.
  f_equal. apply IH.
Qed.

(** What one call of [transaction.onerror] does. *)
Lemma on_error_effect i t more s :
  backend (on_error i t more s)
  = set_toFlush (toFlush (backend s) ++ batch (transaction t)) (backend s) /\
  promises (on_error i t more s) = <[promise t := Rejected]> (promises s) /\
  committed (on_error i t more s) = committed s /\
  suspended (on_error i t more s) = suspended s /\
  request (on_error i t more s) = request s.
Proof. unfold on_error. simpl. repeat split. Qed.

(** The error events of the requests that were cancelled, one after the
    other: each pushes the batch once more. *)
Lemma cancelled_requests_requeue i more : forall s t,
  open s !! i = Some t -> cancelled t = Some (S more) ->
  let s' := run s (repeat (ErrorOfCancelled i) (S more)) in
  toFlush (backend s')
  = (toFlush (backend s) ++ List.concat (repeat (batch (transaction t)) (S more)))%list /\
  indexedDB (backend s') = indexedDB (backend s) /\
  promises s' = <[promise t := Rejected]> (promises s) /\
  open s' = delete i (open s) /\
  committed s' = committed s /\
  suspended s' = suspended s.
Proof.
  induction more as [|more IH]; intros s t Ht Hc.
  - cbn [repeat run fold_left step]. rewrite Ht, Hc. cbn [List.concat].
    rewrite app_nil_r. unfold on_error. simpl. repeat split.
  - change (repeat (ErrorOfCancelled i) (S (S more)))
      with (ErrorOfCancelled i :: repeat (ErrorOfCancelled i) (S more)).
    change (run s (ErrorOfCancelled i :: repeat (ErrorOfCancelled i) (S more)))
      with (run (step s (ErrorOfCancelled i)) (repeat (ErrorOfCancelled i) (S more))).
    assert (Hstep : step s (ErrorOfCancelled i) = on_error i t (S more) s).
    { cbn [step]. rewrite Ht, Hc. reflexivity. }
    rewrite Hstep.
    set (t' := {| promise := promise t; transaction := transaction t;
                  snapshot := snapshot t; cancelled := Some (S more) |}).
    assert (Ht' : open (on_error i t (S more) s) !! i = Some t').
    { unfold on_error. simpl. apply list_lookup_insert_eq.
      apply lookup_lt_Some in Ht. exact Ht. }
    destruct (IH _ t' Ht' eq_refl) as (Hq & Hdb & Hp & Ho & Hcm & Hsu).
    cbv zeta. rewrite Hq, Hdb, Hp, Ho, Hcm, Hsu.
    unfold on_error. simpl. rewrite delete_insert_same, list_insert_insert_eq, <- app_assoc.
    repeat split.
Qed.

(** X25.  The failure of request [k] of an active transaction, and the
    error events of the requests cancelled with it.  Each of these events
    reaches [transaction.onerror], which pushes the whole batch onto the
    queue: the batch is queued once for the request that failed and once
    for each request after it, behind what was logged since the flush.
    The promise of the flush is rejected, the transaction is over, and
    nothing of it is in the store. *)
Theorem request_error_requeues s i t k :
  open s !! i = Some t -> cancelled t = None ->
  (k < length (requests (transaction t)))%nat ->
  let n := (length (requests (transaction t)) - k)%nat in
  let s' := run s (Error i k :: repeat (ErrorOfCancelled i) (n - 1)) in
  toFlush (backend s')
  = (toFlush (backend s) ++ List.concat (repeat (batch (transaction t)) n))%list /\
  indexedDB (backend s') = indexedDB (backend s) /\
  promises s' = <[promise t := Rejected]> (promises s) /\
  open s' = delete i (open s) /\
  committed s' = committed s /\
  suspended s' = suspended s.
Proof.
  intros Ht Hc Hk n s'. subst s'.
  change (run s (Error i k :: repeat (ErrorOfCancelled i) (n - 1)))
    with (run (step s (Error i k)) (repeat (ErrorOfCancelled i) (n - 1))).
  assert (Hstep : step s (Error i k)
                  = on_error i t (length (requests (transaction t)) - S k) s).
  { cbn [step]. rewrite Ht, Hc. apply Nat.ltb_lt in Hk. rewrite Hk. reflexivity. }
  rewrite Hstep.
  replace (length (requests (transaction t)) - S k)%nat with (n - 1)%nat by (subst n; lia).
  destruct (n - 1)%nat as [|more] eqn:En.
  - replace n with 1%nat by lia. cbn [repeat run fold_left List.concat].
    rewrite app_nil_r. unfold on_error. simpl. repeat split.
  - set (t' := {| promise := promise t; transaction := transaction t;
                  snapshot := snapshot t; cancelled := Some (S more) |}).
    assert (Ht' : open (on_error i t (S more) s) !! i = Some t').
    { unfold on_error. simpl. apply list_lookup_insert_eq.
      apply lookup_lt_Some in Ht. exact Ht. }
    destruct (cancelled_requests_requeue i more _ t' Ht' eq_refl) as (Hq & Hdb & Hp & Ho & Hcm & Hsu).
    cbv zeta in Hq, Hdb, Hp, Ho, Hcm, Hsu. rewrite Hq, Hdb, Hp, Ho, Hcm, Hsu.
    replace n with (S (S more)) by lia.
    unfold on_error. simpl. rewrite delete_insert_same, list_insert_insert_eq, <- app_assoc.
    repeat split.
Qed.

(** An abort with no request at fault reaches no handler. *)
Lemma abort_effect s i t :
  open s !! i = Some t -> cancelled t = None ->
  step s (Abort i) = set_open (delete i (open s)) s.
Proof. intros Ht Hc. cbn [step]. rewrite Ht, Hc. reflexivity. Qed.

End WithStreams.

(** Two rows, the first request fails: the batch is queued twice. *)
Lemma request_error_requeues_witness :
  let s' := run (streams := stored_streams false) two_rows_flushed
              [ Error 0 0; ErrorOfCancelled 0 ] in
  List.map message (toFlush (backend s')) = ["first"; "second"; "first"; "second"] /\
  promises s' = [Rejected] /\
  open s' = [].
Proof.
  destruct (request_error_requeues (streams := stored_streams false) two_rows_flushed
              0%nat two_rows 0%nat eq_refl eq_refl ltac:(simpl; lia))
    as (Hq & _ & Hp & Ho & _).
  cbv zeta. split; [|split].
  - etransitivity; [apply (f_equal (List.map message) Hq) | reflexivity].
  - etransitivity; [exact Hp | reflexivity].
  - etransitivity; [exact Ho | reflexivity].
Defined.

(** C1, the code at the failing input.  A record is logged and flushed on
    an open database, and the transaction is aborted when it commits,
    with no request at fault.  No error event reaches
    [transaction.onerror] and nothing listens to the event abort: the
    queue stays empty, the store too, the promise of the flush stays
    pending and no transaction is left that could settle it.  The next
    flush, which completes, writes the record logged since and nothing
    else.  A request that fails does reach the handler, once for the
    request and once for each request cancelled with it: a batch of two
    rows whose first request fails is back in the queue twice. *)
Theorem aborted_commit_loses_the_batch :
  let flushed :=
    run (streams := stored_streams true) (initial fresh)
      [ Log "first" (details_at 1 [JsNum (Int 1)]); Flush ∅ ] in
  let failed := run (streams := stored_streams true) (initial fresh) aborted_commit in
  let later := run (streams := stored_streams true) failed next_flush in
  let refused := run (streams := stored_streams false) (initial fresh) failed_request in
  (toFlush (backend flushed) = [] /\
   List.map (fun t => batch (transaction t)) (open flushed)
   = [ [queued_at 1 [JsString "1"] "first"] ] /\
   promises flushed = [Pending]) /\
  (toFlush (backend failed) = [] /\
   open failed = [] /\
   suspended failed = [] /\
   promises failed = [Pending] /\
   indexedDB (backend failed) = Some createObjectStore) /\
  (promises later = [Pending; Fulfilled] /\
   toFlush (backend later) = [] /\
   open later = [] /\
   indexedDB (backend later)
   = Some {| rows := [ (1, Plain (stored_at 3 [JsString "two"] "second")) ];
             key_generator := 2 |}) /\
  (toFlush (backend refused)
   = [ queued_at 1 [JsString "1"] "first"; queued_at 3 [JsString "two"] "second";
       queued_at 1 [JsString "1"] "first"; queued_at 3 [JsString "two"] "second" ] /\
   promises refused = [Rejected] /\
   open refused = [] /\
   indexedDB (backend refused) = Some createObjectStore).
Proof. vm_compute. repeat split. Qed.

(** C2, the code at the failing input.  Two records are logged and
    flushed on a database that compresses from two records on; the entry
    [{ timestamp, buffer }] is stored and the promise of the flush is
    fulfilled.  The buffer decompresses to the two records, but
    [export()] never settles: its handler leaves [cursor.continue()] to a
    callback that runs when the transaction is no longer active.  On a
    runtime without [CompressionStream] the same records are stored as
    two rows and [export()] resolves with them. *)
Theorem export_never_settles_over_a_compressed_entry :
  let stored := run (streams := stored_streams true) (initial fresh) compressed_flush in
  let rows_only := run (streams := stored_streams false) (initial fresh) plain_flush in
  let records := [ stored_at 1 [JsString "1"] "first"; stored_at 3 [JsString "two"] "second" ] in
  promises stored = [Fulfilled] /\
  (exists buffer,
     indexedDB (backend stored)
     = Some {| rows := [ (1, Compressed 5 buffer) ]; key_generator := 2 |} /\
     decompress (streams := stored_streams true) buffer = Normal records) /\
  export (backend stored) = Normal NeverSettles /\
  export_in stored = Normal NeverSettles /\
  indexedDB (backend rows_only)
  = Some {| rows := [ (1, Plain (stored_at 1 [JsString "1"] "first"));
                      (2, Plain (stored_at 3 [JsString "two"] "second")) ];
            key_generator := 3 |} /\
  export (backend rows_only) = Normal (Resolves records).
Proof.
  cbv zeta. split; [vm_compute; reflexivity|]. split.
  - eexists. split; vm_compute; reflexivity.
  - repeat split; vm_compute; reflexivity.
Qed.

End RunFacts.

(** ** Eviction *)

Module EvictionFacts.
Import Js BaseBackend IndexedDB IndexedDBBackend EvictionSpec.

Lemma filter_filter {A} (f g : A -> bool) l :
  List.filter f (List.filter g l) = List.filter (fun x => g x && f x) l.
Proof.
  induction l as [|x l IH]; simpl; [reflexivity|].
  destruct (g x); simpl; [destruct (f x)|]; rewrite IH; reflexivity.
Qed.

(** Deleting the rows of a list of keys, one by one. *)
Lemma rows_fold_delete ks : forall s,
  rows (fold_left (fun st k => cursor_delete k st) ks s)
  = List.filter (fun row => negb (key_in ks row)) (rows s).
Proof.
  induction ks as [|k ks IH]; intros s; simpl.
  - induction (rows s) as [|r rs IHr]; simpl; [reflexivity|]. rewrite <- IHr. reflexivity.
  - rewrite IH. simpl. rewrite filter_filter. apply List.filter_ext.
    intros row. unfold key_in. simpl. destruct (fst row =? k); reflexivity.
Qed.

Lemma key_generator_fold_delete ks : forall s,
  key_generator (fold_left (fun st k => cursor_delete k st) ks s) = key_generator s.
Proof. induction ks as [|k ks IH]; intros s; simpl; [reflexivity|]. rewrite IH. reflexivity. Qed.

Lemma In_index_insert e e' l : In e (index_insert e' l) <-> e = e' \/ In e l.
Proof.
  induction l as [|x l IH]; simpl.
  - intuition.
  - destruct (index_le e' x); simpl; rewrite ?IH; intuition.
Qed.

Lemma In_timestamp_index t k rs :
  In (t, k) (timestamp_index rs) <->
  exists v, In (k, v) rs /\ timestamp_key v = Some t.
Proof.
  induction rs as [|[k' v'] rs IH]; simpl.
  - split; [intros [] | intros (v & [] & _)].
  - destruct (timestamp_key v') as [t'|] eqn:Hk.
    + rewrite In_index_insert, IH. split.
      * intros [[= -> ->] | (v & Hin & Hv)]; [exists v'; auto | exists v; auto].
      * intros (v & [[= -> ->] | Hin] & Hv); [left; congruence | right; exists v; auto].
    + rewrite IH. split.
      * intros (v & Hin & Hv). exists v; auto.
      * intros (v & [[= -> ->] | Hin] & Hv); [congruence | exists v; auto].
Qed.

Lemma in_time_order_keys rs : in_time_order rs -> keys_unique rs.
Proof.
  induction 1 as [|a rs Hs IH Ha]; intros k v v' H1 H2; simpl in *; [contradiction|].
  rewrite Forall_forall in Ha.
  destruct H1 as [E1 | H1], H2 as [E2 | H2].
  - congruence.
  - apply list_elem_of_In, Ha in H2. destruct H2 as [H2 _]. subst a. simpl in H2. lia.
  - apply list_elem_of_In, Ha in H1. destruct H1 as [H1 _]. subst a. simpl in H1. lia.
  - eapply IH; eassumption.
Qed.

Lemma keys_unique_filter f rs : keys_unique rs -> keys_unique (List.filter f rs).
Proof.
  intros H k v v' H1 H2. apply filter_In in H1 as [H1 _]. apply filter_In in H2 as [H2 _].
  eapply H; eassumption.
Qed.

Lemma key_in_true ks row : key_in ks row = true <-> In (fst row) ks.
Proof.
  unfold key_in. rewrite existsb_exists. split.
  - intros (k & Hk & E). apply Z.eqb_eq in E. congruence.
  - intros H. exists (fst row). split; [exact H | apply Z.eqb_refl].
Qed.

Lemma key_in_expired oldest s k v :
  keys_unique (rows s) -> In (k, v) (rows s) ->
  key_in (index_openCursor_upperBound_open oldest s) (k, v) = expired oldest (k, v).
Proof.
  intros Hu Hin. apply eq_true_iff_eq. rewrite key_in_true.
  unfold index_openCursor_upperBound_open, expired. simpl.
  rewrite in_map_iff. split.
  - intros ([t k'] & E & Hf). simpl in E. subst k'.
    apply filter_In in Hf as [Hidx Hlt]. simpl in Hlt.
    apply In_timestamp_index in Hidx as (v' & Hv' & Ht).
    rewrite (Hu k v v' Hin Hv'), Ht. exact Hlt.
  - destruct (timestamp_key v) as [t|] eqn:Ht; [|discriminate]. intros Hlt.
    exists (t, k). split; [reflexivity|]. apply filter_In. split; [|exact Hlt].
    apply In_timestamp_index. exists v. auto.
Qed.

Lemma rows_clear_expired oldest s :
  keys_unique (rows s) ->
  rows (clear_expired oldest s) = List.filter (fun row => negb (expired oldest row)) (rows s).
Proof.
  intros Hu. unfold clear_expired. rewrite rows_fold_delete.
  apply List.filter_ext_in. intros [k v] Hin. rewrite (key_in_expired _ _ _ _ Hu Hin). reflexivity.
Qed.

Lemma rows_clear_excess m cursor : forall n s,
  lt_Infinity m = true ->
  rows (clear_excess m n cursor s)
  = List.filter (fun row => negb (key_in (List.map fst (skipn (keep m n) cursor)) row)) (rows s).
Proof.
  induction cursor as [|[k v] cursor IH]; intros n s Hm; simpl.
  - rewrite skipn_nil. simpl.
    induction (rows s) as [|r rs IHr]; simpl; [reflexivity|]. rewrite <- IHr. reflexivity.
  - destruct (number_gt (n + 1) m) eqn:Hgt.
    + rewrite IH by exact Hm. simpl. rewrite filter_filter.
      assert (Hk : keep m n = 0%nat /\ keep m (n + 1) = 0%nat).
      { destruct m as [ | | |z]; simpl in *; try discriminate; auto.
        apply Z.ltb_lt in Hgt. split; lia. }
      destruct Hk as [-> ->]. simpl. apply List.filter_ext. intros row.
      unfold key_in. simpl. destruct (fst row =? k); reflexivity.
    + rewrite IH by exact Hm.
      assert (Hk : keep m n = S (keep m (n + 1))).
      { destruct m as [ | | |z]; simpl in *; try discriminate.
        apply Z.ltb_ge in Hgt. lia. }
      rewrite Hk. reflexivity.
Qed.

Lemma key_generator_clear_excess m cursor : forall n s,
  key_generator (clear_excess m n cursor s) = key_generator s.
Proof.
  induction cursor as [|[k v] cursor IH]; intros n s; simpl; [reflexivity|].
  destruct (number_gt (n + 1) m); rewrite IH; reflexivity.
Qed.

Lemma in_time_order_NoDup rs : in_time_order rs -> NoDup (List.map fst rs).
Proof.
  induction 1 as [|a rs Hs IH Ha]; simpl; constructor; [|exact IH].
  rewrite Forall_forall in Ha. intros Hin. apply list_elem_of_In, in_map_iff in Hin as (b & E & Hb).
  apply list_elem_of_In, Ha in Hb. destruct Hb as [Hb _]. lia.
Qed.

Lemma NoDup_keys_unique rs : NoDup (List.map fst rs) -> keys_unique rs.
Proof.
  induction rs as [|[k0 v0] rs IH]; intros Hnd k v v' H1 H2; simpl in *; [contradiction|].
  apply NoDup_cons in Hnd as [Hnotin Hnd].
  assert (Hkey : forall w, In (k0, w) rs -> False).
  { intros w Hw. apply Hnotin, list_elem_of_In, in_map_iff. exists (k0, w). auto. }
  destruct H1 as [E1 | H1], H2 as [E2 | H2].
  - congruence.
  - injection E1 as -> ->. destruct (Hkey _ H2).
  - injection E2 as -> ->. destruct (Hkey _ H1).
  - eapply IH; eassumption.
Qed.

Lemma filter_app_right {A} (f : A -> bool) (old young : list A) :
  Forall (fun x => f x = false) old -> Forall (fun x => f x = true) young ->
  List.filter f (old ++ young) = young.
Proof.
  intros Ho Hy. rewrite List.filter_app.
  assert (E1 : List.filter f old = []).
  { induction Ho as [|x l Hx _ IH]; simpl; [reflexivity|]. rewrite Hx. exact IH. }
  assert (E2 : List.filter f young = young).
  { induction Hy as [|x l Hx _ IH]; simpl; [reflexivity|]. rewrite Hx, IH. reflexivity. }
  rewrite E1, E2. reflexivity.
Qed.

Lemma filter_deleted_prefix (A B : list (Z * StoredValue)) :
  NoDup (List.map fst (A ++ B)) ->
  List.filter (fun row => negb (key_in (List.map fst (rev A)) row)) (A ++ B) = B.
Proof.
  intros Hnd. apply filter_app_right.
  - apply Forall_forall. intros row Hrow. apply negb_false_iff, key_in_true.
    apply in_map, in_rev. rewrite rev_involutive. apply list_elem_of_In. exact Hrow.
  - apply Forall_forall. intros row Hrow. apply negb_true_iff.
    destruct (key_in (List.map fst (rev A)) row) eqn:E; [|reflexivity].
    apply key_in_true in E. rewrite List.map_rev in E. apply in_rev in E.
    rewrite List.map_app in Hnd. apply NoDup_app in Hnd as (_ & Hdisj & _).
    exfalso. apply (Hdisj (fst row)).
    + apply list_elem_of_In. exact E.
    + apply list_elem_of_In, in_map. apply list_elem_of_In. exact Hrow.
Qed.

(** The second cursor leaves the last [j] rows. *)
Lemma filter_recent (rs : list (Z * StoredValue)) (j : nat) :
  NoDup (List.map fst rs) ->
  List.filter (fun row => negb (key_in (List.map fst (skipn j (rev rs))) row)) rs
  = skipn (length rs - j) rs.
Proof.
  intros Hnd. rewrite List.skipn_rev.
  transitivity
    (List.filter (fun row => negb (key_in (List.map fst (rev (firstn (length rs - j) rs))) row))
       (firstn (length rs - j) rs ++ skipn (length rs - j) rs)).
  - rewrite firstn_skipn. reflexivity.
  - apply filter_deleted_prefix. rewrite firstn_skipn. exact Hnd.
Qed.

(** Under time order the expired rows come first. *)
Lemma expired_prefix oldest rs :
  in_time_order rs ->
  exists old young,
    rs = (old ++ young)%list /\
    Forall (fun row => expired oldest row = true) old /\
    Forall (fun row => expired oldest row = false) young.
Proof.
  induction 1 as [|a rs Hs IH Ha].
  - exists [], []. repeat split; constructor.
  - destruct (expired oldest a) eqn:Ea.
    + destruct IH as (old & young & -> & Ho & Hy).
      exists (a :: old), young. repeat split; [constructor|]; assumption.
    + exists [], (a :: rs). repeat split; [constructor|]. constructor; [exact Ea|].
      eapply Forall_impl; [exact Ha|]. intros b (_ & ta & tb & Hta & Htb & Hle).
      unfold expired in *. rewrite Hta in Ea. rewrite Htb.
      apply Z.ltb_ge in Ea. apply Z.ltb_ge. lia.
Qed.

Lemma In_skipn_In {A} (x : A) n : forall l, In x (skipn n l) -> In x l.
Proof.
  induction n as [|n IH]; intros [|y l] H; simpl in *; auto.
Qed.

Lemma filter_suffix {A} (f : A -> bool) (old young : list A) (j : nat) :
  Forall (fun x => f x = false) old -> Forall (fun x => f x = true) young ->
  List.filter f (skipn (length (old ++ young) - j) (old ++ young))
  = skipn (length young - j) young.
Proof.
  intros Ho Hy. rewrite length_app, skipn_app.
  destruct (le_lt_dec j (length young)) as [Hle | Hlt].
  - rewrite skipn_all2 by lia. simpl.
    replace (length old + length young - j - length old)%nat with (length young - j)%nat by lia.
    apply (filter_app_right f []); [constructor|].
    apply Forall_forall. intros x Hx. rewrite Forall_forall in Hy. apply Hy.
    apply list_elem_of_In. apply list_elem_of_In in Hx. eapply In_skipn_In; eassumption.
  - replace (length old + length young - j - length old)%nat with 0%nat by lia.
    replace (length young - j)%nat with 0%nat by lia. simpl.
    apply filter_app_right; [|exact Hy].
    apply Forall_forall. intros x Hx. rewrite Forall_forall in Ho. apply Ho.
    apply list_elem_of_In. apply list_elem_of_In in Hx. eapply In_skipn_In; eassumption.
Qed.

Lemma within_age_expired now e row :
  within_age now (Some e) row = negb (expired (now - e) row).
Proof.
  unfold within_age, expired. destruct (timestamp_key (snd row)) as [t|]; [|reflexivity].
  destruct (now - t <=? e) eqn:E1, (t <? now - e) eqn:E2; try reflexivity;
    [apply Z.leb_le in E1; apply Z.ltb_lt in E2 | apply Z.leb_gt in E1; apply Z.ltb_ge in E2]; lia.
Qed.

Lemma filter_true {A} (l : list A) : List.filter (fun _ => true) l = l.
Proof. induction l as [|x l IH]; simpl; [reflexivity|]. rewrite IH. reflexivity. Qed.

Lemma skipn_length {A} (l : list A) : skipn (length l - 0) l = [].
Proof. rewrite Nat.sub_0_r. apply skipn_all. Qed.

(** The rows after the two passes of [clearOldData]. *)
Lemma rows_clearOldData now b db :
  indexedDB b = Some db -> in_time_order (rows db) ->
  exists db',
    indexedDB (clearOldData now b) = Some db' /\
    key_generator db' = key_generator db /\
    rows db' = List.filter (within_age now (expire (options b)))
                 (most_recent (maxNumberOfLogs (options b)) (rows db)).
Proof.
  intros Hdb Hord. unfold clearOldData. rewrite Hdb.
  pose proof (in_time_order_NoDup _ Hord) as Hnd.
  destruct (expired_prefix (now - default 0 (expire (options b))) _ Hord)
    as (old & young & Hsplit & Hold & Hyoung).
  set (db1 := match expire (options b) with
              | Some e => clear_expired (now - e) db
              | None => db
              end).
  assert (Hgen1 : key_generator db1 = key_generator db).
  { subst db1. destruct (expire (options b)); [apply key_generator_fold_delete | reflexivity]. }
  assert (Hrows1 : rows db1 = List.filter (within_age now (expire (options b))) (rows db)).
  { subst db1. destruct (expire (options b)) as [e|].
    - rewrite rows_clear_expired by (apply NoDup_keys_unique, Hnd).
      apply List.filter_ext. intros row. rewrite within_age_expired. reflexivity.
    - unfold within_age. rewrite filter_true. reflexivity. }
  assert (Hnd1 : NoDup (List.map fst (rows db1))).
  { rewrite Hrows1. destruct (expire (options b)) as [e|].
    - simpl in Hold, Hyoung. rewrite Hsplit.
      rewrite (filter_app_right _ old young).
      + rewrite Hsplit, List.map_app in Hnd. apply NoDup_app in Hnd as (_ & _ & Hnd). exact Hnd.
      + eapply Forall_impl; [exact Hold|]. intros row Hr. rewrite within_age_expired, Hr. reflexivity.
      + eapply Forall_impl; [exact Hyoung|]. intros row Hr. rewrite within_age_expired, Hr. reflexivity.
    - unfold within_age. rewrite filter_true. exact Hnd. }
  destruct (maxNumberOfLogs (options b)) as [m|] eqn:Hm; cbn [most_recent].
  2:{ exists db1. auto. }
  destruct (lt_Infinity m) eqn:Hlt.
  2:{ exists db1. destruct m; try discriminate; auto. }
  eexists. split; [reflexivity|]. split.
  { rewrite key_generator_clear_excess. exact Hgen1. }
  rewrite rows_clear_excess by exact Hlt. unfold openCursor_prev.
  rewrite (filter_recent _ _ Hnd1), Hrows1.
  destruct (expire (options b)) as [e|].
  - simpl in Hold, Hyoung.
    assert (Hf1 : Forall (fun row => within_age now (Some e) row = false) old).
    { eapply Forall_impl; [exact Hold|]. intros row Hr. rewrite within_age_expired, Hr. reflexivity. }
    assert (Hf2 : Forall (fun row => within_age now (Some e) row = true) young).
    { eapply Forall_impl; [exact Hyoung|]. intros row Hr. rewrite within_age_expired, Hr. reflexivity. }
    rewrite Hsplit, (filter_app_right _ old young Hf1 Hf2).
    destruct m as [ | | |z]; try discriminate; cbn [keep].
    + rewrite skipn_length. reflexivity.
    + rewrite Z.sub_0_r. symmetry. apply filter_suffix; assumption.
  - unfold within_age. rewrite !filter_true.
    destruct m as [ | | |z]; try discriminate; cbn [keep].
    + apply skipn_length.
    + rewrite Z.sub_0_r. reflexivity.
Qed.

(** C4.  The rows are in insertion order with timestamps that follow it.
    After one eviction pass the store holds the rows that satisfy the age
    rule [now - t <= expire] among the [maxNumberOfLogs] most recent rows,
    in their order: the rows that satisfy both rules, and no other.  A rule
    whose option is null (or, for the count, not below Infinity) keeps every
    row.  The queue is not touched. *)
Theorem eviction_keeps_young_and_recent now b db :
  indexedDB b = Some db ->
  in_time_order (rows db) ->
  exists db',
    indexedDB (clearOldData now b) = Some db' /\
    rows db' = List.filter (within_age now (expire (options b)))
                 (most_recent (maxNumberOfLogs (options b)) (rows db)) /\
    (forall row,
       In row (rows db') <->
       In row (rows db) /\
       within_age now (expire (options b)) row = true /\
       In row (most_recent (maxNumberOfLogs (options b)) (rows db))) /\
    toFlush (clearOldData now b) = toFlush b.
Proof.
  intros Hdb Hord.
  destruct (rows_clearOldData now b db Hdb Hord) as (db' & Hdb' & _ & Hrows).
  exists db'. split; [exact Hdb'|]. split; [exact Hrows|]. split.
  - intros row. rewrite Hrows, filter_In. split.
    + intros [Hin Hage]. repeat split; auto.
      destruct (maxNumberOfLogs (options b)) as [[ | | |z]|]; simpl in Hin; auto;
        [contradiction | eapply In_skipn_In; eassumption].
    + intros (_ & Hage & Hin). auto.
  - unfold clearOldData. rewrite Hdb. reflexivity.
Qed.

Lemma five_rows_in_time_order : in_time_order (rows five_rows).
Proof.
  repeat (constructor; [|repeat (constructor; [split; [simpl; lia | eexists _, _; repeat split; simpl; lia]|])]);
    constructor.
Qed.

Lemma eviction_keeps_young_and_recent_witness :
  exists db',
    indexedDB (clearOldData 60 (limited (Some 25) (Some (Int 3)))) = Some db' /\
    rows db' = [ (4, record 40 "R4"); (5, record 50 "R5") ].
Proof.
  destruct (eviction_keeps_young_and_recent 60 (limited (Some 25) (Some (Int 3))) five_rows
              eq_refl five_rows_in_time_order) as (db' & Hdb & Hrows & _).
  exists db'. split; [exact Hdb|]. rewrite Hrows. reflexivity.
Defined.

(** With [expire: null] and [maxNumberOfLogs: 3], R3, R4 and R5 are left. *)
Example eviction_of_five_to_three :
  rows <$> indexedDB (clearOldData 60 (limited None (Some (Int 3))))
  = Some [ (3, record 30 "R3"); (4, record 40 "R4"); (5, record 50 "R5") ].
Proof. reflexivity. Qed.

(** Time order matters: when an old row was inserted last, the second
    cursor counts among the rows the first one left, and the row inserted
    first survives although it is not the most recent of the store. *)
Example eviction_out_of_time_order :
  let b := {| toFlush := [];
              indexedDB := Some {| rows := [ (1, record 50 "young"); (2, record 10 "old") ];
                                   key_generator := 3 |};
              options := {| expire := Some 25; flushTimer := 1;
                            minimumRecordsToCompress := 1000;
                            maxNumberOfLogs := Some (Int 1) |} |} in
  rows <$> indexedDB (clearOldData 60 b) = Some [ (1, record 50 "young") ].
Proof. reflexivity. Qed.

End EvictionFacts.

(** ** Batch export *)

Module ExportBatchFacts.
Import Js BaseBackend IndexedDB Runtime IndexedDBBackend Run CompressionSpec ExportBatchSpec.

Section WithStreams.
Context {streams : Streams}.

(** The success events of plain rows, from a closure whose cursor is not
    exhausted and whose buffer is not full: full buffers are dispatched,
    the rest stays buffered. *)
Lemma plain_rows_fill_buffers k rs : forall st,
  0 < k ->
  empty st = false ->
  Z.of_nat (length (buffered st)) < k ->
  let st' := fold_left (exportBatch_on k) (List.map (fun r => CursorSuccess (Some (Plain r))) rs) st in
  exists full,
    remainingPromises st' = (remainingPromises st ++ full)%list /\
    Forall (fun call => Z.of_nat (length call) = k) full /\
    (List.concat full ++ buffered st')%list = (buffered st ++ rs)%list /\
    Z.of_nat (length (buffered st')) < k /\
    empty st' = false /\
    awaited st' = awaited st /\
    rejected st' = rejected st.
Proof.
  induction rs as [|r rs IH]; intros st Hk He Hb; simpl.
  - exists []. rewrite !app_nil_r. simpl. repeat split; auto.
  - set (st1 := sendBuffered k (push_buffered [r] st)).
    assert (H1 : exists full1,
               remainingPromises st1 = (remainingPromises st ++ full1)%list /\
               Forall (fun call => Z.of_nat (length call) = k) full1 /\
               (List.concat full1 ++ buffered st1)%list = (buffered st ++ [r])%list /\
               Z.of_nat (length (buffered st1)) < k /\
               empty st1 = false /\ awaited st1 = awaited st /\
               rejected st1 = rejected st).
    { subst st1. unfold sendBuffered, push_buffered. cbn [buffered empty].
      rewrite He, orb_false_r.
      destruct (k <=? Z.of_nat (length (buffered st ++ [r]))) eqn:E; cbn [empty]; rewrite ?He.
      - apply Z.leb_le in E. rewrite length_app in E. simpl in E.
        exists [(buffered st ++ [r])%list]. cbn. rewrite app_nil_r.
        repeat split; auto; try lia.
        + constructor; [|constructor]. rewrite length_app. simpl. lia.
        + apply app_nil_r.
      - apply Z.leb_gt in E. exists []. cbn. rewrite app_nil_r. repeat split; auto. }
    destruct H1 as (full1 & Hr1 & Hf1 & Hc1 & Hb1 & He1 & Ha1 & Hj1).
    destruct (IH st1 Hk He1 Hb1) as (full & Hr & Hf & Hc & Hb' & He' & Ha' & Hj').
    exists (full1 ++ full)%list. rewrite Hr, Hr1, Ha', Ha1, Hj', Hj1, <- app_assoc.
    repeat split; auto.
    + apply Forall_app; split; assumption.
    + rewrite List.concat_app, <- app_assoc, Hc, app_assoc, Hc1, <- app_assoc. reflexivity.
Qed.

(** When the cursor is exhausted the buffer is dispatched as it is, and
    [Promise.all] is given every promise so far. *)
Lemma sendBuffered_exhausted k st :
  empty st = true ->
  sendBuffered k st
  = {| buffered := [];
       empty := true;
       remainingPromises := (remainingPromises st ++ [buffered st])%list;
       awaited := (awaited st ++ [length (remainingPromises st ++ [buffered st])])%list;
       decompressing := decompressing st;
       issued := issued st;
       rejected := rejected st |}.
Proof.
  intros He. unfold sendBuffered. rewrite He, orb_true_r. reflexivity.
Qed.

Lemma length_concat_full k (full : list (list StoredDetails)) :
  Forall (fun call => Z.of_nat (length call) = k) full ->
  Z.of_nat (length (List.concat full)) = k * Z.of_nat (length full).
Proof.
  induction 1 as [|call full Hc _ IH]; simpl; [lia|].
  rewrite length_app. lia.
Qed.

Lemma resolved_single st completed n :
  awaited st = [n] ->
  resolved st completed = true <-> (forall i, (i < n)%nat -> completed i = true).
Proof.
  intros Ha. unfold resolved. rewrite Ha. simpl. rewrite orb_false_r, forallb_forall.
  split; intros H i Hi; apply H; [apply in_seq; lia | apply in_seq in Hi; lia].
Qed.

(** C5, as amended.  The store holds M plain rows and the batch size k is
    at least 1.  [exportBatch] calls the consumer M / k + 1 times (integer
    division): first with the full buffers of k records, last with the M mod k
    records that remain when the cursor is exhausted, none when k divides M.
    The calls carry the records of the store, each once, in the order of the
    store.  [Promise.all] is not called while rows are left; when the cursor
    is exhausted it is called once, on all these calls: the promise of
    [exportBatch] resolves when each of them has completed, and not before. *)
Theorem exportBatch_of_plain_rows k b s rs :
  0 < k ->
  indexedDB b = Some s ->
  holds_plain s rs ->
  exists st full rest,
    exportBatch k cursor_events b = Normal st /\
    remainingPromises st = (full ++ [rest])%list /\
    Forall (fun call => Z.of_nat (length call) = k) full /\
    Z.of_nat (length rest) = Z.of_nat (length rs) mod k /\
    Z.of_nat (length (remainingPromises st)) = Z.of_nat (length rs) / k + 1 /\
    List.concat (remainingPromises st) = rs /\
    empty st = true /\
    rejected st = false /\
    (forall n completed,
       resolved (exportBatch_run k
                   (List.map (fun v => CursorSuccess (Some v)) (firstn n (values s))))
                completed = false) /\
    (forall completed,
       resolved st completed = true <->
       forall i, (i < length (remainingPromises st))%nat -> completed i = true).
Proof.
  intros Hk Hdb Hs. unfold exportBatch. rewrite Hdb.
  unfold exportBatch_run, cursor_events. rewrite Hs, List.map_map, fold_left_app.
  destruct (plain_rows_fill_buffers k rs exportBatch_start Hk eq_refl)
    as (full & Hr & Hf & Hc & Hb & He & Ha & Hj); [simpl; lia|].
  set (st1 := fold_left (exportBatch_on k)
                (List.map (fun r => CursorSuccess (Some (Plain r))) rs) exportBatch_start) in *.
  simpl in Hr, Hc, Ha, Hj.
  pose proof (length_concat_full k full Hf) as Hlen.
  assert (Htotal : Z.of_nat (length rs)
                   = k * Z.of_nat (length full) + Z.of_nat (length (buffered st1))).
  { rewrite <- Hc, length_app. lia. }
  eexists _, full, (buffered st1). split; [reflexivity|].
  cbn [fold_left exportBatch_on]. rewrite sendBuffered_exhausted by reflexivity.
  cbn [empty remainingPromises awaited rejected buffered].
  rewrite Hr, Ha, Hj. repeat split; auto.
  - apply (Z.mod_unique_pos _ _ (Z.of_nat (length full))); lia.
  - rewrite length_app. simpl.
    rewrite <- (Z.div_unique_pos (Z.of_nat (length rs)) k (Z.of_nat (length full))
                  (Z.of_nat (length (buffered st1)))); lia.
  - rewrite List.concat_app. simpl. rewrite app_nil_r. exact Hc.
  - intros n completed. unfold exportBatch_run.
    rewrite List.firstn_map, List.map_map.
    destruct (plain_rows_fill_buffers k (firstn n rs) exportBatch_start Hk eq_refl)
      as (_ & _ & _ & _ & _ & _ & Hn & _); [simpl; lia|].
    unfold resolved. rewrite Hn. reflexivity.
  - intros H i Hi. eapply resolved_single in H; [exact H | reflexivity | exact Hi].
  - intros H. eapply resolved_single; [reflexivity | exact H].
Qed.

End WithStreams.

Lemma exportBatch_of_plain_rows_witness :
  exists st,
    exportBatch (streams := stored_streams true) 1 cursor_events
      (set_indexedDB (Some two_rows) (constructor default_options)) = Normal st /\
    remainingPromises st = [ [entry 1 "a"]; [entry 2 "b"]; [] ] /\
    Z.of_nat (length (remainingPromises st)) = 2 / 1 + 1.
Proof.
  destruct (exportBatch_of_plain_rows (streams := stored_streams true) 1
              (set_indexedDB (Some two_rows) (constructor default_options))
              two_rows [entry 1 "a"; entry 2 "b"])
    as (st & full & rest & Hst & _ & _ & _ & Hn & _); [lia | reflexivity | reflexivity |].
  exists st. split; [exact Hst|]. split; [|exact Hn].
  vm_compute in Hst. injection Hst as <-. reflexivity.
Defined.

(** C5, counterexample: two plain rows exported one at a time make three
    consumer calls, the last with an empty buffer; the ceiling of 2 / 1 is 2. *)
Lemma exportBatch_calls_once_more :
  remainingPromises (exportBatch_run (streams := stored_streams true) 1 (cursor_events two_rows))
  = [ [entry 1 "a"]; [entry 2 "b"]; [] ] /\
  ceiling_div 2 1 = 2 /\
  ~ dispatches_ceiling (streams := stored_streams true) 1 two_rows.
Proof.
  split; [reflexivity|]. split; [reflexivity|]. intros H. vm_compute in H. discriminate H.
Qed.

(** A compressed row whose decompression settles after the cursor is
    exhausted: the promise can resolve on the first, empty, call while the
    records of the row are handed to the consumer afterwards. *)
Example exportBatch_late_decompression :
  let buffer := @deflate (stored_streams true)
                  (TextEncoder_encode (JSON.print (JSON.JArray [details_json (entry 1 "a")]))) in
  let st := exportBatch_run (streams := stored_streams true) 100
              [ CursorSuccess (Some (Compressed 5 buffer)); CursorSuccess None; Decompressed 0 ] in
  remainingPromises st = [ []; [entry 1 "a"] ] /\
  awaited st = [1%nat; 2%nat] /\
  resolved st (fun i => Nat.eqb i 0) = true.
Proof. vm_compute. repeat split. Qed.

End ExportBatchFacts.

(** ** [intersectArrays] *)

Module UtilitiesFacts.
Import Utilities UtilitiesSpec.

Section Arrays.
Context {A : Type} `{EqDecision A}.

Lemma filter_always (l : list A) : List.filter (fun _ => true) l = l.
Proof. induction l as [|x l IH]; simpl; [reflexivity|]. rewrite IH. reflexivity. Qed.

Lemma filter_twice (f g : A -> bool) l :
  List.filter f (List.filter g l) = List.filter (fun x => g x && f x) l.
Proof.
  induction l as [|x l IH]; simpl; [reflexivity|].
  destruct (g x); simpl; [destruct (f x)|]; rewrite IH; reflexivity.
Qed.

(** Adding the elements of an array to a set: the new elements follow the
    old ones, in the order of their first occurrence. *)
Lemma fold_Set_add l : forall set : list A,
  fold_left Set_add l set
  = (set ++ List.filter (fun y => negb (bool_decide (y ∈ set))) (first_occurrences l))%list.
Proof.
  induction l as [|x l IH]; intros set; simpl.
  - rewrite app_nil_r. reflexivity.
  - unfold Set_add at 2. case_bool_decide as Hx; simpl.
    + rewrite IH. f_equal.
      rewrite filter_twice. apply List.filter_ext. intros y.
      destruct (decide (y = x)) as [->|Hy].
      * rewrite (bool_decide_eq_true_2 _ Hx), andb_false_r. reflexivity.
      * rewrite (bool_decide_eq_false_2 _ Hy). reflexivity.
    + rewrite IH. rewrite <- app_assoc. simpl. f_equal. f_equal.
      rewrite filter_twice. apply List.filter_ext. intros y.
      rewrite (bool_decide_ext (y ∈ (set ++ [x])%list) (y ∈ set \/ y = x))
        by (rewrite elem_of_app, list_elem_of_singleton; reflexivity).
      rewrite bool_decide_or, negb_orb, andb_comm. reflexivity.
Qed.

Lemma new_Set_first_occurrences (l : list A) : new_Set l = first_occurrences l.
Proof.
  unfold new_Set. rewrite fold_Set_add. simpl.
  erewrite List.filter_ext; [apply filter_always|]. reflexivity.
Qed.

Lemma elem_of_first_occurrences (x : A) l : x ∈ first_occurrences l <-> x ∈ l.
Proof.
  induction l as [|y l IH]; simpl; [reflexivity|].
  rewrite !elem_of_cons, <- IH, !list_elem_of_In, filter_In.
  destruct (decide (x = y)) as [->|Hn]; [tauto|].
  rewrite (bool_decide_eq_false_2 _ Hn). simpl. tauto.
Qed.

Lemma NoDup_first_occurrences (l : list A) : NoDup (first_occurrences l).
Proof.
  induction l as [|y l IH]; simpl; constructor.
  - rewrite list_elem_of_In, filter_In. intros [_ H].
    rewrite bool_decide_eq_true_2 in H by reflexivity. discriminate.
  - apply NoDup_ListNoDup, List.NoDup_filter, NoDup_ListNoDup, IH.
Qed.

(** The loop keeps the results that occur in each array; leaving it early
    on an empty list changes nothing. *)
Lemma intersect_rest_filter arrays : forall results : list A,
  intersect_rest results arrays = List.filter (in_all arrays) results.
Proof.
  induction arrays as [|array arrays IH]; intros results; simpl.
  - unfold in_all. simpl. rewrite filter_always. reflexivity.
  - destruct results as [|r results]; [reflexivity|].
    cbn [length Nat.eqb]. rewrite IH, filter_twice.
    apply List.filter_ext. intros x. unfold in_all, Set_has. simpl.
    rewrite new_Set_first_occurrences.
    rewrite (bool_decide_ext _ _ (elem_of_first_occurrences x array)). reflexivity.
Qed.

(** X1.  A value is in the result of [intersectArrays] exactly when it
    occurs in every array it was given.  (Without arrays the result is
    empty.) *)
Theorem intersectArrays_elements (first : list A) arrays x :
  intersectArrays [] = @nil A /\
  (x ∈ intersectArrays (first :: arrays) <->
   x ∈ first /\ forall array, array ∈ arrays -> x ∈ array).
Proof.
  split; [reflexivity|].
  unfold intersectArrays. rewrite intersect_rest_filter, new_Set_first_occurrences.
  rewrite list_elem_of_In, filter_In, <- list_elem_of_In, elem_of_first_occurrences.
  unfold in_all. rewrite forallb_forall. split; intros [H1 H2]; (split; [exact H1|]).
  - intros array Ha. apply list_elem_of_In in Ha. apply H2 in Ha.
    apply bool_decide_eq_true in Ha. exact Ha.
  - intros array Ha. apply bool_decide_eq_true. apply H2, list_elem_of_In, Ha.
Qed.

(** X2.  The result of [intersectArrays] lists the common values once
    each, in the order in which they first occur in the first array. *)
Theorem intersectArrays_keeps_first_order (first : list A) arrays :
  intersectArrays (first :: arrays) = List.filter (in_all arrays) (first_occurrences first) /\
  NoDup (intersectArrays (first :: arrays)) /\
  sublist (intersectArrays (first :: arrays)) first.
Proof.
  assert (E : intersectArrays (first :: arrays)
              = List.filter (in_all arrays) (first_occurrences first)).
  { unfold intersectArrays. rewrite intersect_rest_filter, new_Set_first_occurrences.
    reflexivity. }
  split; [exact E|]. rewrite E. split.
  - apply NoDup_ListNoDup, List.NoDup_filter, NoDup_ListNoDup, NoDup_first_occurrences.
  - assert (Hf : forall (f : A -> bool) l, sublist (List.filter f l) l).
    { intros f l. induction l as [|x l IH]; simpl; [constructor|].
      destruct (f x); [apply sublist_skip | apply sublist_cons]; exact IH. }
    etransitivity; [apply Hf|]. clear E.
    induction first as [|x l IH]; simpl; [constructor|].
    apply sublist_skip. etransitivity; [apply Hf | exact IH].
Qed.

End Arrays.

(** The columns of a table that an object has, in the order of its keys. *)
Example intersectArrays_of_headers :
  intersectArrays [ ["name"; "age"; "name"; "city"]; ["city"; "name"; "zip"] ]
  = ["name"; "city"].
Proof. reflexivity. Qed.

End UtilitiesFacts.

(** ** Eviction and the keys of the store *)

Module StoreFacts.
Import Js JSON BaseBackend IndexedDB Runtime IndexedDBBackend Run.
Import EvictionSpec EvictionFacts StoreSpec.

Lemma StronglySorted_lt_NoDup (ks : list Z) : StronglySorted Z.lt ks -> NoDup ks.
Proof.
  induction 1 as [|k ks Hs IH Hk]; constructor; [|exact IH].
  intros Hin. rewrite Forall_forall in Hk. apply Hk in Hin. lia.
Qed.

Lemma sublist_map {A B} (f : A -> B) (l1 l2 : list A) :
  sublist l1 l2 -> sublist (List.map f l1) (List.map f l2).
Proof. induction 1; simpl; [constructor | apply sublist_skip | apply sublist_cons]; assumption. Qed.

Lemma sublist_filter {A} (f : A -> bool) (l : list A) : sublist (List.filter f l) l.
Proof.
  induction l as [|x l IH]; simpl; [constructor|].
  destruct (f x); [apply sublist_skip | apply sublist_cons]; exact IH.
Qed.

Lemma sublist_skipn {A} n (l : list A) : sublist (skipn n l) l.
Proof.
  revert l. induction n as [|n IH]; intros [|x l]; simpl; try reflexivity.
  apply sublist_cons, IH.
Qed.

Lemma sublist_most_recent m rs : sublist (most_recent m rs) rs.
Proof.
  destruct m as [[ | | |z]|]; simpl; try reflexivity.
  - apply sublist_nil_l.
  - apply sublist_skipn.
Qed.

(** Deleting rows keeps the keys in order and the generator where it is. *)
Lemma keys_in_order_sublist s s' :
  keys_in_order s -> sublist (rows s') (rows s) -> key_generator s' = key_generator s ->
  keys_in_order s'.
Proof.
  intros [Hs Hb] Hsub Hg. unfold keys_in_order. rewrite Hg.
  assert (Hm : sublist (List.map fst (rows s')) (List.map fst (rows s))).
  { apply sublist_map, Hsub. }
  split.
  - clear Hb Hsub Hg. revert Hm. generalize (List.map fst (rows s')) as l'.
    induction Hs as [|k ks Hs IH Hk]; intros l' Hm.
    + apply sublist_nil_r in Hm. subst. constructor.
    + apply sublist_cons_r in Hm as [Hm | (l'' & -> & Hm)]; [apply IH, Hm|].
      constructor; [apply IH, Hm|].
      rewrite Forall_forall in *. intros y Hy. apply Hk. eapply elem_of_sublist; eassumption.
  - rewrite Forall_forall in *. intros y Hy. apply Hb. eapply elem_of_sublist; eassumption.
Qed.

(** The rows after the two passes of [clearOldData], for rows with
    distinct keys: the second cursor counts the rows the first one left. *)
Lemma rows_clearOldData_in_sequence now b db :
  indexedDB b = Some db -> NoDup (List.map fst (rows db)) ->
  exists db',
    indexedDB (clearOldData now b) = Some db' /\
    key_generator db' = key_generator db /\
    rows db' = most_recent (maxNumberOfLogs (options b))
                 (List.filter (within_age now (expire (options b))) (rows db)).
Proof.
  intros Hdb Hnd. unfold clearOldData. rewrite Hdb.
  set (db1 := match expire (options b) with
              | Some e => clear_expired (now - e) db
              | None => db
              end).
  assert (Hgen1 : key_generator db1 = key_generator db).
  { subst db1. destruct (expire (options b)); [apply key_generator_fold_delete | reflexivity]. }
  assert (Hrows1 : rows db1 = List.filter (within_age now (expire (options b))) (rows db)).
  { subst db1. destruct (expire (options b)) as [e|].
    - rewrite rows_clear_expired by (apply NoDup_keys_unique, Hnd).
      apply List.filter_ext. intros row. rewrite within_age_expired. reflexivity.
    - unfold within_age. rewrite filter_true. reflexivity. }
  assert (Hnd1 : NoDup (List.map fst (rows db1))).
  { rewrite Hrows1. eapply sublist_NoDup; [exact Hnd|]. apply sublist_map, sublist_filter. }
  destruct (maxNumberOfLogs (options b)) as [m|] eqn:Hm; cbn [most_recent].
  2:{ exists db1. rewrite <- Hrows1. auto. }
  destruct (lt_Infinity m) eqn:Hlt.
  2:{ exists db1. rewrite <- Hrows1. destruct m; try discriminate; auto. }
  eexists. split; [reflexivity|]. split.
  { rewrite key_generator_clear_excess. exact Hgen1. }
  rewrite rows_clear_excess by exact Hlt. unfold openCursor_prev.
  rewrite (filter_recent _ _ Hnd1), <- Hrows1.
  destruct m as [ | | |z]; try discriminate; cbn [keep].
  - apply skipn_length.
  - rewrite Z.sub_0_r. reflexivity.
Qed.

Lemma length_most_recent z rs :
  0 <= z -> Z.of_nat (length (most_recent (Some (Int z)) rs)) <= z.
Proof. intros Hz. simpl. rewrite length_skipn. lia. Qed.

Lemma filter_all {A} (f : A -> bool) (l : list A) :
  Forall (fun x => f x = true) l -> List.filter f l = l.
Proof. induction 1 as [|x l Hx _ IH]; simpl; [reflexivity|]. rewrite Hx, IH. reflexivity. Qed.

Lemma most_recent_twice m rs : most_recent m (most_recent m rs) = most_recent m rs.
Proof.
  destruct m as [[ | | |z]|]; simpl; try reflexivity.
  rewrite length_skipn.
  replace (length rs - (length rs - Z.to_nat z) - Z.to_nat z)%nat with 0%nat by lia.
  reflexivity.
Qed.

Lemma skewed_keys_in_order : keys_in_order skewed_rows.
Proof. split; simpl; repeat constructor; lia. Qed.

(** X3.  One eviction pass over a store with keys in order, whatever the
    timestamps of its rows: the first cursor deletes the rows older than
    [expire], the second one counts among the rows that are left and keeps
    the [maxNumberOfLogs] most recent of them.  No row is added, changed or
    moved; the rows that stay are none older than [expire] and none more
    than a limit that is a number from 0 on; the keys stay in order. *)
Theorem eviction_expires_then_counts now b db :
  indexedDB b = Some db ->
  keys_in_order db ->
  exists db',
    indexedDB (clearOldData now b) = Some db' /\
    rows db' = most_recent (maxNumberOfLogs (options b))
                 (List.filter (within_age now (expire (options b))) (rows db)) /\
    sublist (rows db') (rows db) /\
    Forall (fun row => within_age now (expire (options b)) row = true) (rows db') /\
    (forall z, maxNumberOfLogs (options b) = Some (Int z) -> 0 <= z ->
               Z.of_nat (length (rows db')) <= z) /\
    keys_in_order db'.
Proof.
  intros Hdb Hok.
  destruct (rows_clearOldData_in_sequence now b db Hdb) as (db' & Hdb' & Hgen & Hrows).
  { apply StronglySorted_lt_NoDup, Hok. }
  assert (Hsub : sublist (rows db') (rows db)).
  { rewrite Hrows. etransitivity; [apply sublist_most_recent | apply sublist_filter]. }
  exists db'. split; [exact Hdb'|]. split; [exact Hrows|]. split; [exact Hsub|].
  split; [|split].
  - rewrite Hrows. apply Forall_forall. intros row Hrow.
    eapply elem_of_sublist in Hrow; [|apply sublist_most_recent].
    apply list_elem_of_In, filter_In in Hrow. tauto.
  - intros z Hz Hpos. rewrite Hrows, Hz. apply length_most_recent, Hpos.
  - eapply keys_in_order_sublist; eassumption.
Qed.

Lemma eviction_expires_then_counts_witness :
  exists db',
    indexedDB (clearOldData 60 (skewed (Some 25) (Some (Int 1)))) = Some db' /\
    rows db' = [ (4, record 55 "last") ].
Proof.
  destruct (eviction_expires_then_counts 60 (skewed (Some 25) (Some (Int 1))) skewed_rows
              eq_refl skewed_keys_in_order) as (db' & Hdb & Hrows & _).
  exists db'. split; [exact Hdb|]. rewrite Hrows. reflexivity.
Defined.

(** X4.  A second eviction pass at the same moment deletes nothing: the
    backend is as the first pass left it. *)
Theorem eviction_twice_is_once now b db :
  indexedDB b = Some db ->
  keys_in_order db ->
  clearOldData now (clearOldData now b) = clearOldData now b.
Proof.
  intros Hdb Hok.
  destruct (rows_clearOldData_in_sequence now b db Hdb) as (db' & Hdb' & Hgen & Hrows).
  { apply StronglySorted_lt_NoDup, Hok. }
  assert (Hopt : options (clearOldData now b) = options b).
  { unfold clearOldData. rewrite Hdb. reflexivity. }
  destruct (rows_clearOldData_in_sequence now (clearOldData now b) db' Hdb')
    as (db'' & Hdb'' & Hgen' & Hrows').
  { rewrite Hrows. eapply sublist_NoDup; [apply StronglySorted_lt_NoDup, Hok|].
    apply sublist_map. etransitivity; [apply sublist_most_recent | apply sublist_filter]. }
  rewrite Hopt in Hrows'.
  assert (Hsame : db'' = db').
  { destruct db'' as [rows'' gen''], db' as [rows' gen']. simpl in *. f_equal; [|exact Hgen'].
    rewrite Hrows'. rewrite Hrows at 1. rewrite filter_all.
    - rewrite most_recent_twice. symmetry. exact Hrows.
    - apply Forall_forall. intros row Hrow.
      eapply elem_of_sublist in Hrow; [|apply sublist_most_recent].
      apply list_elem_of_In, filter_In in Hrow. tauto. }
  subst db''.
  destruct (clearOldData now (clearOldData now b)) as [q2 d2 o2] eqn:E2.
  destruct (clearOldData now b) as [q1 d1 o1] eqn:E1. simpl in *.
  assert (Hq2 : q2 = q1 /\ o2 = o1).
  { unfold clearOldData in E2. simpl in E2. rewrite Hdb' in E2.
    injection E2 as <- _ <-. auto. }
  destruct Hq2 as [-> ->]. congruence.
Qed.

Lemma eviction_twice_is_once_witness :
  clearOldData 60 (clearOldData 60 (skewed (Some 25) (Some (Int 1))))
  = clearOldData 60 (skewed (Some 25) (Some (Int 1))).
Proof.
  apply (eviction_twice_is_once 60 (skewed (Some 25) (Some (Int 1))) skewed_rows eq_refl).
  exact skewed_keys_in_order.
Defined.

Section WithStreams.
Context {streams : Streams}.

Lemma keys_in_order_add v s : keys_in_order s -> keys_in_order (add v s).
Proof.
  intros [Hs Hb]. unfold keys_in_order, add. simpl. rewrite List.map_app. simpl. split.
  - clear - Hs Hb. induction Hs as [|k ks Hs IH Hk]; simpl.
    + repeat constructor.
    + inversion Hb as [|? ? Hkb Hb']; subst. constructor; [apply IH, Hb'|].
      apply Forall_app. split; [exact Hk|]. repeat constructor. exact Hkb.
  - apply Forall_app. split.
    + eapply Forall_impl; [exact Hb|]. simpl. intros k Hk. lia.
    + repeat constructor. lia.
Qed.

Lemma add_grows v s :
  key_generator s <= key_generator (add v s) /\
  forall row, In row (rows (add v s)) -> fst row < key_generator s -> In row (rows s).
Proof.
  unfold add. simpl. split; [lia|]. intros row Hin Hlt.
  apply in_app_or in Hin as [Hin | [<- | []]]; [exact Hin|]. simpl in Hlt. lia.
Qed.

Lemma fold_add_keys reqs : forall s,
  keys_in_order s ->
  let s' := fold_left (fun s v => add v s) reqs s in
  keys_in_order s' /\
  key_generator s <= key_generator s' /\
  forall row, In row (rows s') -> fst row < key_generator s -> In row (rows s).
Proof.
  induction reqs as [|v reqs IH]; intros s Hok; simpl.
  - split; [exact Hok|]. split; [lia|]. auto.
  - destruct (IH (add v s) (keys_in_order_add v s Hok)) as (Hok' & Hge & Hold).
    destruct (add_grows v s) as [Hge1 Hold1].
    split; [exact Hok'|]. split; [lia|].
    intros row Hin Hlt. apply Hold1; [|exact Hlt]. apply Hold; [exact Hin | lia].
Qed.

(** A flush leaves the database as it is, whatever it does to the queue. *)
Lemma flush_keeps_database heap b :
  match flushToDatabase heap b with
  | Settled _ b' | InFlight _ b' | Suspended _ _ b' => indexedDB b' = indexedDB b
  end.
Proof.
  unfold flushToDatabase. destruct (length (toFlush b) =? 0)%nat; [reflexivity|].
  destruct (indexedDB b) eqn:Hdb; [|exact Hdb].
  destruct (CompressionStream_defined && _); [|exact Hdb].
  destruct (stringify_batch heap (toFlush b)); exact Hdb.
Qed.

Lemma backend_begin p tx read s : backend (begin p tx read s) = backend s.
Proof. unfold begin. destruct (upgrading s); reflexivity. Qed.

Lemma indexedDB_on_error i t more s :
  indexedDB (backend (on_error i t more s)) = indexedDB (backend s).
Proof. reflexivity. Qed.

(** The keys of the store along one eviction pass. *)
Lemma clearOldData_keys now b db :
  indexedDB b = Some db -> keys_in_order db ->
  exists db',
    indexedDB (clearOldData now b) = Some db' /\
    keys_in_order db' /\
    key_generator db <= key_generator db' /\
    forall row, In row (rows db') -> fst row < key_generator db -> In row (rows db).
Proof.
  intros Hdb Hok.
  destruct (rows_clearOldData_in_sequence now b db Hdb) as (db' & Hdb' & Hgen & Hrows).
  { apply StronglySorted_lt_NoDup, Hok. }
  assert (Hsub : sublist (rows db') (rows db)).
  { rewrite Hrows. etransitivity; [apply sublist_most_recent | apply sublist_filter]. }
  exists db'. split; [exact Hdb'|]. split; [eapply keys_in_order_sublist; eassumption|].
  split; [lia|].
  intros row Hin _. apply list_elem_of_In. eapply elem_of_sublist; [|exact Hsub].
  apply list_elem_of_In, Hin.
Qed.

(** The keys of the store along one step of a run. *)
Lemma step_keys s e db :
  indexedDB (backend s) = Some db -> keys_in_order db ->
  exists db',
    indexedDB (backend (step s e)) = Some db' /\
    keys_in_order db' /\
    key_generator db <= key_generator db' /\
    forall row, In row (rows db') -> fst row < key_generator db -> In row (rows db).
Proof.
  intros Hdb Hok.
  assert (Hsame : forall s', indexedDB (backend s') = Some db ->
            exists db', indexedDB (backend s') = Some db' /\ keys_in_order db' /\
                        key_generator db <= key_generator db' /\
                        forall row, In row (rows db') -> fst row < key_generator db -> In row (rows db)).
  { intros s' H. exists db. split; [exact H|]. split; [exact Hok|]. split; [lia|]. auto. }
  destruct e as [ | result now | msg details | heap | i now | i | i k | i | i | now]; cbn [step].
  - rewrite Hdb. destruct (request s); apply Hsame, Hdb.
  - rewrite Hdb. destruct (request s); try (apply Hsame, Hdb).
    cbn [backend set_request set_backend]. unfold setup_onsuccess.
    apply clearOldData_keys; [reflexivity | exact Hok].
  - destruct (log msg details (backend s)) as [b'|err] eqn:Hlog; [|apply Hsame, Hdb].
    apply RunFacts.log_effect in Hlog as (r & _ & _ & Hdb' & _).
    apply Hsame. simpl. congruence.
  - pose proof (flush_keeps_database heap (backend s)) as Hk.
    destruct (flushToDatabase heap (backend s)) as [p b'|tx b'|data buffer b'];
      apply Hsame; [|rewrite backend_begin|]; simpl; congruence.
  - destruct (suspended s !! i) as [f|]; [|apply Hsame, Hdb].
    unfold flushToDatabase_resume. cbn [backend set_suspended]. rewrite Hdb.
    apply Hsame. rewrite backend_begin. exact Hdb.
  - destruct (open s !! i) as [t|]; [|apply Hsame, Hdb].
    destruct (cancelled t); [apply Hsame, Hdb|]. simpl. rewrite Hdb. simpl.
    destruct (fold_add_keys (requests (transaction t)) db Hok) as (H1 & H2 & H3).
    eexists. split; [reflexivity|]. auto.
  - destruct (open s !! i) as [t|]; [|apply Hsame, Hdb].
    destruct (cancelled t); [apply Hsame, Hdb|].
    destruct (k <? _)%nat; apply Hsame; [rewrite indexedDB_on_error|]; exact Hdb.
  - destruct (open s !! i) as [t|]; [|apply Hsame, Hdb].
    destruct (cancelled t) as [[|more]|]; apply Hsame; [|rewrite indexedDB_on_error|]; exact Hdb.
  - destruct (open s !! i) as [t|]; [|apply Hsame, Hdb].
    destruct (cancelled t); apply Hsame, Hdb.
  - destruct (upgrading s); [apply Hsame, Hdb|].
    cbn [backend set_backend]. apply clearOldData_keys; assumption.
Qed.

(** X5.  Along any run of [log] calls, flushes, completions, failures and
    eviction passes the keys of the store stay in ascending order below the
    key generator, and the generator never goes back: a row whose key was
    handed out before the run is a row that was there before the run,
    unchanged.  No key is used twice, no row is rewritten. *)
Theorem keys_are_never_reused events : forall s db,
  indexedDB (backend s) = Some db -> keys_in_order db ->
  exists db',
    indexedDB (backend (run s events)) = Some db' /\
    keys_in_order db' /\
    key_generator db <= key_generator db' /\
    forall row, In row (rows db') -> fst row < key_generator db -> In row (rows db).
Proof.
  induction events as [|e events IH]; intros s db Hdb Hok.
  - exists db. split; [exact Hdb|]. split; [exact Hok|]. split; [lia|]. auto.
  - destruct (step_keys s e db Hdb Hok) as (db1 & Hdb1 & Hok1 & Hge1 & Hold1).
    destruct (IH _ db1 Hdb1 Hok1) as (db2 & Hdb2 & Hok2 & Hge2 & Hold2).
    exists db2. split; [exact Hdb2|]. split; [exact Hok2|]. split; [lia|].
    intros row Hin Hlt. apply Hold1; [|exact Hlt]. apply Hold2; [exact Hin | lia].
Qed.

End WithStreams.

Lemma keys_are_never_reused_witness :
  exists db',
    indexedDB (backend (run (streams := stored_streams true)
                          (initial (skewed (Some 25) (Some (Int 1))))
                          [ ClearOldData 60;
                            Log "next" (RunSpec.details_at 61 []); Flush ∅; Complete 0 ]))
    = Some db' /\
    rows db' = [ (4, record 55 "last"); (5, record 61 "next") ] /\
    keys_in_order db'.
Proof.
  destruct (keys_are_never_reused (streams := stored_streams true)
              [ ClearOldData 60; Log "next" (RunSpec.details_at 61 []); Flush ∅; Complete 0 ]
              (initial (skewed (Some 25) (Some (Int 1)))) skewed_rows eq_refl skewed_keys_in_order)
    as (db' & Hdb & Hok & _).
  exists db'. split; [exact Hdb|]. split; [|exact Hok].
  vm_compute in Hdb. injection Hdb as <-. reflexivity.
Defined.

End StoreFacts.

(** ** The order of the records *)

Module OrderFacts.
Import Js JSON BaseBackend IndexedDB Runtime IndexedDBBackend Run.
Import Utilities EncodeSpec EncodeFacts CompressionSpec CompressionFacts RunSpec RunFacts OrderSpec.

Lemma log_message msg details b b' :
  log msg details b = Normal b' ->
  List.map message (toFlush b') = (List.map message (toFlush b) ++ [msg])%list /\
  logged_message (Log msg details) = Some msg.
Proof.
  intros H. apply log_normal in H as (encoded & Henc & ->). split.
  - simpl. rewrite List.map_app. reflexivity.
  - unfold logged_message, log. rewrite Henc. reflexivity.
Qed.

Lemma log_throws msg details b e :
  log msg details b = Throw e -> logged_message (Log msg details) = None.
Proof.
  unfold logged_message, log.
  destruct (map_throwing encode (BaseBackend.arguments details)); simpl; [discriminate|reflexivity].
Qed.


Lemma in_order_no_eviction e : in_order e = true -> is_eviction e = false.
Proof. destruct e; simpl; congruence. Qed.

Lemma insert_last {A} (l : list A) x y : <[length l := x]> (l ++ [y])%list = (l ++ [x])%list.
Proof. induction l as [|z l IH]; simpl; [reflexivity|]. f_equal. exact IH. Qed.

Section WithStreams.
Context {streams : Streams}.

(** A flush of a queue filled by [log], on a database: the whole queue
    is the batch, added row by row at once or compressed. *)
Lemma flush_of_queue heap b db :
  indexedDB b = Some db -> toFlush b <> [] -> Forall encoded_arguments (toFlush b) ->
  flushToDatabase heap b
  = InFlight {| batch := toFlush b;
                requests := List.map (fun r => Plain (structuredClone heap r)) (toFlush b) |}
      (set_toFlush [] b)
  \/ exists buffer, flushToDatabase heap b = Suspended (toFlush b) buffer (set_toFlush [] b).
Proof.
  intros Hdb Hq Henc.
  assert (Hlen : (length (toFlush b) =? 0)%nat = false)
    by (destruct (toFlush b); [congruence | reflexivity]).
  unfold flushToDatabase. rewrite Hlen, Hdb.
  destruct (CompressionStream_defined && _); [|left; reflexivity].
  destruct (decompress_deflate heap (toFlush b) Henc) as (text & -> & _).
  right. eexists. reflexivity.
Qed.





(** Before the open request is answered, an event other than a [log]
    call leaves the backend as it is, and a flush is settled at once. *)
Lemma step_before_open s e :
  waiting s -> is_open_event e = false ->
  waiting (step s e) /\
  (is_log e = false -> backend (step s e) = backend s) /\
  List.map message (toFlush (backend (step s e)))
  = (List.map message (toFlush (backend s))
     ++ from_option (fun m => [m]) [] (logged_message e))%list /\
  (Forall encoded_arguments (toFlush (backend s)) ->
   Forall encoded_arguments (toFlush (backend (step s e)))) /\
  exists settled, promises (step s e) = (promises s ++ settled)%list
                  /\ Forall (fun p => p = Fulfilled) settled.
Proof.
  intros [Hreq Hdb Ho Hsus] He.
  assert (Hsame : waiting s /\
            (is_log e = false -> backend s = backend s) /\
            List.map message (toFlush (backend s))
            = (List.map message (toFlush (backend s)) ++ [])%list /\
            (Forall encoded_arguments (toFlush (backend s)) ->
             Forall encoded_arguments (toFlush (backend s))) /\
            exists settled, promises s = (promises s ++ settled)%list
                            /\ Forall (fun p => p = Fulfilled) settled).
  { rewrite app_nil_r. repeat split; auto. exists []. rewrite app_nil_r. auto. }
  destruct e as [ | result now | msg details | heap | i now | i | i k | i | i | now];
    try discriminate; cbn [step is_log]; [|cbn [logged_message from_option]..].
  - destruct (log msg details (backend s)) as [b'|err] eqn:Hlog;
      cbn [backend set_backend promises].
    + pose proof (log_message _ _ _ _ Hlog) as [Hm ->].
      apply log_effect in Hlog as (r & Hr & Hq & Hdb' & _). rewrite Hm.
      split; [constructor; simpl; congruence|].
      repeat split; auto; try discriminate.
      * intros Henc. simpl. rewrite Hq. apply Forall_app. auto.
      * exists []. rewrite app_nil_r. auto.
    + rewrite (log_throws _ _ _ _ Hlog). exact Hsame.
  - unfold flushToDatabase. rewrite Hdb.
    destruct (length (toFlush (backend s)) =? 0)%nat; simpl; rewrite app_nil_r;
      (split; [constructor; assumption|]); repeat split; auto; exists [Fulfilled]; auto.
  - rewrite Hsus. exact Hsame.
  - rewrite Ho. exact Hsame.
  - rewrite Ho. exact Hsame.
  - rewrite Ho. exact Hsame.
  - rewrite Ho. exact Hsame.
  - unfold upgrading, clearOldData. rewrite Hreq, Hdb.
    destruct s as [b r su o p c]. exact Hsame.
Qed.

(** A run of [log] calls changes the backend alone, and by the backend alone. *)
Lemma run_logs_backend logs : forall s s',
  backend s = backend s' ->
  backend (run s (List.filter is_log logs)) = backend (run s' (List.filter is_log logs)).
Proof.
  unfold run. induction logs as [|e logs IH]; intros s s' Hb; simpl; [exact Hb|].
  destruct e as [ | result now | msg details | heap | i now | i | i k | i | i | now];
    simpl; try (apply IH, Hb).
  apply IH. rewrite Hb. destruct (log msg details (backend s')); simpl; auto.
Qed.

Lemma run_before_open events : forall s,
  waiting s -> Forall (fun e => is_open_event e = false) events ->
  waiting (run s events) /\
  backend (run s events) = backend (run s (List.filter is_log events)) /\
  List.map message (toFlush (backend (run s events)))
  = (List.map message (toFlush (backend s)) ++ logged events)%list /\
  (Forall encoded_arguments (toFlush (backend s)) ->
   Forall encoded_arguments (toFlush (backend (run s events)))) /\
  exists settled, promises (run s events) = (promises s ++ settled)%list
                  /\ Forall (fun p => p = Fulfilled) settled.
Proof.
  induction events as [|e events IH]; intros s Hw Hev.
  - simpl. rewrite app_nil_r. repeat split; auto; try apply Hw.
    exists []. rewrite app_nil_r. auto.
  - inversion Hev as [|? ? He Hev']; subst.
    destruct (step_before_open s e Hw He) as (Hw' & Hb & Hm & Henc & settled & Hp & Hs).
    destruct (IH _ Hw' Hev') as (Hw2 & Hb2 & Hm2 & Henc2 & settled2 & Hp2 & Hs2).
    change (run s (e :: events)) with (run (step s e) events).
    split; [exact Hw2|]. split; [|split; [|split]].
    + rewrite Hb2. destruct (is_log e) eqn:El.
      * simpl. rewrite El. reflexivity.
      * simpl. rewrite El. apply run_logs_backend. apply Hb. reflexivity.
    + rewrite Hm2, Hm, <- app_assoc. f_equal. unfold logged. simpl.
      destruct (logged_message e); reflexivity.
    + auto.
    + exists (settled ++ settled2)%list. rewrite Hp2, Hp, app_assoc. split; [reflexivity|].
      apply Forall_app. auto.
Qed.

(** X6.  From the constructor until the open request reports, whatever
    else is called: the backend is as the [log] calls alone would have
    left it, the queue holds the records logged, in call order, no
    transaction is opened, no flush is suspended and every flush promise
    is fulfilled at once.  If the open request then succeeds, the next
    flush takes the whole queue as one batch, added at once or handed to
    the compression, and leaves the queue empty.  If the open request
    reports [upgradeneeded] instead, [this.indexedDB] is set while the
    store is being made: a flush called before [success] takes the whole
    queue, its call of [transaction()] raises, at once or when the
    compression is over, its promise is rejected and the records are in
    no queue, no transaction and no store. *)
Theorem records_wait_for_the_database opts events :
  Forall (fun e => is_open_event e = false) events ->
  let s := run (initial (constructor opts)) events in
  backend s = backend (run (initial (constructor opts)) (List.filter is_log events)) /\
  indexedDB (backend s) = None /\
  request s = Requested /\
  open s = [] /\
  suspended s = [] /\
  Forall (fun p => p = Fulfilled) (promises s) /\
  List.map message (toFlush (backend s)) = logged events /\
  (forall result now heap,
     toFlush (backend s) <> [] ->
     let opened := step s (Success result now) in
     request opened = Over /\
     toFlush (backend opened) = toFlush (backend s) /\
     (flushToDatabase heap (backend opened)
      = InFlight {| batch := toFlush (backend s);
                    requests := List.map (fun r => Plain (structuredClone heap r))
                                  (toFlush (backend s)) |}
          (set_toFlush [] (backend opened))
      \/ exists buffer,
           flushToDatabase heap (backend opened)
           = Suspended (toFlush (backend s)) buffer (set_toFlush [] (backend opened)))) /\
  (forall heap,
     toFlush (backend s) <> [] ->
     let created := step s UpgradeNeeded in
     let lost := step created (Flush heap) in
     request created = Upgrading /\
     indexedDB (backend created) = Some createObjectStore /\
     toFlush (backend lost) = [] /\
     open lost = [] /\
     indexedDB (backend lost) = Some createObjectStore /\
     ((suspended lost = [] /\ promises lost = (promises s ++ [Rejected])%list)
      \/ exists buffer,
           suspended lost
           = [ {| waits := length (promises s); taken := toFlush (backend s);
                  compressed := buffer;
                  serialised := List.map (structuredClone heap) (toFlush (backend s)) |} ] /\
           promises lost = (promises s ++ [Pending])%list /\
           forall now,
             let resumed := step lost (Resume 0 now) in
             toFlush (backend resumed) = [] /\
             open resumed = [] /\
             suspended resumed = [] /\
             indexedDB (backend resumed) = Some createObjectStore /\
             promises resumed = (promises s ++ [Rejected])%list)).
Proof.
  intros Hev s.
  assert (Hstart : waiting (initial (constructor opts))) by (constructor; reflexivity).
  destruct (run_before_open events (initial (constructor opts)) Hstart Hev)
    as ([Hreq Hdb Ho Hsus] & Hb & Hm & Henc & settled & Hp & Hs).
  fold s in Hreq, Hdb, Ho, Hsus, Hb, Hm, Henc, Hp.
  specialize (Henc ltac:(constructor)).
  split; [exact Hb|]. split; [exact Hdb|]. split; [exact Hreq|]. split; [exact Ho|].
  split; [exact Hsus|]. split; [rewrite Hp; exact Hs|]. split; [exact Hm|]. split.
  - intros result now heap Hq opened.
    assert (Hopened : opened = set_request Over
                        (set_backend (setup_onsuccess now result (backend s)) s)).
    { subst opened. cbn [step]. rewrite Hreq, Hdb. reflexivity. }
    rewrite Hopened. cbn [request backend set_request set_backend].
    assert (Ht : toFlush (setup_onsuccess now result (backend s)) = toFlush (backend s)).
    { unfold setup_onsuccess, clearOldData. reflexivity. }
    split; [reflexivity|]. split; [exact Ht|].
    rewrite <- Ht.
    assert (Hsome : exists db, indexedDB (setup_onsuccess now result (backend s)) = Some db).
    { unfold setup_onsuccess, clearOldData. simpl. eexists. reflexivity. }
    destruct Hsome as [db Hsome].
    apply (flush_of_queue heap _ db Hsome); rewrite Ht; assumption.
  - intros heap Hq created lost.
    assert (Hcreated : created = set_request Upgrading
                         (set_backend (setup_onupgradeneeded (backend s)) s)).
    { subst created. cbn [step]. rewrite Hreq, Hdb. reflexivity. }
    split; [rewrite Hcreated; reflexivity|]. split; [rewrite Hcreated; reflexivity|].
    subst lost. rewrite Hcreated. cbn [step backend promises set_request set_backend].
    destruct (flush_of_queue heap (setup_onupgradeneeded (backend s)) createObjectStore
                eq_refl Hq Henc) as [Hf | [buffer Hf]]; rewrite Hf.
    + unfold begin, upgrading. cbn [request set_promises set_backend set_request promises].
      rewrite insert_last. cbn. rewrite Ho, Hsus. repeat split. left. split; reflexivity.
    + cbn. rewrite Ho, Hsus. repeat split. right. exists buffer.
      split; [reflexivity|]. split; [reflexivity|].
      intros now. unfold begin, upgrading. cbn. rewrite Ho, insert_last. repeat split.
Qed.

End WithStreams.


Lemma records_wait_for_the_database_witness :
  let s := run (streams := stored_streams true) (initial (constructor two_options)) early_logs in
  List.map message (toFlush (backend s)) = ["a"; "b"; "c"] /\
  promises s = [Fulfilled] /\
  promises (run (streams := stored_streams false) s [UpgradeNeeded; Flush ∅])
  = [Fulfilled; Rejected].
Proof.
  pose proof (records_wait_for_the_database (streams := stored_streams true) two_options
                early_logs ltac:(repeat constructor)) as H.
  cbv zeta in H. destruct H as (_ & _ & _ & _ & _ & _ & Hm & _).
  split; [rewrite Hm; reflexivity|]. split; reflexivity.
Defined.

(** A failure breaks the order: the batch that failed is written after
    the record logged while its transaction was open. *)
Example requeued_batch_is_written_later :
  let s := run (streams := stored_streams false) (initial fresh)
             [ Log "a" (details_at 1 []); Flush ∅; Log "b" (details_at 3 []); Flush ∅;
               Error 0 0; Complete 0; Flush ∅; Complete 0 ] in
  List.map message (durable (streams := stored_streams false) (backend s)) = ["b"; "a"].
Proof. reflexivity. Qed.

End OrderFacts.

(** ** [export] and [exportBatch] over rows that are compressed *)

Module CursorFacts.
Import Js JSON BaseBackend IndexedDB Runtime IndexedDBBackend Run.
Import RunSpec RunFacts ExportBatchSpec ExportBatchFacts CursorSpec.

Lemma find_split {A} (f : A -> bool) (l : list A) x :
  List.find f l = Some x ->
  exists l1 l2, l = (l1 ++ x :: l2)%list /\ f x = true /\ Forall (fun y => f y = false) l1.
Proof.
  induction l as [|y l IH]; simpl; [discriminate|].
  destruct (f y) eqn:Ey.
  - intros [= ->]. exists [], l. repeat split; auto.
  - intros H. destruct (IH H) as (l1 & l2 & -> & Hx & Hl1).
    exists (y :: l1), l2. repeat split; auto.
Qed.

Lemma filter_remove_one (i : nat) (l1 l2 : list (nat * ArrayBuffer)) buffer :
  NoDup (List.map fst (l1 ++ (i, buffer) :: l2)) ->
  List.filter (fun d => negb (Nat.eqb (fst d) i)) (l1 ++ (i, buffer) :: l2) = (l1 ++ l2)%list.
Proof.
  intros Hnd. rewrite List.map_app in Hnd. simpl in Hnd.
  apply NoDup_app in Hnd as (_ & Hdisj & Hnd2). apply NoDup_cons in Hnd2 as [Hnot _].
  rewrite List.filter_app. simpl. rewrite Nat.eqb_refl. simpl.
  assert (Hkeep : forall l : list (nat * ArrayBuffer),
            (forall d, In d l -> fst d <> i) ->
            List.filter (fun d => negb (Nat.eqb (fst d) i)) l = l).
  { induction l as [|d l IH]; intros H; simpl; [reflexivity|].
    destruct (Nat.eqb_spec (fst d) i) as [E|E]; [destruct (H d); auto; left; reflexivity|].
    simpl. rewrite IH; [reflexivity|]. intros d' Hd'. apply H. right. exact Hd'. }
  rewrite !Hkeep; [reflexivity| |].
  - intros d Hd E. apply Hnot. rewrite <- E. apply list_elem_of_In, in_map, Hd.
  - intros d Hd E. apply (Hdisj i).
    + rewrite <- E. apply list_elem_of_In, in_map, Hd.
    + left.
Qed.

Lemma perm_push {A} (a b p c : list A) : (a ++ (b ++ c) ++ p)%list ≡ₚ ((a ++ b ++ p) ++ c)%list.
Proof.
  rewrite <- !app_assoc. do 2 apply Permutation_app_head. apply Permutation_app_comm.
Qed.

Lemma perm_pull {A} (a b p1 c p2 : list A) :
  (a ++ (b ++ c) ++ (p1 ++ p2))%list ≡ₚ (a ++ b ++ (p1 ++ c ++ p2))%list.
Proof.
  rewrite <- !app_assoc. do 2 apply Permutation_app_head.
  rewrite !app_assoc. apply Permutation_app_tail. apply Permutation_app_comm.
Qed.

Section WithStreams.
Context {streams : Streams}.

(** X8.  How [export()] ends.  Over rows that all hold records the
    promise resolves with these records, in the order of the keys.  At
    the first row that holds a buffer, readable or not, the handler
    leaves [cursor.continue()] to the callback of [decompress], which
    runs when the transaction of the cursor is no longer active: the call
    raises there, no further event comes, and the promise of [export] is
    never settled, whatever rows follow.  If the cursor request reports an
    error after rows that hold records, the promise is rejected. *)
Theorem export_resolves_only_over_plain_rows b db (before : list StoredDetails) :
  indexedDB b = Some db ->
  (values db = List.map Plain before -> export b = Normal (Resolves before)) /\
  (forall v after,
     values db = (List.map Plain before ++ v :: after)%list -> is_plain_row v = false ->
     export b = Normal NeverSettles) /\
  (forall steps rest,
     steps db = (List.map Row (List.map Plain before) ++ Fails :: rest)%list ->
     export_with steps b = Normal Rejects).
Proof.
  intros Hdb. split; [|split].
  - apply export_plain_rows, Hdb.
  - intros v after Hv Hbuf. unfold export, export_with, cursor_steps. rewrite Hdb, Hv.
    rewrite List.map_app, export_cursor_plain. simpl.
    destruct v as [r | t buffer | buffer]; [discriminate | reflexivity | reflexivity].
  - intros steps rest Hs. unfold export_with. rewrite Hdb, Hs.
    rewrite export_cursor_plain. reflexivity.
Qed.

(** *** exportBatch *)

Lemma expand_one v : expand [v] = match v with
                                  | Plain r => [r]
                                  | Compressed _ buffer | RawBuffer buffer =>
                                      match decompress buffer with
                                      | Normal content => content
                                      | Throw _ => []
                                      end
                                  end.
Proof. unfold expand. simpl. apply app_nil_r. Qed.

Lemma pending_start buffer st content :
  decompress buffer = Normal content ->
  pending (start_decompress buffer st) = (pending st ++ content)%list.
Proof.
  intros Hc. unfold pending. cbn [start_decompress decompressing].
  rewrite List.map_app, expand_app. simpl. rewrite expand_one, Hc. reflexivity.
Qed.

Lemma sendBuffered_reading k st shown :
  0 < k -> empty st = false -> awaited st = [] -> rejected st = false ->
  (List.concat (remainingPromises st) ++ buffered st ++ pending st)%list ≡ₚ expand shown ->
  Forall (fun call => k <= Z.of_nat (length call)) (remainingPromises st) ->
  Forall (fun d => (fst d < issued st)%nat) (decompressing st) ->
  NoDup (List.map fst (decompressing st)) ->
  Forall (fun d => readable (RawBuffer (snd d))) (decompressing st) ->
  reading k (sendBuffered k st) shown.
Proof.
  intros Hk He Ha Hj Hrec Hcalls Hi Hd Hr. unfold sendBuffered. rewrite He, orb_false_r.
  destruct (k <=? Z.of_nat (length (buffered st))) eqn:E; cbn [empty]; rewrite ?He.
  - apply Z.leb_le in E. constructor; cbn; auto; try lia.
    + rewrite List.concat_app. simpl. rewrite app_nil_r, <- app_assoc. exact Hrec.
    + apply Forall_app. split; [exact Hcalls|]. repeat constructor. exact E.
  - apply Z.leb_gt in E. constructor; auto.
Qed.

Lemma start_reading k st shown v buffer content :
  reading k st shown ->
  decompress buffer = Normal content -> expand [v] = content ->
  reading k (start_decompress buffer st) (shown ++ [v]).
Proof.
  intros [He Ha Hj Hrec Hcalls Hb Hi Hd Hr] Hc Hex.
  constructor; auto.
  - rewrite (pending_start _ _ _ Hc), expand_app, Hex.
    cbn [start_decompress remainingPromises buffered].
    rewrite !app_assoc. apply Permutation_app_tail. rewrite <- app_assoc. exact Hrec.
  - cbn [start_decompress decompressing issued].
    apply Forall_app. split; [|repeat constructor].
    eapply Forall_impl; [exact Hi|]. simpl. intros d Hlt. lia.
  - cbn [start_decompress decompressing]. rewrite List.map_app. simpl.
    apply NoDup_app. split; [exact Hd|]. split; [|apply NoDup_singleton].
    intros x Hx Hx'. apply list_elem_of_singleton in Hx'. subst x.
    apply list_elem_of_In, in_map_iff in Hx as (d & E & Hin).
    rewrite Forall_forall in Hi. apply list_elem_of_In, Hi in Hin. lia.
  - cbn [start_decompress decompressing].
    apply Forall_app. split; [exact Hr|]. repeat constructor. exists content. exact Hc.
Qed.

(** A success event on a row and the settling of a decompression keep
    every record of the rows shown. *)
Lemma step_reading k st shown e :
  0 < k -> reading k st shown ->
  match e with
  | CursorSuccess (Some v) => readable v -> reading k (exportBatch_on k st e) (shown ++ [v])
  | Decompressed _ => reading k (exportBatch_on k st e) shown
  | _ => True
  end.
Proof.
  intros Hk Hrd. pose proof Hrd as [He Ha Hj Hrec Hcalls Hb Hi Hd Hr].
  destruct e as [[v|] | | i]; auto.
  - intros Hv.
    destruct v as [r | t buffer | buffer]; cbn [exportBatch_on].
    + apply sendBuffered_reading; auto.
      cbn [remainingPromises buffered push_buffered].
      change (pending (push_buffered [r] st)) with (pending st).
      rewrite expand_app, expand_one, <- Hrec. apply perm_push.
    + destruct Hv as [content Hc].
      apply (start_reading k st shown _ buffer content Hrd Hc). rewrite expand_one, Hc. reflexivity.
    + destruct Hv as [content Hc].
      apply (start_reading k st shown _ buffer content Hrd Hc). rewrite expand_one, Hc. reflexivity.
  - cbn [exportBatch_on].
    destruct (List.find (fun d => Nat.eqb (fst d) i) (decompressing st)) as [[j buffer]|] eqn:Ef;
      [|exact Hrd].
    apply find_split in Ef as (l1 & l2 & El & Ej & _). simpl in Ej. apply Nat.eqb_eq in Ej. subst j.
    assert (Hbuf : readable (RawBuffer buffer)).
    { rewrite Forall_forall in Hr. apply (Hr (i, buffer)). rewrite El.
      apply elem_of_app. right. left. }
    destruct Hbuf as [content Hc]. rewrite Hc.
    rewrite El, filter_remove_one by (rewrite <- El; exact Hd).
    rewrite El in Hi, Hd, Hr.
    apply Forall_app in Hi as [Hi1 Hi2]. inversion Hi2 as [|? ? _ Hi3]; subst.
    apply Forall_app in Hr as [Hr1 Hr2]. inversion Hr2 as [|? ? _ Hr3]; subst.
    apply sendBuffered_reading; auto;
      cbn [push_buffered remainingPromises buffered decompressing issued].
    + rewrite <- Hrec. unfold pending. cbn [decompressing push_buffered]. rewrite El.
      rewrite !List.map_app, !expand_app. cbn [List.map snd].
      rewrite (expand_app [RawBuffer buffer] _ : expand (RawBuffer buffer :: _) = _).
      rewrite expand_one, Hc. apply perm_pull.
    + apply Forall_app. auto.
    + rewrite List.map_app in *. simpl in Hd.
      apply NoDup_app in Hd as (H1 & H2 & H3). apply NoDup_cons in H3 as [H3 H4].
      apply NoDup_app. split; [exact H1|]. split; [|exact H4].
      intros x Hx Hx'. apply (H2 x Hx). right. exact Hx'.
    + apply Forall_app. auto.
Qed.

Lemma run_reading k body : forall st shown rows_left,
  0 < k -> reading k st shown ->
  cursors body = List.map Some rows_left ->
  Forall readable rows_left ->
  forallb (fun e => negb (is_cursor_error e)) body = true ->
  reading k (fold_left (exportBatch_on k) body st) (shown ++ rows_left).
Proof.
  induction body as [|e body IH]; intros st shown rows_left Hk Hrd Hcur Hread Herr.
  - destruct rows_left; [|discriminate]. rewrite app_nil_r. exact Hrd.
  - simpl in Herr. apply andb_prop in Herr as [He Herr].
    pose proof (step_reading k st shown e Hk Hrd) as Hstep.
    destruct e as [[v|] | | i]; try discriminate He; simpl in Hcur.
    + destruct rows_left as [|v' rows_left]; [discriminate|].
      injection Hcur as <- Hcur. inversion Hread as [|? ? Hv Hread']; subst.
      rewrite (app_assoc shown [v] rows_left : (shown ++ v :: rows_left = _)%list).
      apply IH; auto.
    + destruct rows_left; discriminate Hcur.
    + apply IH; auto.
Qed.

(** X9.  [exportBatch] over a store that may hold compressed rows, all
    readable, with a batch size of at least 1.  The cursor shows every row
    without error, and every decompression has settled when the cursor is
    exhausted.  Then each record of the store is handed to the consumer in
    exactly one call: the records of all the calls are those of the
    store, each as often as the store holds it.  Their order is the order
    in which the rows were buffered, which is not the order of the store
    when a decompression settles after a later row was shown.  Every call
    but the last takes at least [k] records (a decompressed batch is
    pushed whole, so a call can take more), the last takes what is left;
    [Promise.all] is called once, on all the calls, and the promise of
    [exportBatch] resolves when each of them has completed. *)
Theorem exportBatch_after_decompression k b s body :
  0 < k ->
  indexedDB b = Some s ->
  Forall readable (values s) ->
  cursors body = List.map Some (values s) ->
  forallb (fun e => negb (is_cursor_error e)) body = true ->
  decompressing (exportBatch_run k body) = [] ->
  exists st,
    exportBatch k (fun _ => body ++ [CursorSuccess None])%list b = Normal st /\
    List.concat (remainingPromises st) ≡ₚ expand (values s) /\
    Forall (fun call => k <= Z.of_nat (length call)) (removelast (remainingPromises st)) /\
    buffered st = [] /\
    awaited st = [length (remainingPromises st)] /\
    (forall completed,
       resolved st completed = true <->
       forall i, (i < length (remainingPromises st))%nat -> completed i = true).
Proof.
  intros Hk Hdb Hread Hcur Herr Hdone. unfold exportBatch. rewrite Hdb.
  eexists. split; [reflexivity|].
  unfold exportBatch_run in *. rewrite fold_left_app.
  assert (Hstart : reading k exportBatch_start []).
  { constructor; simpl; auto; try constructor; try lia. }
  pose proof (run_reading k body _ _ _ Hk Hstart Hcur Hread Herr) as Hrd.
  simpl in Hrd.
  set (st1 := fold_left (exportBatch_on k) body exportBatch_start) in *.
  destruct Hrd as [He Ha Hj Hrec Hcalls Hb _ _ _].
  cbn [fold_left exportBatch_on]. rewrite sendBuffered_exhausted by reflexivity.
  cbn [remainingPromises buffered awaited].
  unfold pending in Hrec. rewrite Hdone in Hrec. simpl in Hrec.
  change (expand []) with (@nil StoredDetails) in Hrec. rewrite app_nil_r in Hrec.
  split; [|split; [|split; [|split]]].
  - rewrite List.concat_app. simpl. rewrite app_nil_r. exact Hrec.
  - rewrite removelast_last. exact Hcalls.
  - reflexivity.
  - rewrite Ha. reflexivity.
  - intros completed. apply resolved_single. cbn [awaited]. rewrite Ha. reflexivity.
Qed.

End WithStreams.

(** A compressed entry that [decompress] reads, then a row. *)
Lemma export_resolves_only_over_plain_rows_witness :
  decompress (streams := stored_streams true) batch_of_two
  = Normal [entry 1 "a"; entry 2 "b"] /\
  export (set_indexedDB (Some mixed) (constructor default_options)) = Normal NeverSettles.
Proof.
  split; [vm_compute; reflexivity|].
  destruct (export_resolves_only_over_plain_rows
              (set_indexedDB (Some mixed) (constructor default_options)) mixed [] eq_refl)
    as (_ & Hhangs & _).
  apply (Hhangs (Compressed 5 batch_of_two) [Plain (entry 3 "c")]); reflexivity.
Defined.

Lemma exportBatch_after_decompression_witness :
  exists st,
    exportBatch (streams := stored_streams true) 2
      (fun _ => mixed_events ++ [CursorSuccess None])%list
      (set_indexedDB (Some mixed) (constructor default_options)) = Normal st /\
    remainingPromises st = [ [entry 1 "a"; entry 2 "b"]; [entry 3 "c"] ].
Proof.
  destruct (exportBatch_after_decompression (streams := stored_streams true) 2
              (set_indexedDB (Some mixed) (constructor default_options)) mixed mixed_events)
    as (st & Hst & _).
  - lia.
  - reflexivity.
  - repeat constructor. eexists. vm_compute. reflexivity.
  - reflexivity.
  - reflexivity.
  - vm_compute. reflexivity.
  - exists st. split; [exact Hst|]. vm_compute in Hst. injection Hst as <-. reflexivity.
Defined.

(** The decompression of the first row settles after the cursor has
    shown the second one: the consumer gets the record of the second row
    before those of the first, and a last call with nothing left. *)
Example exportBatch_order_follows_decompression :
  exists st,
    exportBatch (streams := stored_streams true) 2
      (fun _ => [ CursorSuccess (Some (Compressed 5 batch_of_two));
                  CursorSuccess (Some (Plain (entry 3 "c")));
                  Decompressed 0; CursorSuccess None ])
      (set_indexedDB (Some mixed) (constructor default_options)) = Normal st /\
    remainingPromises st = [ [entry 3 "c"; entry 1 "a"; entry 2 "b"]; [] ].
Proof. eexists. split; vm_compute; reflexivity. Qed.

End CursorFacts.

(** ** Runs of the stream backend *)

Module FileRunFacts.
Import BaseBackend FileBackend FileBackendFacts FileRun FileRunSpec.

Lemma write_consistent messages b groups :
  consistent b groups -> ready b = true -> messages <> [] ->
  consistent (write messages b) (groups ++ [messages]).
Proof.
  intros [Hc [s Hs] Hw Hl] Hr Hm.
  destruct (write_ready messages b s Hr Hs Hm) as (s' & Hs' & Hwr & _ & Hdl & Hr' & Hwt).
  constructor.
  - rewrite (chunks_written _ _ Hs'), Hwr, List.map_app, <- Hc, (chunks_written _ _ Hs). reflexivity.
  - eexists; exact Hs'.
  - intros _. rewrite Hwt. apply Hw, Hr.
  - intros s2 Hs2. rewrite Hs' in Hs2. injection Hs2 as <-. split; [|congruence].
    rewrite Hdl. apply Forall_app. split; [apply (Hl s Hs)|].
    destruct (hd true (accepts s)); repeat constructor. exact Hm.
Qed.

Lemma drain_consistent listeners : forall b groups,
  consistent b groups -> ready b = true ->
  Forall (fun messages => messages <> []) listeners ->
  consistent (fold_left (fun b messages => write messages b) listeners b) (groups ++ listeners) /\
  ready (fold_left (fun b messages => write messages b) listeners b) = true.
Proof.
  induction listeners as [|ms ls IH]; intros b groups Hc Hr Hne; simpl.
  - rewrite app_nil_r. auto.
  - inversion Hne as [|? ? Hms Hls]; subst.
    rewrite (app_assoc groups [ms] ls : (groups ++ ms :: ls = _)%list).
    apply IH; [apply write_consistent; assumption | | exact Hls].
    destruct Hc as [_ [s Hs] _ _].
    destruct (write_ready ms b s Hr Hs Hms) as (s' & _ & _ & _ & _ & Hr' & _). exact Hr'.
Qed.

Lemma on_ready_consistent b groups :
  consistent b groups ->
  consistent (on_ready b) (groups ++ match waiting b with [] => [] | _ => [waiting b] end) /\
  ready (on_ready b) = true /\ waiting (on_ready b) = [].
Proof.
  intros [Hc [s Hs] Hw Hl]. unfold on_ready. cbn [waiting].
  destruct (waiting b) as [|m ms] eqn:Ew.
  - cbn. rewrite app_nil_r. split; [|auto]. constructor; cbn.
    + unfold chunks in *. cbn. exact Hc.
    + eexists; exact Hs.
    + reflexivity.
    + intros s' Hs'. split; [apply (Hl s' Hs')|discriminate].
  - set (b1 := {| stream := stream b; ready := true; waiting := m :: ms |}).
    destruct (write_ready (m :: ms) b1 s eq_refl Hs) as (s' & Hs' & Hwr & _ & Hdl & Hr' & _);
      [discriminate|].
    split; [|cbn; auto]. constructor; cbn [stream ready waiting].
    + unfold chunks at 1. cbn [stream]. rewrite Hs', Hwr, List.map_app, <- Hc.
      rewrite (chunks_written _ _ Hs). reflexivity.
    + eexists; exact Hs'.
    + reflexivity.
    + intros s2 Hs2. rewrite Hs' in Hs2. injection Hs2 as <-. rewrite Hr'. split; [|discriminate].
      rewrite Hdl. apply Forall_app. split; [apply (Hl s Hs)|].
      destruct (hd true (accepts s)); repeat constructor. discriminate.
Qed.

Lemma on_drain_consistent b groups :
  consistent b groups ->
  exists again,
    consistent (on_drain b) (groups ++ again) /\
    ready (on_drain b) = ready b /\ waiting (on_drain b) = waiting b /\
    forall s, stream b = Some s -> again = drain_listeners s.
Proof.
  intros Hcs. pose proof Hcs as [Hc [s Hs] Hw Hl]. unfold on_drain. rewrite Hs.
  destruct (Hl s Hs) as [Hne Hnone].
  set (b1 := {| stream := Some {| written := written s; accepts := accepts s;
                                  drain_listeners := [] |};
                ready := ready b; waiting := waiting b |}).
  assert (Hb1 : consistent b1 groups).
  { constructor; cbn; auto.
    - rewrite <- Hc. symmetry. apply chunks_written, Hs.
    - intros s' [= <-]. cbn. auto. }
  exists (drain_listeners s). destruct (ready b) eqn:Hr.
  - destruct (drain_consistent (drain_listeners s) b1 groups Hb1 eq_refl Hne) as [H1 H2].
    split; [exact H1|]. split; [exact H2|]. split; [|intros s' [= <-]; reflexivity].
    destruct H1 as [_ _ Hw1 _]. rewrite (Hw1 H2). symmetry. apply Hw. reflexivity.
  - rewrite (Hnone eq_refl). cbn. rewrite app_nil_r.
    split; [exact Hb1|]. split; [reflexivity|]. split; [reflexivity|].
    intros s' [= <-]. symmetry. apply Hnone. reflexivity.
Qed.

Lemma log_consistent message details b groups :
  consistent b groups ->
  if ready b
  then consistent (log message details b) (groups ++ [[message]]) /\
       ready (log message details b) = true
  else consistent (log message details b) groups /\
       ready (log message details b) = false /\
       waiting (log message details b) = (waiting b ++ [message])%list.
Proof.
  intros Hcs. destruct (ready b) eqn:Hr; unfold log.
  - split; [apply write_consistent; auto; discriminate|].
    destruct Hcs as [_ [s Hs] _ _].
    destruct (write_ready [message] b s Hr Hs) as (s' & _ & _ & _ & _ & Hr' & _);
      [discriminate | exact Hr'].
  - rewrite (write_not_ready _ _ Hr). cbn. split; [|auto].
    destruct Hcs as [Hc Hst Hw Hl]. constructor; cbn.
    + exact Hc.
    + exact Hst.
    + discriminate.
    + rewrite Hr in Hl. exact Hl.
Qed.

Lemma constructor_consistent accepts : consistent (constructor accepts) [].
Proof.
  constructor; cbn.
  - reflexivity.
  - eexists; reflexivity.
  - discriminate.
  - intros s [= <-]. cbn. auto.
Qed.

Lemma sublist_snoc {A} (l k : list A) x : sublist l k -> sublist (l ++ [x])%list (k ++ [x])%list.
Proof. intros H. apply sublist_app; [exact H | reflexivity]. Qed.

Lemma step_keeps_order b groups logs e :
  consistent b groups ->
  sublist logs (List.concat groups ++ waiting b)%list ->
  exists groups',
    consistent (step b e) groups' /\
    sublist (logs ++ match e with Log message _ => [message] | _ => [] end)%list
            (List.concat groups' ++ waiting (step b e))%list.
Proof.
  intros Hcs Hsub. destruct e as [message details | | ]; cbn [step].
  - pose proof (log_consistent message details b groups Hcs) as H.
    destruct (ready b) eqn:Hr.
    + destruct H as [H1 H2]. exists (groups ++ [[message]])%list. split; [exact H1|].
      destruct Hcs as [_ _ Hw _]. destruct H1 as [_ _ Hw1 _].
      rewrite (Hw Hr) in Hsub. rewrite (Hw1 H2), !app_nil_r in *.
      rewrite List.concat_app. simpl. apply sublist_snoc, Hsub.
    + destruct H as (H1 & H2 & H3). exists groups. split; [exact H1|].
      rewrite H3, app_assoc. apply sublist_snoc, Hsub.
  - destruct (on_ready_consistent b groups Hcs) as (H1 & H2 & H3).
    eexists. split; [exact H1|]. rewrite H3, !app_nil_r, List.concat_app.
    destruct (waiting b); simpl in *; rewrite ?app_nil_r in *; exact Hsub.
  - destruct (on_drain_consistent b groups Hcs) as (again & H1 & H2 & H3 & H4).
    eexists. split; [exact H1|]. rewrite H3, app_nil_r, List.concat_app.
    destruct (ready b) eqn:Hr.
    + destruct Hcs as [_ _ Hw _]. rewrite (Hw Hr) in *. rewrite !app_nil_r in *.
      apply sublist_inserts_r, Hsub.
    + destruct Hcs as [_ [s Hs] _ Hl]. destruct (Hl s Hs) as [_ Hnone].
      rewrite (H4 s Hs), (Hnone Hr). simpl. rewrite app_nil_r. exact Hsub.
Qed.

Lemma run_keeps_order events : forall b groups logs,
  consistent b groups ->
  sublist logs (List.concat groups ++ waiting b)%list ->
  exists groups',
    consistent (run b events) groups' /\
    sublist (logs ++ logged_messages events)%list
            (List.concat groups' ++ waiting (run b events))%list.
Proof.
  induction events as [|e events IH]; intros b groups logs Hcs Hsub.
  - exists groups. simpl. rewrite app_nil_r. auto.
  - destruct (step_keeps_order b groups logs e Hcs Hsub) as (g1 & Hc1 & Hs1).
    destruct (IH _ _ _ Hc1 Hs1) as (g2 & Hc2 & Hs2).
    exists g2. split; [exact Hc2|].
    replace (logs ++ logged_messages (e :: events))%list
      with ((logs ++ match e with Log message _ => [message] | _ => [] end)
            ++ logged_messages events)%list;
      [exact Hs2|].
    rewrite <- app_assoc. f_equal. unfold logged_messages. simpl. destruct e; reflexivity.
Qed.

(** X10.  A stream backend from its constructor on, whatever the stream
    answers and whenever it emits "ready" and "drain": each chunk handed to
    the stream is a group of messages joined by CR LF, and the messages
    logged so far, in call order, are found in that order among the
    messages of the chunks followed by the messages that wait.  No message
    is lost and none is written before one that was logged earlier; once
    the stream is ready nothing waits. *)
Theorem messages_reach_the_stream_in_order accepts events :
  let b := run (constructor accepts) events in
  exists groups,
    chunks b = List.map join_lines groups /\
    sublist (logged_messages events) (List.concat groups ++ waiting b)%list /\
    (ready b = true -> waiting b = []).
Proof.
  intros b.
  destruct (run_keeps_order events (constructor accepts) [] [] (constructor_consistent accepts))
    as (groups & [Hc _ Hw _] & Hsub); [constructor|].
  exists groups. auto.
Qed.

Lemma write_accepted messages b :
  never_refuses b -> never_refuses (write messages b).
Proof.
  intros Hn. unfold write.
  destruct (length messages =? 0)%nat; [exact Hn|].
  destruct (negb (ready b)); [exact Hn|].
  destruct (stream b) as [s|] eqn:Hs; [|exact Hn].
  destruct (Hn s Hs) as [Ha Hd]. unfold stream_write.
  destruct (accepts s) as [|ok later] eqn:Ea; cbn.
  - intros s' [= <-]. cbn. auto.
  - simpl in Ha. apply andb_prop in Ha as [Hok Hl]. unfold id in Hok. subst ok.
    intros s' [= <-]. cbn. auto.
Qed.

Lemma step_exactly_once b groups logs e :
  consistent b groups -> never_refuses b ->
  (List.concat groups ++ waiting b)%list = logs ->
  exists groups',
    consistent (step b e) groups' /\ never_refuses (step b e) /\
    (List.concat groups' ++ waiting (step b e))%list
    = (logs ++ match e with Log message _ => [message] | _ => [] end)%list.
Proof.
  intros Hcs Hn <-. destruct e as [message details | | ]; cbn [step].
  - pose proof (log_consistent message details b groups Hcs) as H.
    assert (Hn' : never_refuses (log message details b)) by apply write_accepted, Hn.
    destruct (ready b) eqn:Hr.
    + destruct H as [H1 H2]. exists (groups ++ [[message]])%list. split; [exact H1|].
      split; [exact Hn'|].
      destruct Hcs as [_ _ Hw _]. destruct H1 as [_ _ Hw1 _].
      rewrite (Hw Hr), (Hw1 H2), !app_nil_r, List.concat_app. reflexivity.
    + destruct H as (H1 & H2 & H3). exists groups. split; [exact H1|]. split; [exact Hn'|].
      rewrite H3, app_assoc. reflexivity.
  - destruct (on_ready_consistent b groups Hcs) as (H1 & H2 & H3).
    eexists. split; [exact H1|]. split.
    + unfold on_ready. cbn [waiting].
      assert (Hw : never_refuses (write (waiting b)
                     {| stream := stream b; ready := true; waiting := waiting b |})).
      { apply write_accepted. exact Hn. }
      exact Hw.
    + rewrite H3, !app_nil_r, List.concat_app.
      destruct (waiting b); simpl; rewrite ?app_nil_r; reflexivity.
  - exists groups. destruct Hcs as [Hc [s Hs] Hw Hl]. destruct (Hn s Hs) as [Ha Hd].
    assert (E : on_drain b = b).
    { unfold on_drain. rewrite Hs, Hd. simpl. destruct b as [st r w]. simpl in *. rewrite Hs.
      destruct s; simpl in *. subst. reflexivity. }
    rewrite E, app_nil_r. split; [constructor; auto; eexists; exact Hs|]. auto.
Qed.

Lemma run_exactly_once events : forall b groups logs,
  consistent b groups -> never_refuses b ->
  (List.concat groups ++ waiting b)%list = logs ->
  exists groups',
    consistent (run b events) groups' /\ never_refuses (run b events) /\
    (List.concat groups' ++ waiting (run b events))%list = (logs ++ logged_messages events)%list.
Proof.
  induction events as [|e events IH]; intros b groups logs Hcs Hn Hl.
  - exists groups. simpl. rewrite app_nil_r. auto.
  - destruct (step_exactly_once b groups logs e Hcs Hn Hl) as (g1 & Hc1 & Hn1 & Hl1).
    destruct (IH _ _ _ Hc1 Hn1 Hl1) as (g2 & Hc2 & Hn2 & Hl2).
    exists g2. split; [exact Hc2|]. split; [exact Hn2|].
    change (run b (e :: events)) with (run (step b e) events).
    rewrite Hl2, <- app_assoc. f_equal.
    unfold logged_messages. simpl. destruct e; reflexivity.
Qed.

(** X11.  With a stream that refuses no chunk, each message logged is
    handed to the stream exactly once: the messages of the chunks, followed
    by the messages that wait for "ready", are the messages logged, in call
    order; nothing is registered for "drain". *)
Theorem accepted_messages_are_written_once accepts events :
  forallb id accepts = true ->
  let b := run (constructor accepts) events in
  exists groups,
    chunks b = List.map join_lines groups /\
    (List.concat groups ++ waiting b)%list = logged_messages events /\
    backpressured b = false.
Proof.
  intros Ha b.
  destruct (run_exactly_once events (constructor accepts) [] [] (constructor_consistent accepts))
    as (groups & [Hc [s Hs] Hw _] & Hn & Hl); [|reflexivity|].
  { intros s [= <-]. cbn. auto. }
  exists groups. split; [exact Hc|]. split; [exact Hl|].
  unfold backpressured. fold b in Hs. rewrite Hs. destruct (Hn s Hs) as [_ ->]. reflexivity.
Qed.

Lemma accepted_messages_are_written_once_witness :
  exists groups,
    chunks (run (constructor [true; true]) (log_all ["a"; "b"] ++ Ready :: log_all ["c"; "d"]))
    = List.map join_lines groups /\
    List.concat groups = ["a"; "b"; "c"; "d"].
Proof.
  destruct (accepted_messages_are_written_once [true; true]
              (log_all ["a"; "b"] ++ Ready :: log_all ["c"; "d"]) eq_refl)
    as (groups & Hc & Hl & _).
  exists groups. split; [exact Hc|].
  etransitivity; [symmetry; apply app_nil_r | exact Hl].
Defined.

Lemma run_log_all_waiting messages : forall b,
  ready b = false ->
  run b (log_all messages)
  = {| stream := stream b; ready := false; waiting := (waiting b ++ messages)%list |}.
Proof.
  induction messages as [|m ms IH]; intros b Hr; simpl.
  - rewrite app_nil_r. destruct b; simpl in *; congruence.
  - unfold log. rewrite (write_not_ready _ _ Hr), IH by reflexivity.
    simpl. rewrite <- app_assoc. reflexivity.
Qed.

Lemma run_log_all_ready messages : forall b s,
  ready b = true -> stream b = Some s ->
  chunks (run b (log_all messages)) = (written s ++ messages)%list.
Proof.
  induction messages as [|m ms IH]; intros b s Hr Hs; simpl.
  - rewrite app_nil_r. apply chunks_written, Hs.
  - destruct (write_ready [m] b s Hr Hs) as (s' & Hs' & Hw & _ & _ & Hr' & _); [discriminate|].
    unfold log. rewrite (IH _ s' Hr' Hs'), Hw, <- app_assoc. reflexivity.
Qed.

(** X13.  The file a stream backend writes: the messages logged before
    the stream was ready are written as one chunk, with CR LF between
    them; each message logged afterwards is a chunk of its own, handed to
    the stream as it is: nothing separates it from the chunk before, and
    nothing ends it. *)
Theorem later_messages_are_not_separated accepts early later :
  chunks (run (constructor accepts) (log_all early ++ Ready :: log_all later))
  = (match early with [] => [] | _ => [join_lines early] end ++ later)%list.
Proof.
  unfold run. rewrite fold_left_app.
  fold (run (constructor accepts) (log_all early)).
  rewrite run_log_all_waiting by reflexivity.
  cbn [fold_left step constructor stream waiting app].
  set (b := {| stream := Some (createWriteStream accepts); ready := false; waiting := early |}).
  destruct (on_ready_consistent b []) as (_ & Hr & _).
  { constructor; cbn.
    - reflexivity.
    - eexists; reflexivity.
    - discriminate.
    - intros s [= <-]. cbn. auto. }
  assert (Hchunks : chunks (on_ready b)
                    = match early with [] => [] | _ => [join_lines early] end).
  { unfold on_ready, b. cbn [waiting stream ready].
    destruct early as [|m ms]; [reflexivity|].
    unfold write, stream_write. cbn. destruct accepts as [|[|] later']; reflexivity. }
  destruct (stream (on_ready b)) as [s|] eqn:Hs.
  - fold (run (on_ready b) (log_all later)).
    rewrite (run_log_all_ready later _ s Hr Hs), <- Hchunks. f_equal.
    symmetry. apply chunks_written, Hs.
  - exfalso. unfold on_ready, b, write, stream_write in Hs. cbn in Hs.
    destruct early; [discriminate|]. destruct accepts as [|[|] ?]; discriminate.
Qed.

End FileRunFacts.

(** ** printf *)

Module PrintfFacts.
Import Js Host Utilities PrintfSpec.

Lemma append_cons (x : ascii) (a b : string) : String x a +:+ b = String x (a +:+ b).
Proof. reflexivity. Qed.

Lemma append_nil (b : string) : "" +:+ b = b.
Proof. reflexivity. Qed.

Lemma append_assoc (a b c : string) : (a +:+ b) +:+ c = a +:+ (b +:+ c).
Proof.
  induction a as [|x a IH]; [reflexivity|]. rewrite !append_cons, IH. reflexivity.
Qed.

Lemma append_empty_r (a : string) : a +:+ "" = a.
Proof. induction a as [|x a IH]; [reflexivity|]. rewrite append_cons, IH. reflexivity. Qed.

Lemma no_percent_append a b :
  no_percent (a +:+ b) = no_percent a && no_percent b.
Proof.
  induction a as [|x a IH]; [reflexivity|].
  rewrite append_cons. cbn [no_percent]. rewrite IH. apply andb_assoc.
Qed.

(** A text without "%" is cut into its characters. *)
Lemma matches_text pre post :
  no_percent pre = true ->
  matches (pre +:+ post) = (List.map Literal (list_ascii_of_string pre) ++ matches post)%list.
Proof.
  induction pre as [|c pre IH]; [reflexivity|].
  intros H. simpl in H. apply andb_prop in H as [Hc Hp]. apply negb_true_iff in Hc.
  rewrite append_cons. cbn [matches list_ascii_of_string List.map app].
  rewrite Hc, (IH Hp). reflexivity.
Qed.

Lemma flag_not_percent flag : is_flag flag = true -> Ascii.eqb flag "%" = false.
Proof.
  unfold is_flag. simpl. rewrite !orb_true_iff.
  intros H. destruct (Ascii.eqb_spec flag "%") as [->|]; [|reflexivity].
  simpl in H. intuition discriminate.
Qed.

Lemma matches_specifier flag post :
  is_flag flag = true ->
  matches (specifier flag +:+ post) = Specifier false flag :: matches post.
Proof.
  intros Hf. unfold specifier. rewrite !append_cons, append_nil.
  cbn [matches]. rewrite Ascii.eqb_refl. destruct post as [|c2 rest2].
  - rewrite Hf. reflexivity.
  - rewrite (flag_not_percent _ Hf), Hf. reflexivity.
Qed.

Lemma matches_escaped_specifier flag post :
  is_flag flag = true ->
  matches (escaped_specifier flag +:+ post) = Specifier true flag :: matches post.
Proof.
  intros Hf. unfold escaped_specifier, specifier. rewrite !append_cons, append_nil.
  cbn [matches]. rewrite Ascii.eqb_refl, Hf. reflexivity.
Qed.

Lemma unescape_text pre post :
  no_percent pre = true -> unescape (pre +:+ post) = pre +:+ unescape post.
Proof.
  induction pre as [|c pre IH]; [reflexivity|].
  intros H. simpl in H. apply andb_prop in H as [Hc Hp]. apply negb_true_iff in Hc.
  rewrite !append_cons. cbn [unescape]. rewrite Hc. cbn [andb]. rewrite <- (IH Hp).
  destruct (pre +:+ post) eqn:E; [|reflexivity].
  destruct pre; [|discriminate]. rewrite append_nil in E. subst. reflexivity.
Qed.

Lemma unescape_plain text : no_percent text = true -> unescape text = text.
Proof.
  intros H. rewrite <- (append_empty_r text) at 1. rewrite (unescape_text _ _ H).
  simpl. apply append_empty_r.
Qed.

Lemma unescape_escaped_specifier flag post :
  is_flag flag = true ->
  unescape (escaped_specifier flag +:+ post) = specifier flag +:+ unescape post.
Proof.
  intros Hf. unfold escaped_specifier, specifier. rewrite !append_cons, !append_nil.
  cbn [unescape]. rewrite Ascii.eqb_refl. cbn [andb].
  rewrite (flag_not_percent _ Hf). cbn [andb]. destruct post; reflexivity.
Qed.

Lemma skipn_tail {A} n (l : list A) : skipn n (tl l) = skipn (S n) l.
Proof. destruct l; [destruct n|]; reflexivity. Qed.

Section WithConversions.
Context {conversions : Conversions}.

Lemma replace_text (text : string) pieces replacements :
  replace_matches (List.map Literal (list_ascii_of_string text) ++ pieces) replacements
  = let* r := replace_matches pieces replacements in Normal (text +:+ fst r, snd r).
Proof.
  induction text as [|c text IH]; cbn [list_ascii_of_string List.map app replace_matches].
  - destruct (replace_matches pieces replacements) as [[t l]|e]; reflexivity.
  - rewrite IH. destruct (replace_matches pieces replacements) as [[t l]|e]; reflexivity.
Qed.

(** The replacement of a specifier that no "%" precedes. *)
Lemma replaced_specifier pre flag post replacements :
  no_percent pre = true -> is_flag flag = true ->
  printf_replaced (pre +:+ specifier flag +:+ post) replacements
  = let* value := convert flag (hd JsUndefined replacements) in
    let* text := ToString value in
    let* r := printf_replaced post (tl replacements) in
    Normal (pre +:+ text +:+ fst r, snd r).
Proof.
  intros Hp Hf. unfold printf_replaced.
  rewrite (matches_text _ _ Hp), (matches_specifier _ _ Hf), replace_text.
  cbn [replace_matches]. unfold replacer. cbn [negb].
  destruct (convert flag (hd JsUndefined replacements)) as [value|e]; [|reflexivity].
  cbn [bind fst snd].
  destruct (ToString value) as [text|e]; [|reflexivity]. cbn [bind].
  destruct (replace_matches (matches post) (tl replacements)) as [[m l]|e]; [|reflexivity].
  cbn [bind fst snd].
  destruct (negb (length l =? 0)%nat); [|rewrite ?append_assoc; reflexivity].
  destruct (map_throwing stringify_replacement l) as [l'|e]; [|reflexivity]. cbn [bind].
  destruct (Array_join " " l') as [joined|e]; [|reflexivity]. cbn [bind fst snd].
  rewrite !append_assoc. reflexivity.
Qed.

(** The replacement of a specifier that a "%" precedes. *)
Lemma replaced_escaped_specifier pre flag post replacements :
  no_percent pre = true -> is_flag flag = true ->
  printf_replaced (pre +:+ escaped_specifier flag +:+ post) replacements
  = let* value := convert flag (hd JsUndefined replacements) in
    let* r := printf_replaced post (value :: tl replacements) in
    Normal (pre +:+ escaped_specifier flag +:+ fst r, snd r).
Proof.
  intros Hp Hf. unfold printf_replaced.
  rewrite (matches_text _ _ Hp), (matches_escaped_specifier _ _ Hf), replace_text.
  cbn [replace_matches]. unfold replacer. cbn [negb].
  destruct (convert flag (hd JsUndefined replacements)) as [value|e]; [|reflexivity].
  cbn [bind fst snd ToString].
  destruct (replace_matches (matches post) (value :: tl replacements)) as [[m l]|e];
    [|reflexivity].
  cbn [bind fst snd].
  destruct (negb (length l =? 0)%nat); [|rewrite ?append_assoc; reflexivity].
  destruct (map_throwing stringify_replacement l) as [l'|e]; [|reflexivity]. cbn [bind].
  destruct (Array_join " " l') as [joined|e]; [|reflexivity]. cbn [bind fst snd].
  unfold escaped_specifier, specifier. rewrite !append_assoc. reflexivity.
Qed.

Lemma printf_replaced_text message replacements :
  no_percent message = true ->
  printf_replaced message replacements
  = if negb (length replacements =? 0)%nat then
      let* unused := map_throwing stringify_replacement replacements in
      let* joined := Array_join " " unused in
      Normal (message +:+ " " +:+ joined, unused)
    else Normal (message, replacements).
Proof.
  intros Hp. unfold printf_replaced.
  rewrite <- (append_empty_r message) at 1. rewrite (matches_text _ _ Hp).
  change (matches "") with (@nil Piece). rewrite replace_text.
  cbn [replace_matches bind fst snd]. rewrite append_empty_r. reflexivity.
Qed.

(** A message without "%" and without replacements is returned as it is. *)
Lemma printf_plain message :
  no_percent message = true -> printf message [] = Normal (message, []).
Proof.
  intros Hp. unfold printf. rewrite (printf_replaced_text _ _ Hp). cbn.
  rewrite (unescape_plain _ Hp). reflexivity.
Qed.

(** X14. A message that holds no "%" is returned as it is when there are no
    replacements; when there are, each of them is encoded (an object) or
    converted with its [toString] (any other truthy value), and they are
    added to the message after a space, joined with spaces; a "%%" in
    what is added is then written "%". *)
Theorem printf_without_percent message :
  no_percent message = true ->
  printf message [] = Normal (message, []) /\
  forall replacements,
    replacements <> [] ->
    printf message replacements
    = let* unused := map_throwing stringify_replacement replacements in
      let* joined := Array_join " " unused in
      Normal (message +:+ unescape (" " +:+ joined), unused).
Proof.
  intros Hp. split; [apply printf_plain, Hp|]. unfold printf.
  intros replacements Hne. rewrite (printf_replaced_text _ _ Hp).
  destruct replacements as [|v vs]; [congruence|]. cbn [length Nat.eqb negb].
  destruct (map_throwing stringify_replacement (v :: vs)) as [unused|e]; [|reflexivity].
  cbn [bind]. destruct (Array_join " " unused) as [joined|e]; [|reflexivity].
  cbn [bind fst snd]. rewrite (unescape_text _ _ Hp). reflexivity.
Qed.

(** X15. The first specifier of a message, when no "%" comes before it,
    takes the first replacement ([undefined] when there is none),
    converted as its flag says, and is replaced by the string of the
    result; the rest of the message is printed with the replacements that
    follow. *)
Theorem printf_replaces_specifier pre flag post replacements :
  no_percent pre = true -> is_flag flag = true ->
  printf (pre +:+ specifier flag +:+ post) replacements
  = let* value := convert flag (hd JsUndefined replacements) in
    let* text := ToString value in
    let* rest := printf_replaced post (tl replacements) in
    Normal (pre +:+ unescape (text +:+ fst rest), snd rest).
Proof.
  intros Hp Hf. unfold printf. rewrite (replaced_specifier _ _ _ _ Hp Hf).
  destruct (convert flag (hd JsUndefined replacements)) as [value|e]; [|reflexivity].
  cbn [bind]. destruct (ToString value) as [text|e]; [|reflexivity]. cbn [bind].
  destruct (printf_replaced post (tl replacements)) as [[m l]|e]; [|reflexivity].
  cbn [bind fst snd]. rewrite (unescape_text _ _ Hp). reflexivity.
Qed.

(** X16. A specifier with a "%" before it is printed as the specifier
    alone, and still takes the first replacement: the value is converted
    as the flag says and put back at the head of the array, where the rest
    of the message finds it. *)
Theorem printf_escaped_specifier_converts pre flag post replacements :
  no_percent pre = true -> is_flag flag = true ->
  printf (pre +:+ escaped_specifier flag +:+ post) replacements
  = let* value := convert flag (hd JsUndefined replacements) in
    let* rest := printf_replaced post (value :: tl replacements) in
    Normal (pre +:+ specifier flag +:+ unescape (fst rest), snd rest).
Proof.
  intros Hp Hf. unfold printf. rewrite (replaced_escaped_specifier _ _ _ _ Hp Hf).
  destruct (convert flag (hd JsUndefined replacements)) as [value|e]; [|reflexivity].
  cbn [bind].
  destruct (printf_replaced post (value :: tl replacements)) as [[m l]|e]; [|reflexivity].
  cbn [bind fst snd].
  rewrite (unescape_text _ _ Hp), (unescape_escaped_specifier _ _ Hf). reflexivity.
Qed.

(** X17. With no replacement for it, "%s" raises a TypeError, whatever
    follows it; "%d", "%i" and "%f" print NaN, "%o" and "%O" print
    undefined, and "%c" prints nothing. *)
Theorem printf_without_replacement pre post :
  no_percent pre = true ->
  (exists reason, printf (pre +:+ "%s" +:+ post) [] = Throw (TypeError reason)) /\
  (no_percent post = true ->
   printf (pre +:+ "%d" +:+ post) [] = Normal (pre +:+ "NaN" +:+ post, []) /\
   printf (pre +:+ "%i" +:+ post) [] = Normal (pre +:+ "NaN" +:+ post, []) /\
   printf (pre +:+ "%f" +:+ post) [] = Normal (pre +:+ "NaN" +:+ post, []) /\
   printf (pre +:+ "%o" +:+ post) [] = Normal (pre +:+ "undefined" +:+ post, []) /\
   printf (pre +:+ "%O" +:+ post) [] = Normal (pre +:+ "undefined" +:+ post, []) /\
   printf (pre +:+ "%c" +:+ post) [] = Normal (pre +:+ post, [])).
Proof.
  intros Hp. split.
  - unfold printf. change "%s" with (specifier "s").
    rewrite (replaced_specifier pre "s" post [] Hp eq_refl).
    eexists. reflexivity.
  - intros Hq.
    assert (H : forall flag text,
              is_flag flag = true ->
              (let* value := convert flag JsUndefined in ToString value) = Normal text ->
              no_percent text = true ->
              printf (pre +:+ specifier flag +:+ post) [] = Normal (pre +:+ text +:+ post, [])).
    { intros flag text Hf Hc Ht. unfold printf.
      rewrite (replaced_specifier pre flag post [] Hp Hf).
      cbn [hd tl]. destruct (convert flag JsUndefined) as [value|e]; [|discriminate].
      cbn [bind] in *. rewrite Hc. cbn [bind]. rewrite (printf_replaced_text _ _ Hq).
      cbn [length Nat.eqb negb bind fst snd].
      rewrite (unescape_text _ _ Hp), (unescape_text _ _ Ht), (unescape_plain _ Hq).
      reflexivity. }
    split; [exact (H "d"%char "NaN" eq_refl eq_refl eq_refl)|].
    split; [exact (H "i"%char "NaN" eq_refl eq_refl eq_refl)|].
    split; [exact (H "f"%char "NaN" eq_refl eq_refl eq_refl)|].
    split; [exact (H "o"%char "undefined" eq_refl eq_refl eq_refl)|].
    split; [exact (H "O"%char "undefined" eq_refl eq_refl eq_refl)|].
    exact (H "c"%char "" eq_refl eq_refl eq_refl).
Qed.

(** What the callback leaves of the array when no specifier is escaped. *)
Lemma replace_matches_consumes pieces : forall replacements text unused,
  replace_matches pieces replacements = Normal (text, unused) ->
  forallb is_unescaped pieces = true ->
  unused = skipn (length (List.filter is_specifier pieces)) replacements.
Proof.
  induction pieces as [|[c|escaped flag] pieces IH]; intros replacements text unused H Hu.
  - simpl in H. injection H as _ <-. reflexivity.
  - cbn [replace_matches] in H. simpl in Hu.
    destruct (replace_matches pieces replacements) as [[t l]|e] eqn:E; [|discriminate].
    cbn in H. injection H as _ <-. apply (IH _ _ _ E Hu).
  - cbn [replace_matches] in H. simpl in Hu. apply andb_prop in Hu as [He Hu].
    apply negb_true_iff in He. subst escaped. unfold replacer in H. cbn [negb] in H.
    destruct (convert flag (hd JsUndefined replacements)) as [value|e]; [|discriminate].
    cbn [bind fst snd] in H. destruct (ToString value) as [t0|e]; [|discriminate].
    cbn [bind] in H.
    destruct (replace_matches pieces (tl replacements)) as [[t l]|e] eqn:E; [|discriminate].
    cbn in H. injection H as _ <-. rewrite (IH _ _ _ E Hu). simpl. apply skipn_tail.
Qed.

(** X18. When no specifier of the message has a "%" before it, a call that
    returns leaves in the array the replacements that come after the
    first n, n the number of specifiers, each encoded or converted with
    its [toString]: every specifier has taken one replacement, in
    order. *)
Theorem printf_leaves_the_unused message replacements text unused :
  printf message replacements = Normal (text, unused) ->
  unescaped message = true ->
  map_throwing stringify_replacement (skipn (specifiers message) replacements) = Normal unused.
Proof.
  unfold printf, printf_replaced, unescaped, specifiers. intros H Hu.
  destruct (replace_matches (matches message) replacements) as [[m l]|e] eqn:E; [|discriminate].
  cbn [bind fst snd] in H.
  rewrite <- (replace_matches_consumes _ _ _ _ E Hu).
  destruct l as [|v l]; cbn [length Nat.eqb negb] in H.
  - cbn in H. injection H as _ <-. reflexivity.
  - destruct (map_throwing stringify_replacement (v :: l)) as [l'|e]; [|discriminate].
    cbn [bind] in H. destruct (Array_join " " l') as [joined|e]; [|discriminate].
    cbn in H. injection H as _ <-. reflexivity.
Qed.

End WithConversions.

(** A message and two replacements, the first an object. *)
Lemma printf_without_percent_witness :
  printf (conversions := literal_conversions) "saved" [] = Normal ("saved", []) /\
  printf (conversions := literal_conversions) "saved"
    [JsArray [JsNum (Int 1); JsNum (Int 2)]; JsString "100%%"]
  = Normal ("saved [1,2] 100%", [JsString "[1,2]"; JsString "100%%"]).
Proof.
  destruct (printf_without_percent (conversions := literal_conversions) "saved" eq_refl)
    as [Hnone Hsome].
  split; [exact Hnone|].
  rewrite Hsome by discriminate. reflexivity.
Defined.

Lemma printf_replaces_specifier_witness :
  printf (conversions := literal_conversions) "took %d ms" [JsString "12"; JsBoolean true]
  = Normal ("took 12 ms true", [JsString "true"]).
Proof.
  exact (printf_replaces_specifier (conversions := literal_conversions)
           "took " "d" " ms" [JsString "12"; JsBoolean true] eq_refl eq_refl).
Defined.

Lemma printf_escaped_specifier_converts_witness :
  printf (conversions := literal_conversions) "100%%d done" [JsString "half"]
  = Normal ("100%d done NaN", [JsNum NaN]).
Proof.
  exact (printf_escaped_specifier_converts (conversions := literal_conversions)
           "100" "d" " done" [JsString "half"] eq_refl eq_refl).
Defined.

Lemma printf_without_replacement_witness :
  (exists reason,
     printf (conversions := literal_conversions) "user %s left" [] = Throw (TypeError reason)) /\
  printf (conversions := literal_conversions) "user %d left" [] = Normal ("user NaN left", []).
Proof.
  destruct (printf_without_replacement (conversions := literal_conversions)
              "user " " left" eq_refl) as [Hs Hd].
  split; [exact Hs|]. exact (proj1 (Hd eq_refl)).
Defined.

Lemma printf_leaves_the_unused_witness :
  map_throwing stringify_replacement
    (skipn (specifiers "%s is %d") [JsString "x"; JsNum (Int 3); JsBoolean true; JsNum (Int 7)])
  = Normal [JsString "true"; JsString "7"].
Proof.
  exact (printf_leaves_the_unused (conversions := literal_conversions) "%s is %d"
           [JsString "x"; JsNum (Int 3); JsBoolean true; JsNum (Int 7)]
           "x is 3 true 7" [JsString "true"; JsString "7"] eq_refl eq_refl).
Defined.

End PrintfFacts.

(** ** trim *)

Module TrimFacts.
Import Js Host Utilities Facade PrintfSpec PrintfFacts FacadeSpec.

Lemma strip_space_shorter s rest :
  strip_space s = Some rest -> (String.length rest < String.length s)%nat.
Proof.
  unfold strip_space. destruct s as [|c [|c1 [|c2 r]]]; try discriminate;
    repeat match goal with
           | |- context [if ?b then _ else _] => destruct b
           end; intros [= <-]; simpl; lia.
Qed.

Lemma trimStart_steps_any n : forall m s,
  (String.length s <= n)%nat -> (String.length s <= m)%nat ->
  trimStart_steps n s = trimStart_steps m s.
Proof.
  induction n as [|n IH]; intros m s Hn Hm.
  - destruct s; [destruct m; reflexivity|simpl in Hn; lia].
  - destruct m as [|m]; [destruct s; [reflexivity|simpl in Hm; lia]|].
    cbn [trimStart_steps].
    destruct (strip_space s) as [rest|] eqn:E; [|reflexivity].
    apply strip_space_shorter in E. apply IH; lia.
Qed.

Lemma trimStart_steps_enough n s :
  (String.length s <= n)%nat -> trimStart_steps n s = trimStart s.
Proof. intros Hn. apply trimStart_steps_any; [exact Hn|lia]. Qed.

Lemma trimStart_strip s rest : strip_space s = Some rest -> trimStart s = trimStart rest.
Proof.
  intros E. unfold trimStart at 1. destruct s as [|c r]; [discriminate|].
  cbn [String.length trimStart_steps]. rewrite E.
  apply trimStart_steps_enough. apply strip_space_shorter in E. simpl in E. lia.
Qed.

Lemma trimStart_none s : strip_space s = None -> trimStart s = s.
Proof.
  intros E. unfold trimStart. destruct s as [|c r]; [reflexivity|].
  cbn [String.length trimStart_steps]. rewrite E. reflexivity.
Qed.

Lemma strip_space_append s rest t :
  strip_space s = Some rest -> strip_space (s +:+ t) = Some (rest +:+ t).
Proof.
  unfold strip_space. destruct s as [|c [|c1 [|c2 r]]]; try discriminate;
    rewrite ?append_cons, ?append_nil;
    repeat match goal with
           | |- context [if ?b then _ else _] => destruct b
           end; try discriminate; intros [= <-]; reflexivity.
Qed.

(** A character of one byte, when added, is never taken off with what
    comes before it. *)
Lemma is_space2_one_byte c z : (nat_of_ascii z < 128)%nat -> is_space2 c z = false.
Proof.
  unfold is_space2. intros H. destruct (Nat.eqb_spec (nat_of_ascii z) 160); [lia|].
  apply andb_false_r.
Qed.

Lemma is_space3_one_byte c c1 z : (nat_of_ascii z < 128)%nat -> is_space3 c c1 z = false.
Proof.
  unfold is_space3. intros H. cbv zeta.
  repeat match goal with
         | |- context [Nat.eqb (nat_of_ascii z) ?k] =>
             destruct (Nat.eqb_spec (nat_of_ascii z) k); [lia|]
         | |- context [Nat.leb ?k (nat_of_ascii z)] =>
             destruct (Nat.leb_spec k (nat_of_ascii z)); [lia|]
         end.
  rewrite ?andb_false_r. reflexivity.
Qed.

Lemma is_space3_after_one_byte c z c2 : (nat_of_ascii z < 128)%nat -> is_space3 c z c2 = false.
Proof.
  unfold is_space3. intros H. cbv zeta.
  repeat match goal with
         | |- context [Nat.eqb (nat_of_ascii z) ?k] =>
             destruct (Nat.eqb_spec (nat_of_ascii z) k); [lia|]
         end.
  rewrite ?andb_false_r, ?andb_false_l. reflexivity.
Qed.

Lemma is_space2_of_one_byte z c1 : (nat_of_ascii z < 128)%nat -> is_space2 z c1 = false.
Proof.
  unfold is_space2. intros H. destruct (Nat.eqb_spec (nat_of_ascii z) 194); [lia|].
  reflexivity.
Qed.

Lemma is_space3_of_one_byte z c1 c2 : (nat_of_ascii z < 128)%nat -> is_space3 z c1 c2 = false.
Proof.
  unfold is_space3. intros H. cbv zeta.
  repeat match goal with
         | |- context [Nat.eqb (nat_of_ascii z) ?k] =>
             destruct (Nat.eqb_spec (nat_of_ascii z) k); [lia|]
         end.
  reflexivity.
Qed.

Lemma strip_space_before_one_byte s z t :
  (nat_of_ascii z < 128)%nat -> s <> "" -> strip_space s = None ->
  strip_space (s +:+ String z t) = None.
Proof.
  intros Hz Hs. unfold strip_space.
  destruct s as [|c [|c1 [|c2 r]]]; [congruence|..]; rewrite ?append_cons, ?append_nil.
  - destruct (is_space c); [discriminate|]. intros _.
    rewrite (is_space2_one_byte _ _ Hz). destruct t as [|c2 t]; [reflexivity|].
    rewrite (is_space3_after_one_byte _ _ _ Hz). reflexivity.
  - destruct (is_space c); [discriminate|]. destruct (is_space2 c c1); [discriminate|].
    intros _. rewrite (is_space3_one_byte _ _ _ Hz). reflexivity.
  - destruct (is_space c); [discriminate|]. destruct (is_space2 c c1); [discriminate|].
    destruct (is_space3 c c1 c2); [discriminate|]. reflexivity.
Qed.

Lemma visible_one_byte z : visible z = true -> (nat_of_ascii z < 128)%nat.
Proof. unfold visible. intros H. apply andb_prop in H as [H _]. apply Nat.ltb_lt, H. Qed.

Lemma strip_space_visible z t : visible z = true -> strip_space (String z t) = None.
Proof.
  intros Hz. pose proof (visible_one_byte _ Hz) as Hb.
  unfold visible in Hz. apply andb_prop in Hz as [_ Hz]. apply negb_true_iff in Hz.
  unfold strip_space. rewrite Hz. destruct t as [|c1 [|c2 t]]; [reflexivity|..];
    rewrite (is_space2_of_one_byte _ _ Hb); [reflexivity|].
  rewrite (is_space3_of_one_byte _ _ _ Hb). reflexivity.
Qed.

(** *** trimStart *)

Lemma trimStart_space s : trimStart (String " " s) = trimStart s.
Proof. apply trimStart_strip. reflexivity. Qed.

Lemma trimStart_visible z t : visible z = true -> trimStart (String z t) = String z t.
Proof. intros Hz. apply trimStart_none, strip_space_visible, Hz. Qed.

Lemma trimStart_before_space_steps n : forall s,
  (String.length s <= n)%nat ->
  trimStart (s +:+ " ") = if String.eqb (trimStart s) "" then "" else trimStart s +:+ " ".
Proof.
  induction n as [|n IH]; intros s Hn.
  - destruct s; [reflexivity|simpl in Hn; lia].
  - destruct s as [|c r]; [reflexivity|].
    destruct (strip_space (String c r)) as [rest|] eqn:E.
    + rewrite (trimStart_strip _ _ (strip_space_append _ _ " " E)), (trimStart_strip _ _ E).
      apply IH. apply strip_space_shorter in E. simpl in E, Hn. lia.
    + rewrite (trimStart_none _ E).
      rewrite trimStart_none by (apply strip_space_before_one_byte;
                              [apply Nat.ltb_lt; reflexivity|discriminate|exact E]).
      reflexivity.
Qed.

Lemma trimStart_before_space s :
  trimStart (s +:+ " ") = if String.eqb (trimStart s) "" then "" else trimStart s +:+ " ".
Proof. apply (trimStart_before_space_steps (String.length s)). lia. Qed.

Lemma trimStart_before_visible_steps n : forall s z t,
  visible z = true -> (String.length s <= n)%nat -> trimStart (s +:+ String z t) <> "".
Proof.
  induction n as [|n IH]; intros s z t Hz Hn.
  - destruct s; [|simpl in Hn; lia]. rewrite append_nil, (trimStart_visible _ _ Hz).
    discriminate.
  - destruct s as [|c r]; [rewrite append_nil, (trimStart_visible _ _ Hz); discriminate|].
    destruct (strip_space (String c r)) as [rest|] eqn:E.
    + rewrite (trimStart_strip _ _ (strip_space_append _ _ _ E)).
      apply IH; [exact Hz|]. apply strip_space_shorter in E. simpl in E, Hn. lia.
    + rewrite trimStart_none
        by (apply strip_space_before_one_byte;
            [apply visible_one_byte, Hz|discriminate|exact E]).
      discriminate.
Qed.

(** *** trimEnd *)

Lemma trimEnd_space s : trimEnd (s +:+ " ") = trimEnd s.
Proof.
  induction s as [|c r IH]; [reflexivity|].
  rewrite append_cons. cbn [trimEnd]. rewrite <- append_cons, trimStart_before_space.
  destruct (String.eqb (trimStart (String c r)) "") eqn:E; [reflexivity|].
  destruct (trimStart (String c r)) as [|x y]; [discriminate|].
  rewrite IH. reflexivity.
Qed.

Lemma trimEnd_visible s z : visible z = true -> trimEnd (s +:+ String z "") = s +:+ String z "".
Proof.
  intros Hz. induction s as [|c r IH].
  - rewrite append_nil. cbn [trimEnd]. rewrite (trimStart_visible _ _ Hz). reflexivity.
  - rewrite append_cons. cbn [trimEnd]. rewrite <- append_cons.
    pose proof (trimStart_before_visible_steps _ (String c r) z "" Hz (le_n _)) as Hne.
    destruct (trimStart (String c r +:+ String z "")); [congruence|].
    cbn [String.eqb]. rewrite append_cons, IH. reflexivity.
Qed.

(** *** trim *)

(** The spaces that [decorateMessage] puts around the message are trimmed
    with those of the message. *)
Lemma trim_padded s : trim (String " " (s +:+ " ")) = trim s.
Proof.
  unfold trim. rewrite trimStart_space, trimStart_before_space.
  destruct (String.eqb (trimStart s) "") eqn:E.
  - apply String.eqb_eq in E. rewrite E. reflexivity.
  - apply trimEnd_space.
Qed.

(** A string between two characters that are not white space has nothing
    to trim. *)
Lemma trim_bounded z s z' :
  visible z = true -> visible z' = true ->
  trim (String z (s +:+ String z' "")) = String z (s +:+ String z' "").
Proof.
  intros Hz Hz'. unfold trim. rewrite (trimStart_visible _ _ Hz).
  rewrite <- append_cons. apply trimEnd_visible, Hz'.
Qed.

End TrimFacts.

(** ** The console methods *)

Module FacadeFacts.
Import Js BaseBackend IndexedDB Host Utilities Facade PrintfSpec PrintfFacts FacadeSpec TrimFacts.

Lemma encode_JsString s : encode (JsString s) = Normal (JsString s).
Proof.
  unfold encode. cbn [ToBoolean]. destruct (String.eqb s "") eqn:E; [|reflexivity].
  apply String.eqb_eq in E. subst. reflexivity.
Qed.

Lemma encode_strings ps : map_throwing encode (List.map JsString ps) = Normal (List.map JsString ps).
Proof.
  induction ps as [|p ps IH]; [reflexivity|].
  cbn [List.map map_throwing]. rewrite encode_JsString, IH. reflexivity.
Qed.

Lemma stringify_replacement_JsString s :
  stringify_replacement (JsString s) = Normal (JsString s).
Proof. unfold stringify_replacement. cbn. destruct (negb (String.eqb s "")); reflexivity. Qed.

Lemma stringify_strings ps :
  map_throwing stringify_replacement (List.map JsString ps) = Normal (List.map JsString ps).
Proof.
  induction ps as [|p ps IH]; [reflexivity|].
  cbn [List.map map_throwing]. rewrite stringify_replacement_JsString, IH. reflexivity.
Qed.

Lemma no_percent_uint d : no_percent (NilEmpty.string_of_uint d) = true.
Proof. induction d; simpl; auto. Qed.

Lemma no_percent_string_of_Z z : no_percent (string_of_Z z) = true.
Proof.
  unfold string_of_Z, NilZero.string_of_int.
  destruct (Z.to_int z) as [d|d]; [|cbn [no_percent Ascii.eqb negb andb]];
    (destruct d; [reflexivity|apply (no_percent_uint (_ _))..]).
Qed.

Lemma no_percent_quoted label : no_percent label = true -> no_percent (quoted label) = true.
Proof.
  intros H. unfold quoted. cbn [no_percent]. rewrite no_percent_append, H. reflexivity.
Qed.

(** The messages of the timers have nothing to trim. *)
Lemma trim_started label :
  trim ("Started timer " +:+ quoted label) = "Started timer " +:+ quoted label.
Proof.
  change ("Started timer " +:+ quoted label)
    with (String "S" (("tarted timer " +:+ String JSON.dquote label)
                      +:+ String JSON.dquote "")).
  apply trim_bounded; reflexivity.
Qed.

Lemma trim_ended label (text : string) :
  trim ("Ended timer " +:+ quoted label +:+ ", time taken was " +:+ text +:+ " seconds")
  = "Ended timer " +:+ quoted label +:+ ", time taken was " +:+ text +:+ " seconds".
Proof.
  assert (E : "Ended timer " +:+ quoted label +:+ ", time taken was " +:+ text +:+ " seconds"
              = ("Ended timer " +:+ quoted label +:+ ", time taken was "
                 +:+ text +:+ " second") +:+ "s").
  { rewrite !append_assoc. reflexivity. }
  rewrite E.
  change (("Ended timer " +:+ quoted label +:+ ", time taken was " +:+ text +:+ " second")
          +:+ "s")
    with (String "E" (("nded timer " +:+ quoted label +:+ ", time taken was "
                       +:+ text +:+ " second") +:+ "s")).
  apply trim_bounded; reflexivity.
Qed.

Lemma removelast_take {A} (l : list A) : removelast l = take (length l - 1) l.
Proof.
  rewrite removelast_firstn_len. f_equal. lia.
Qed.

Section WithGroups.
Context {Backend : Type}.
Implicit Types w : World (Backend := Backend).

Lemma namespaces_of_open_group w g :
  namespaces_of (open_group w g) = (namespaces_of w ++ [default "" (snd g)])%list.
Proof.
  unfold open_group, namespaces_of, groupCollapsed, group, Lumberjack.group, deref.
  destruct g as [[] title]; cbn; apply lookup_total_insert_eq.
Qed.

Lemma namespaces_of_groupEnd w :
  namespaces_of (fst (groupEnd w)) = removelast (namespaces_of w).
Proof.
  unfold namespaces_of, groupEnd, Lumberjack.groupEnd, deref. cbn. apply lookup_total_insert_eq.
Qed.

Lemma namespaces_of_open_groups groups : forall w,
  namespaces_of (open_groups groups w)
  = (namespaces_of w ++ List.map (fun g => default "" (snd g)) groups)%list.
Proof.
  unfold open_groups. induction groups as [|g groups IH]; intros w; cbn [fold_left List.map].
  - symmetry. apply app_nil_r.
  - rewrite IH, namespaces_of_open_group, <- app_assoc. reflexivity.
Qed.

Lemma namespaces_of_close_groups n : forall w,
  namespaces_of (close_groups n w) = take (length (namespaces_of w) - n) (namespaces_of w).
Proof.
  unfold close_groups. induction n as [|n IH]; intros w.
  - cbn [Nat.iter nat_rect]. rewrite Nat.sub_0_r, firstn_all. reflexivity.
  - rewrite Nat.iter_succ, namespaces_of_groupEnd, removelast_take, IH, length_take, take_take.
    f_equal. lia.
Qed.

(** X12. [group] and [groupCollapsed] add their title (the empty string
    for none) at the end of the array of namespaces; [groupEnd] removes
    the last one and leaves an empty array empty; as many [groupEnd] as
    groups were opened give the array back. *)
Theorem groups_nest w groups :
  namespaces_of (open_groups groups w)
  = (namespaces_of w ++ List.map (fun g => default "" (snd g)) groups)%list /\
  (forall n, namespaces_of (close_groups n w)
             = take (length (namespaces_of w) - n) (namespaces_of w)) /\
  namespaces_of (close_groups (length groups) (open_groups groups w)) = namespaces_of w.
Proof.
  split; [apply namespaces_of_open_groups|]. split; [intros n; apply namespaces_of_close_groups|].
  rewrite namespaces_of_close_groups, namespaces_of_open_groups, length_app, length_map.
  replace (length (namespaces_of w) + length groups - length groups)%nat
    with (length (namespaces_of w)) by lia.
  apply take_app_length.
Qed.

End WithGroups.

Section WithConversions.
Context {conversions : Conversions}.

Lemma join_strings separator ps :
  Array_join separator (List.map JsString ps) = Normal (String.concat separator ps).
Proof.
  unfold Array_join.
  assert (H : map_throwing join_element (List.map JsString ps) = Normal ps).
  { induction ps as [|p ps IH]; [reflexivity|].
    cbn [List.map map_throwing join_element ToString bind]. rewrite IH. reflexivity. }
  rewrite H. reflexivity.
Qed.

(** A message without "%" and parameters that are strings. *)
Lemma printf_strings d ps :
  no_percent d = true ->
  printf d (List.map JsString ps) = Normal (d +:+ added ps, List.map JsString ps).
Proof.
  intros Hd. destruct ps as [|p ps].
  - rewrite (printf_plain _ Hd). unfold added. rewrite append_empty_r. reflexivity.
  - unfold printf. rewrite (printf_replaced_text _ _ Hd).
    cbn [List.map length Nat.eqb negb]. change (JsString p :: List.map JsString ps)
      with (List.map JsString (p :: ps)).
    rewrite stringify_strings. cbn [bind]. rewrite join_strings. cbn [bind fst snd].
    rewrite (unescape_text _ _ Hd). reflexivity.
Qed.

Lemma sendToBackend_strings (w : Logger) level sent d ps :
  no_percent d = true ->
  sendToBackend IndexedDBBackend.log level sent (JsString d) (List.map JsString ps) w
  = (queued (record_of w (d +:+ added ps) level sent (JsString d :: List.map JsString ps)) w,
     Normal tt).
Proof.
  intros Hd. unfold sendToBackend, assembleMessage. rewrite (printf_strings _ _ Hd).
  cbn [bind fst snd]. unfold Lumberjack.sendToBackend, IndexedDBBackend.log.
  cbn [Lumberjack.details_for BaseBackend.arguments map_throwing].
  rewrite encode_JsString. cbn [bind]. rewrite encode_strings. reflexivity.
Qed.

Lemma printf_raises pre post :
  no_percent pre = true ->
  printf (pre +:+ "%s" +:+ post) []
  = Throw (TypeError "Cannot read properties of undefined (reading 'toString')").
Proof.
  intros Hp. unfold printf. change "%s" with (specifier "s").
  rewrite (replaced_specifier pre "s" post [] Hp eq_refl). reflexivity.
Qed.

Lemma append_params_strings ps : forall log,
  Forall (fun p => no_percent p = true) ps ->
  append_params log (List.map JsString ps) = Normal (log +:+ spaced ps).
Proof.
  induction ps as [|p ps IH]; intros log Hps.
  - cbn. rewrite append_empty_r. reflexivity.
  - inversion Hps as [|? ? Hp Hps']; subst.
    cbn [List.map append_params assembleMessage_of]. rewrite (printf_plain _ Hp).
    cbn [bind fst ToString]. rewrite (IH _ Hps'). cbn [spaced].
    rewrite !append_assoc. reflexivity.
Qed.

Lemma append_params_raises ps pre post rest : forall log,
  Forall (fun p => no_percent p = true) ps ->
  no_percent pre = true ->
  append_params log (List.map JsString ps ++ JsString (pre +:+ "%s" +:+ post) :: rest)
  = Throw (TypeError "Cannot read properties of undefined (reading 'toString')").
Proof.
  induction ps as [|p ps IH]; intros log Hps Hpre.
  - cbn [List.map app append_params assembleMessage_of]. rewrite (printf_raises _ _ Hpre).
    reflexivity.
  - inversion Hps as [|? ? Hp Hps']; subst.
    cbn [List.map app append_params assembleMessage_of]. rewrite (printf_plain _ Hp).
    cbn [bind fst ToString]. apply (IH _ Hps' Hpre).
Qed.

(** The values of this development make [assembleMessage] return a
    string. *)
Lemma assembleMessage_string message params out unused :
  assembleMessage message params = Normal (out, unused) -> exists s, out = JsString s.
Proof.
  unfold assembleMessage.
  destruct message as [| |b|n|text|z|d|name source|elems|props ctor|up];
    cbn [typeof String.eqb Ascii.eqb Bool.eqb toString];
    try (intros [= <- _]; eexists; reflexivity);
    try (match goal with
         | |- context [encode ?v] =>
             destruct (encode v) as [log|err] eqn:E; [|discriminate]
         end;
         cbn [bind]; destruct params;
         [ intros [= <- _]; apply (RunFacts.encode_string _ _ E)
         | destruct (ToString log); [|discriminate]; cbn [bind];
           match goal with
           | |- context [append_params ?a ?b] => destruct (append_params a b)
           end; [|discriminate]; intros [= <- _]; eexists; reflexivity ]).
  - destruct (append_params "" params); [|discriminate].
    intros [= <- _]. eexists; reflexivity.
  - destruct (printf text params) as [[printed unused']|err]; [|discriminate].
    intros [= <- _]. eexists; reflexivity.
Qed.

(** The message assembled for a value that is [undefined] or an object. *)
Lemma assembleMessage_value message e params :
  typeof message = "undefined" \/ typeof message = "object" ->
  encode message = Normal (JsString e) ->
  assembleMessage message params
  = let* log := append_params e params in Normal (JsString log, params).
Proof.
  intros Ht He. unfold assembleMessage.
  destruct message; cbn [typeof] in Ht; try (destruct Ht; discriminate);
    cbn [typeof String.eqb Ascii.eqb Bool.eqb];
    first [ cbn in He; injection He as <-; reflexivity
          | rewrite He; cbn [bind ToString]; destruct params; reflexivity ].
Qed.

Lemma decorateMessage_value options moment message :
  typeof message = "undefined" \/ typeof message = "object" ->
  decorateMessage options moment message = Normal message.
Proof. intros Ht. destruct message; try reflexivity. destruct Ht; discriminate. Qed.

(** X19. A call of [debug], [error], [info], [log] or [warn] with a string
    and parameters that are strings, when the decorated message holds no
    "%", calls the console method of the same name ([log] for [warn])
    with the decorated message and the parameters, and queues one record
    in the IndexedDB backend: its message is the decorated message, then
    the parameters after a space and joined with spaces; its arguments
    are the decorated message and the parameters; its level is DEBUG,
    ERROR, INFO, NOTICE or WARNING; its timestamp is the time of the call
    and its namespaces the array of the facade.  [trace] does the same,
    with the stack as one more parameter of the record, which the console
    is not given. *)
Theorem console_methods_queue_the_message (w : Logger) moment text d ps :
  decorateMessage (options (facade w)) moment (JsString text) = Normal (JsString d) ->
  no_percent d = true ->
  let params := List.map JsString ps in
  let outcome name level :=
    (queued (record_of w (d +:+ added ps) level (now moment) (JsString d :: params))
       (console_call name (JsString d :: params) w),
     Normal tt) in
  debug IndexedDBBackend.log moment (JsString text) params w = outcome "debug" DEBUG /\
  error IndexedDBBackend.log moment (JsString text) params w = outcome "error" ERROR /\
  info IndexedDBBackend.log moment (JsString text) params w = outcome "info" INFO /\
  log IndexedDBBackend.log moment (JsString text) params w = outcome "log" NOTICE /\
  warn IndexedDBBackend.log moment (JsString text) params w = outcome "log" WARNING /\
  forall stack,
    trace IndexedDBBackend.log moment (Some stack) (JsString text) params w
    = (queued (record_of w (d +:+ added (ps ++ [stack])) NOTICE (now moment)
                 (JsString d :: List.map JsString (ps ++ [stack])))
         (console_call "trace" (JsString d :: params) w),
       Normal tt).
Proof.
  intros Hd Hp params outcome. subst params outcome.
  unfold debug, error, info, log, warn, trace. rewrite Hd.
  cbv zeta. rewrite !(sendToBackend_strings _ _ _ _ _ Hp).
  repeat split. intros stack. cbn [from_option].
  change [JsString stack] with (List.map JsString [stack]). rewrite <- List.map_app.
  rewrite (sendToBackend_strings _ _ _ _ _ Hp). reflexivity.
Qed.

Lemma decorateMessage_plain moment message :
  decorateMessage plain moment (JsString message) = Normal (JsString (trim message)).
Proof.
  unfold decorateMessage, plain.
  cbn [Options.timestamp Options.trace Options.applicationName bind].
  change ("" +:+ " " +:+ message +:+ " " +:+ "") with (String " " (message +:+ " ")).
  rewrite trim_padded. reflexivity.
Qed.

(** X23. When the message is [undefined] or an object and the parameters
    are strings without "%", [log] queues a record whose message is the
    encoded message followed by each parameter after a space; no
    parameter is taken off the arguments.  A parameter with a "%s" that
    no "%" precedes makes the call raise a TypeError after the console
    was called: each parameter is printed with no replacements. *)
Theorem parameters_after_a_value (w : Logger) moment message e ps :
  typeof message = "undefined" \/ typeof message = "object" ->
  encode message = Normal (JsString e) ->
  Forall (fun p => no_percent p = true) ps ->
  log IndexedDBBackend.log moment message (List.map JsString ps) w
  = (queued (record_of w (e +:+ spaced ps) NOTICE (now moment)
               (JsString e :: List.map JsString ps))
       (console_call "log" (message :: List.map JsString ps) w),
     Normal tt) /\
  forall pre post rest,
    no_percent pre = true ->
    let params := (List.map JsString ps ++ JsString (pre +:+ "%s" +:+ post) :: rest)%list in
    exists reason,
      log IndexedDBBackend.log moment message params w
      = (console_call "log" (message :: params) w, Throw (TypeError reason)).
Proof.
  intros Ht He Hps. unfold log. rewrite (decorateMessage_value _ _ _ Ht). split.
  - cbv zeta. unfold sendToBackend. rewrite (assembleMessage_value _ _ _ Ht He).
    rewrite (append_params_strings _ _ Hps). cbn [bind].
    unfold Lumberjack.sendToBackend, IndexedDBBackend.log.
    cbn [Lumberjack.details_for BaseBackend.arguments map_throwing].
    rewrite He. cbn [bind]. rewrite encode_strings. reflexivity.
  - intros pre post rest Hpre. eexists. cbv zeta.
    unfold sendToBackend. rewrite (assembleMessage_value _ _ _ Ht He).
    rewrite (append_params_raises _ _ _ _ _ Hps Hpre). reflexivity.
Qed.

(** X20. With no option set, [decorateMessage] returns the message
    trimmed: the spaces it puts around the message go with the white
    space of the message.  A value that is not a string is returned as it
    is, whatever the options. *)
Theorem decorateMessage_trims moment :
  (forall message,
     decorateMessage plain moment (JsString message) = Normal (JsString (trim message))) /\
  (forall options value,
     typeof value <> "string" -> decorateMessage options moment value = Normal value).
Proof.
  split; [apply decorateMessage_plain|].
  - intros options value Hv. destruct value; try reflexivity. simpl in Hv. congruence.
Qed.

Lemma decorateMessage_short_stack options moment stack message :
  Options.trace options = true ->
  Facade.stack moment = Some stack -> stack <> "" -> (lines stack < 3)%nat ->
  decorateMessage options moment (JsString message)
  = Throw (TypeError "Cannot read properties of undefined (reading 'trim')").
Proof.
  intros Ht Hs Hne Hl. unfold decorateMessage. rewrite Ht, Hs.
  destruct (String.eqb stack "") eqn:E; [apply String.eqb_eq in E; congruence|].
  cbn [negb]. unfold lines in Hl.
  destruct (Nat.leb_spec 3 (length (split_lines stack))); [lia|]. reflexivity.
Qed.

(** X22. With the option [trace] and a stack of one or two lines, every
    logging method raises a TypeError before it has called the console or
    the backend, and [time] raises after it has called [console.time] and
    started the timer. *)
Theorem short_stack_raises {Backend : Type}
    (backend_log : string -> LogDetails -> Backend -> Completion Backend)
    (w : World) moment stack message params pushed started label :
  Options.trace (options (facade w)) = true ->
  Facade.stack moment = Some stack -> stack <> "" -> (lines stack < 3)%nat ->
  exists reason,
    let raised := (w, Throw (TypeError reason)) in
    debug backend_log moment (JsString message) params w = raised /\
    error backend_log moment (JsString message) params w = raised /\
    info backend_log moment (JsString message) params w = raised /\
    log backend_log moment (JsString message) params w = raised /\
    warn backend_log moment (JsString message) params w = raised /\
    trace backend_log moment pushed (JsString message) params w = raised /\
    (timers (facade w) !! default "" label = None ->
     time backend_log started moment label w
     = (set_timers (<[default "" label := started]> (timers (facade w)))
          (console_call "time" [JsString (default "" label)] w),
        Throw (TypeError reason))).
Proof.
  intros Ht Hs Hne Hl. eexists. cbv zeta.
  unfold debug, error, info, log, warn, trace, time.
  rewrite !(decorateMessage_short_stack _ _ _ _ Ht Hs Hne Hl).
  repeat split. intros Hn. rewrite Hn.
  reflexivity.
Qed.

(** X21. With no option set and a label without "%": [time] on a label
    that is not running calls [console.time], keeps the start date and
    queues a record that says the timer has started; [time] on a running
    label only warns on the console; [timeEnd] on a running label calls
    [console.timeEnd], forgets the label, and queues a record with the
    start time minus the end time, in milliseconds, as the time taken;
    [timeEnd] on a label that is not running only warns. *)
Theorem timers_start_and_end (w : Logger) label started ended moment moment' later :
  options (facade w) = plain ->
  timers (facade w) !! default "" label = None ->
  no_percent (default "" label) = true ->
  let name := default "" label in
  let started_text := "Started timer " +:+ quoted name in
  let ended_text :=
    "Ended timer " +:+ quoted name +:+ ", time taken was "
    +:+ string_of_Z (getTime started - getTime ended) +:+ " seconds" in
  let w1 :=
    queued (record_of w started_text NOTICE (now moment) [JsString started_text])
      (set_timers (<[name := started]> (timers (facade w)))
         (console_call "time" [JsString name] w)) in
  let w2 :=
    queued (record_of w ended_text NOTICE (now moment') [JsString ended_text])
      (set_timers (timers (facade w)) (console_call "timeEnd" [JsString name] w1)) in
  time IndexedDBBackend.log started moment label w = (w1, Normal tt) /\
  time IndexedDBBackend.log later moment' label w1
  = (console_call "warn"
       [JsString ("The timer " +:+ quoted name +:+ " has already been started")] w1,
     Normal tt) /\
  timeEnd IndexedDBBackend.log ended moment' label w1 = (w2, Normal tt) /\
  timeEnd IndexedDBBackend.log ended moment label w
  = (console_call "warn"
       [JsString ("The timer " +:+ quoted name +:+ " has not been started")] w,
     Normal tt).
Proof.
  intros Ho Hn Hl name started_text ended_text w1 w2. subst name.
  assert (Hs : no_percent started_text = true).
  { subst started_text. rewrite no_percent_append, (no_percent_quoted _ Hl). reflexivity. }
  assert (He : no_percent ended_text = true).
  { subst ended_text.
    rewrite !no_percent_append, (no_percent_quoted _ Hl), no_percent_string_of_Z.
    reflexivity. }
  assert (H1 : timers (facade w1) !! default "" label = Some started).
  { subst w1. cbn. apply lookup_insert_eq. }
  split; [|split; [|split]].
  - unfold time. rewrite Hn. cbv zeta.
    cbn [set_timers console_call facade options]. rewrite Ho.
    rewrite decorateMessage_plain. fold started_text.
    subst started_text. rewrite trim_started.
    rewrite (sendToBackend_strings _ _ _ _ [] Hs). cbn [List.map added].
    rewrite append_empty_r. reflexivity.
  - unfold time. rewrite H1. reflexivity.
  - assert (Ho1 : options (facade w1) = plain) by exact Ho.
    unfold timeEnd. rewrite H1. cbv zeta.
    cbn [set_timers console_call facade options]. rewrite Ho1.
    rewrite decorateMessage_plain. fold ended_text.
    subst ended_text. rewrite trim_ended.
    rewrite (sendToBackend_strings _ _ _ _ [] He). cbn [List.map added].
    rewrite append_empty_r. subst w2 w1. cbn.
    rewrite delete_insert_id by exact Hn. reflexivity.
  - unfold timeEnd. rewrite Hn. reflexivity.
Qed.

End WithConversions.

(** A warning with one parameter. *)
Lemma console_methods_queue_the_message_witness :
  warn (conversions := literal_conversions) IndexedDBBackend.log (noon None)
    (JsString " disk full ") [JsString "sda1"] (fresh plain)
  = (queued (record_of (fresh plain) "disk full sda1" WARNING (now (noon None))
               [JsString "disk full"; JsString "sda1"])
       (console_call "log" [JsString "disk full"; JsString "sda1"] (fresh plain)),
     Normal tt).
Proof.
  destruct (console_methods_queue_the_message (conversions := literal_conversions)
              (fresh plain) (noon None) " disk full " "disk full" ["sda1"] eq_refl eq_refl)
    as (_ & _ & _ & _ & Hwarn & _).
  exact Hwarn.
Defined.

Lemma parameters_after_a_value_witness :
  log (conversions := literal_conversions) IndexedDBBackend.log (noon None)
    (JsArray [JsNum (Int 1); JsNum (Int 2)]) [JsString "rows"] (fresh plain)
  = (queued (record_of (fresh plain) "[1,2] rows" NOTICE (now (noon None))
               [JsString "[1,2]"; JsString "rows"])
       (console_call "log" [JsArray [JsNum (Int 1); JsNum (Int 2)]; JsString "rows"]
          (fresh plain)),
     Normal tt) /\
  exists reason,
    log (conversions := literal_conversions) IndexedDBBackend.log (noon None)
      (JsArray [JsNum (Int 1); JsNum (Int 2)]) [JsString "rows"; JsString "100%s"]
      (fresh plain)
    = (console_call "log"
         [JsArray [JsNum (Int 1); JsNum (Int 2)]; JsString "rows"; JsString "100%s"]
         (fresh plain),
       Throw (TypeError reason)).
Proof.
  destruct (parameters_after_a_value (conversions := literal_conversions)
              (fresh plain) (noon None) (JsArray [JsNum (Int 1); JsNum (Int 2)])
              "[1,2]" ["rows"] (or_intror eq_refl) eq_refl
              ltac:(repeat constructor))
    as [Hlog Hraise].
  split; [exact Hlog|]. exact (Hraise "100" "" [] eq_refl).
Defined.

Lemma decorateMessage_trims_witness :
  decorateMessage plain (noon None) (JsString "  ready ") = Normal (JsString "ready") /\
  decorateMessage plain (noon None) (JsNum (Int 3)) = Normal (JsNum (Int 3)).
Proof.
  destruct (decorateMessage_trims (noon None)) as [Hstring Hvalue].
  split; [exact (Hstring "  ready ")|]. apply Hvalue. discriminate.
Defined.

(** A timer started at 1000 and ended at 4000. *)
Lemma timers_start_and_end_witness :
  let start := time (conversions := literal_conversions) IndexedDBBackend.log
                 {| getTime := 1000 |} (noon None) (Some "load") (fresh plain) in
  let stop := timeEnd (conversions := literal_conversions) IndexedDBBackend.log
                {| getTime := 4000 |} (noon None) (Some "load") (fst start) in
  snd start = Normal tt /\ snd stop = Normal tt /\
  List.map message (IndexedDBBackend.toFlush (backend (fst stop)))
  = ["Started timer " +:+ quoted "load";
     "Ended timer " +:+ quoted "load" +:+ ", time taken was -3000 seconds"].
Proof.
  destruct (timers_start_and_end (conversions := literal_conversions) (fresh plain)
              (Some "load") {| getTime := 1000 |} {| getTime := 4000 |} (noon None) (noon None)
              {| getTime := 2000 |} eq_refl eq_refl eq_refl)
    as (Hstart & _ & Hstop & _).
  cbv zeta. rewrite Hstart. cbn [fst snd]. rewrite Hstop. cbn [fst snd].
  split; [reflexivity|]. split; reflexivity.
Defined.

(** A stack of one line. *)
Lemma short_stack_raises_witness :
  let traced := {| Options.timestamp := false; Options.trace := true;
                   Options.applicationName := None |} in
  exists reason,
    log (conversions := literal_conversions) IndexedDBBackend.log (noon (Some "Error"))
      (JsString "ready") [] (fresh traced)
    = (fresh traced, Throw (TypeError reason)).
Proof.
  cbv zeta.
  destruct (short_stack_raises (conversions := literal_conversions) IndexedDBBackend.log
              (fresh {| Options.timestamp := false; Options.trace := true;
                        Options.applicationName := None |})
              (noon (Some "Error")) "Error" "ready" [] None {| getTime := 0 |} None
              eq_refl eq_refl ltac:(discriminate) (le_S _ _ (le_n 2)))
    as (reason & _ & _ & _ & Hlog & _).
  exists reason. exact Hlog.
Defined.

End FacadeFacts.

(** ** inject and revert *)

Module InjectionFacts.
Import Injection InjectionSpec.

Lemma facades_installed n :
  facades (installed n)
  = match n with
    | O => []
    | S n => Native :: (Wrapper <$> seq 0 n)
    end.
Proof.
  induction n as [|n IH]; [reflexivity|].
  cbn [installed inject constructor facades console]. rewrite IH.
  destruct n as [|n]; [reflexivity|].
  cbn [installed inject console]. rewrite seq_S, fmap_app. reflexivity.
Qed.

Lemma kept_installed n this :
  (this < n)%nat ->
  facades (installed n) !! this
  = Some (match this with O => Native | S before => Wrapper before end).
Proof.
  intros Hn. rewrite facades_installed. destruct n as [|n]; [lia|].
  destruct this as [|before]; [reflexivity|].
  change ((Wrapper <$> seq 0 n) !! before = Some (Wrapper before)).
  rewrite list_lookup_fmap, lookup_seq_lt by lia. reflexivity.
Qed.

Lemma facades_reverted order : forall g, facades (reverted order g) = facades g.
Proof.
  unfold reverted. induction order as [|this order IH]; intros g; [reflexivity|].
  cbn [fold_left]. rewrite IH. unfold revert.
  destruct (facades g !! this); reflexivity.
Qed.

Lemma console_reverted order this g kept :
  facades g !! this = Some kept ->
  console (reverted (order ++ [this]) g) = kept.
Proof.
  intros Hk. unfold reverted. rewrite fold_left_app. cbn [fold_left].
  fold (reverted order g). unfold revert. rewrite facades_reverted, Hk. reflexivity.
Qed.

(** X24. Facades made and injected one after the other, then reverted in
    any order, some of them more than once or not at all: the console of
    the global object is the one that the facade reverted last found when
    it was made, the console of the runtime for the first facade and the
    facade made before it for any other.  Reverting all of them, the last
    made first, gives the console of the runtime back; reverting them in
    the order they were made leaves the last but one installed, though it
    was reverted. *)
Theorem last_revert_decides n :
  (forall order this,
     (this < n)%nat ->
     console (reverted (order ++ [this]) (installed n))
     = match this with
       | O => Native
       | S before => Wrapper before
       end) /\
  console (reverted (rev (seq 0 n)) (installed n)) = Native /\
  ((2 <= n)%nat -> console (reverted (seq 0 n) (installed n)) = Wrapper (n - 2)).
Proof.
  split; [|split].
  - intros order this Hn. apply console_reverted, kept_installed, Hn.
  - destruct n as [|n]; [reflexivity|].
    change (seq 0 (S n)) with (0%nat :: seq 1 n). cbn [rev].
    apply console_reverted, (kept_installed (S n) 0). lia.
  - intros Hn. destruct n as [|[|n]]; [lia..|].
    rewrite seq_S. cbn [Nat.add].
    rewrite (console_reverted _ _ _ _ (kept_installed (S (S n)) (S n) ltac:(lia))).
    f_equal. lia.
Qed.

(** Three facades. *)
Lemma last_revert_decides_witness :
  console (reverted [2; 1; 0]%nat (installed 3)) = Native /\
  console (reverted [0; 1; 2]%nat (installed 3)) = Wrapper 1.
Proof.
  destruct (last_revert_decides 3) as (Hlast & _ & Horder).
  split.
  - exact (Hlast [2; 1]%nat 0%nat (le_S _ _ (le_S _ _ (le_n 1)))).
  - exact (Horder (le_S _ _ (le_n 2))).
Defined.

End InjectionFacts.
